(** * Backtracking Sudoku solvers: a shallow embedding and its properties

    The development embeds [sudoku_final_solution.py] (the closure-based
    solver) and the class [SudokuState] of [sudoku_approach1.py], together
    with the cell selection of [sudoku_approach3_samestate_heap.py].

    Python integers are [Z]; a grid is a list of rows; each
    [defaultdict(set)] is a [gmap] from keys to [gset Z] whose item access
    stores an empty set under a missing key, as [__missing__] does. *)

From Stdlib Require Import ZArith Lia.
From stdpp Require Import base option list list_numbers gmap sets.

Local Open Scope Z_scope.

(** ** Python sequences *)

Abbreviation Grid := (list (list Z)).

(** Position of index [i] in a sequence of length [len]: negative indices
    count from the end, anything else out of range is an [IndexError]
    ([None]). *)
Definition py_pos (len : nat) (i : Z) : option nat :=
  if bool_decide (0 ≤ i < Z.of_nat len) then Some (Z.to_nat i)
  else if bool_decide (- Z.of_nat len ≤ i < 0) then Some (Z.to_nat (i + Z.of_nat len))
  else None.

(** [l[i]] *)
Definition py_getitem {A} (l : list A) (i : Z) : option A :=
  n ← py_pos (length l) i; l !! n.

(** [l[i] = x] *)
Definition py_setitem {A} (l : list A) (i : Z) (x : A) : option (list A) :=
  n ← py_pos (length l) i; Some (<[n := x]> l).

(** [g[row][col]] *)
Definition cell (g : Grid) (row col : Z) : option Z :=
  r ← py_getitem g row; py_getitem r col.

(** [g[row][col] = v] *)
Definition set_cell (g : Grid) (row col v : Z) : option Grid :=
  r ← py_getitem g row; r' ← py_setitem r col v; py_setitem g row r'.

(** [range(9)] and [range(1, 10)] *)
Definition range9 : list Z := seqZ 0 9.
Definition digits : list Z := seqZ 1 9.
Global Arguments range9 : simpl never.
Global Arguments digits : simpl never.

(** [[[-1] * 9] * 9] *)
Definition invalid_sudoku : Grid := replicate 9 (replicate 9 (-1)).

(** ** [defaultdict(set)] *)

Section defaultdict.
Context `{Countable K}.

(** The set stored under [k], empty when [k] is absent. *)
Definition dd_peek (m : gmap K (gset Z)) (k : K) : gset Z :=
  default ∅ (m !! k).

(** What item access [m[k]] leaves behind: a missing key is created with
    an empty set. *)
Definition dd_touch (m : gmap K (gset Z)) (k : K) : gmap K (gset Z) :=
  match m !! k with
  | Some _ => m
  | None => <[k := ∅]> m
  end.

(** [v in m[k]] *)
Definition dd_contains (v : Z) (m : gmap K (gset Z)) (k : K)
  : bool * gmap K (gset Z) :=
  (bool_decide (v ∈ dd_peek m k), dd_touch m k).

(** [m[k].add(v)] *)
Definition dd_add (m : gmap K (gset Z)) (k : K) (v : Z) : gmap K (gset Z) :=
  <[k := dd_peek m k ∪ {[v]}]> m.

(** [m[k].discard(v)] *)
Definition dd_discard (m : gmap K (gset Z)) (k : K) (v : Z) : gmap K (gset Z) :=
  <[k := dd_peek m k ∖ {[v]}]> m.
End defaultdict.

(** ** The search state

    In [sudoku_final_solution.py] these are the argument [sudoku] and the
    closure variables of [sudoku_solver]; in [sudoku_approach1.py] they are
    the attributes of [SudokuState] (where [grid_to_cells] is called
    [sub_grid]). *)

Record State : Type := mkState {
  board : Grid;
  row_to_seen_vals : gmap Z (gset Z);
  col_to_seen_vals : gmap Z (gset Z);
  grid_to_cells : gmap (Z * Z) (gset Z);
  empty_cells : list (Z * Z)
}.

Definition with_board (st : State) (g : Grid) : State :=
  mkState g (row_to_seen_vals st) (col_to_seen_vals st) (grid_to_cells st) (empty_cells st).
Definition with_rows (st : State) (m : gmap Z (gset Z)) : State :=
  mkState (board st) m (col_to_seen_vals st) (grid_to_cells st) (empty_cells st).
Definition with_cols (st : State) (m : gmap Z (gset Z)) : State :=
  mkState (board st) (row_to_seen_vals st) m (grid_to_cells st) (empty_cells st).
Definition with_boxes (st : State) (m : gmap (Z * Z) (gset Z)) : State :=
  mkState (board st) (row_to_seen_vals st) (col_to_seen_vals st) m (empty_cells st).
Definition with_empty (st : State) (l : list (Z * Z)) : State :=
  mkState (board st) (row_to_seen_vals st) (col_to_seen_vals st) (grid_to_cells st) l.

(** The state before the scan: the grid as given, empty dictionaries, no
    empty cell recorded. *)
Definition fresh_state (sudoku : Grid) : State := mkState sudoku ∅ ∅ ∅ [].

(** [(row // 3, col // 3)] *)
Definition sub_grid_no (row col : Z) : Z * Z := (row `div` 3, col `div` 3).

(** What a scan of the grid ends with. *)
Inductive scan_result : Type :=
  | Scanned (st : State)
  | DuplicateClue
  | ScanIndexError.

(** What a search ends with.  [DepthExceeded] is an artefact of the
    embedding: the search was not allowed to nest deep enough.  [log] lists
    the state after every placement and every undo, oldest first. *)
Inductive outcome (R : Type) : Type :=
  | DepthExceeded
  | SearchIndexError
  | Finished (goal : option R) (st : State) (log : list State).
Arguments DepthExceeded {R}.
Arguments SearchIndexError {R}.
Arguments Finished {R} goal st log.

(** What a call of [sudoku_solver] ends with: the grid it returns and the
    contents of the caller's [sudoku] afterwards (the solver writes into
    it). *)
Inductive solver_result : Type :=
  | Returned (answer : Grid) (sudoku_after : Grid)
  | Raised
  | Unfinished.

(** ** The scan of the input grid

    [solve_sudoku] (lines 29-44 of [sudoku_final_solution.py]) and
    [_initialize_state] ([sudoku_approach1.py]) run the same double loop;
    they differ in the order in which the three dictionaries are asked
    whether the value was seen, which is the parameter [clashes]. *)

Section scan.
Variable clashes : State → Z → Z → Z → bool * State.

(** The body of the inner loop; [DuplicateClue] stands for
    [return invalid_sudoku], respectively for the [ValueError]. *)
Definition scan_cell (st : State) (row col : Z) : scan_result :=
  match cell (board st) row col with
  | None => ScanIndexError
  | Some val =>
    if bool_decide (val = 0) then
      Scanned (with_empty st (empty_cells st ++ [(row, col)]))
    else
      let '(clash, st) := clashes st row col val in
      if clash then DuplicateClue
      else
        let st := with_cols st (dd_add (col_to_seen_vals st) col val) in
        let st := with_rows st (dd_add (row_to_seen_vals st) row val) in
        Scanned (with_boxes st (dd_add (grid_to_cells st) (sub_grid_no row col) val))
  end.

(** [for col in range(9)] *)
Fixpoint scan_cols (row : Z) (cols : list Z) (st : State) : scan_result :=
  match cols with
  | [] => Scanned st
  | col :: cols =>
    match scan_cell st row col with
    | Scanned st => scan_cols row cols st
    | r => r
    end
  end.

(** [for row in range(9)] *)
Fixpoint scan_rows (rows : list Z) (st : State) : scan_result :=
  match rows with
  | [] => Scanned st
  | row :: rows =>
    match scan_cols row range9 st with
    | Scanned st => scan_rows rows st
    | r => r
    end
  end.
End scan.

(** ** [sudoku_final_solution.py] *)

Module Final.

(** Line 38: [val in row_to_seen_vals[row] or val in col_to_seen_vals[col]
    or val in grid_to_cells[sub_grid_no]]. *)
Definition clue_clashes (st : State) (row col val : Z) : bool * State :=
  let '(in_row, rows) := dd_contains val (row_to_seen_vals st) row in
  let st := with_rows st rows in
  if in_row then (true, st)
  else
    let '(in_col, cols) := dd_contains val (col_to_seen_vals st) col in
    let st := with_cols st cols in
    if in_col then (true, st)
    else
      let '(in_box, boxes) := dd_contains val (grid_to_cells st) (sub_grid_no row col) in
      (in_box, with_boxes st boxes).

(** Lines 29-44: the scan, with the test of line 38. *)
Definition scan_rows : list Z → State → scan_result := scan_rows clue_clashes.

(** Lines 67-68: [digit not in row_to_seen_vals[row] and digit not in
    col_to_seen_vals[col] and digit not in grid_to_cells[sub_grid_no]]. *)
Definition digit_fits (st : State) (row col digit : Z) : bool * State :=
  let '(in_row, rows) := dd_contains digit (row_to_seen_vals st) row in
  let st := with_rows st rows in
  if in_row then (false, st)
  else
    let '(in_col, cols) := dd_contains digit (col_to_seen_vals st) col in
    let st := with_cols st cols in
    if in_col then (false, st)
    else
      let '(in_box, boxes) := dd_contains digit (grid_to_cells st) (sub_grid_no row col) in
      (negb in_box, with_boxes st boxes).

(** Lines 70-76: write the digit, pop the last empty cell, record the
    digit as seen. *)
Definition place (st : State) (row col digit : Z) : option State :=
  g ← set_cell (board st) row col digit;
  let st := with_board st g in
  match empty_cells st with
  | [] => None
  | _ :: _ =>
    let st := with_empty st (removelast (empty_cells st)) in
    let st := with_rows st (dd_add (row_to_seen_vals st) row digit) in
    let st := with_cols st (dd_add (col_to_seen_vals st) col digit) in
    Some (with_boxes st (dd_add (grid_to_cells st) (sub_grid_no row col) digit))
  end.

(** Lines 82-87: clear the cell, push it back, forget the digit. *)
Definition undo (st : State) (row col digit : Z) : option State :=
  g ← set_cell (board st) row col 0;
  let st := with_board st g in
  let st := with_empty st (empty_cells st ++ [(row, col)]) in
  let st := with_rows st (dd_discard (row_to_seen_vals st) row digit) in
  let st := with_cols st (dd_discard (col_to_seen_vals st) col digit) in
  Some (with_boxes st (dd_discard (grid_to_cells st) (sub_grid_no row col) digit)).

(** Lines 65-90, [for digit in range(1, 10)], with the recursive call
    abstracted as [search]. *)
Fixpoint try_digits (search : State → outcome Grid) (row col : Z)
    (ds : list Z) (st : State) (log : list State) : outcome Grid :=
  match ds with
  | [] => Finished None st log
  | digit :: ds =>
    let '(fits, st) := digit_fits st row col digit in
    if fits then
      match place st row col digit with
      | None => SearchIndexError
      | Some st1 =>
        match search st1 with
        | Finished None st2 log2 =>
          match undo st2 row col digit with
          | None => SearchIndexError
          | Some st3 => try_digits search row col ds st3 (log ++ st1 :: log2 ++ [st3])
          end
        | Finished (Some _) st2 log2 => Finished (Some (board st2)) st2 (log ++ st1 :: log2)
        | DepthExceeded => DepthExceeded
        | SearchIndexError => SearchIndexError
        end
      end
    else try_digits search row col ds st log
  end.

(** Line 62: [empty_cells[-1]] ([None] on an empty list). *)
Definition choose_cell (st : State) : option (Z * Z) := last (empty_cells st).

(** Lines 50-90.  [depth] bounds how many recursive calls may be nested
    below this one. *)
Fixpoint depth_first_search (depth : nat) (st : State) : outcome Grid :=
  match choose_cell st with
  | None => Finished (Some (board st)) st []
  | Some (row, col) =>
    match depth with
    | O => DepthExceeded
    | S depth => try_digits (depth_first_search depth) row col digits st []
    end
  end.

(** Lines 27-48.  The search may nest one call per recorded empty cell. *)
Definition solve_sudoku (sudoku : Grid) : solver_result :=
  match scan_rows range9 (fresh_state sudoku) with
  | DuplicateClue => Returned invalid_sudoku sudoku
  | ScanIndexError => Raised
  | Scanned st =>
    match depth_first_search (length (empty_cells st)) st with
    | Finished (Some goal_state) st' _ => Returned goal_state (board st')
    | Finished None st' _ => Returned invalid_sudoku (board st')
    | SearchIndexError => Raised
    | DepthExceeded => Unfinished
    end
  end.

(** Lines 92-95. *)
Definition sudoku_solver (sudoku : Grid) : solver_result := solve_sudoku sudoku.

End Final.


(** ** [sudoku_approach1.py] *)

Module Approach1.

(** [_grid_key]: [(row // n_sq_root, col // n_sq_root)] with
    [n_sq_root = math.sqrt(9)].  The quotients are the floats [0.0], [1.0],
    ..., which hash and compare as the integers they equal, so the key is
    kept as a pair of integers.  This is the key for the integers that are
    floats themselves (below [2^53] in magnitude), among them the cells
    the constructor and the search pass; [Interface._grid_key] below follows
    the conversion to a float for every integer. *)
Definition _grid_key (row col : Z) : Z * Z := (row `div` 3, col `div` 3).

(** [is_unsolvable]: [val in col_to_seen_vals[col] or val in
    row_to_seen_vals[row] or val in sub_grid[_grid_key(row, col)]]. *)
Definition is_unsolvable (st : State) (row col val : Z) : bool * State :=
  let '(in_col, cols) := dd_contains val (col_to_seen_vals st) col in
  let st := with_cols st cols in
  if in_col then (true, st)
  else
    let '(in_row, rows) := dd_contains val (row_to_seen_vals st) row in
    let st := with_rows st rows in
    if in_row then (true, st)
    else
      let '(in_box, boxes) := dd_contains val (grid_to_cells st) (_grid_key row col) in
      (in_box, with_boxes st boxes).

(** [is_goal_state] *)
Definition is_goal_state (st : State) : bool :=
  bool_decide (length (empty_cells st) = 0%nat).

(** [place_digit] *)
Definition place_digit (st : State) (row col val : Z) : option State :=
  g ← set_cell (board st) row col val;
  let st := with_board st g in
  match empty_cells st with
  | [] => None
  | _ :: _ =>
    let st := with_empty st (removelast (empty_cells st)) in
    let st := with_rows st (dd_add (row_to_seen_vals st) row val) in
    let st := with_cols st (dd_add (col_to_seen_vals st) col val) in
    Some (with_boxes st (dd_add (grid_to_cells st) (_grid_key row col) val))
  end.

(** [revert_state]: the board is not written. *)
Definition revert_state (st : State) (row col val : Z) : State :=
  let st := with_empty st (empty_cells st ++ [(row, col)]) in
  let st := with_rows st (dd_discard (row_to_seen_vals st) row val) in
  let st := with_cols st (dd_discard (col_to_seen_vals st) col val) in
  with_boxes st (dd_discard (grid_to_cells st) (_grid_key row col) val).

(** [choose_cell]: [self.empty_cells[-1]] *)
Definition choose_cell (st : State) : option (Z * Z) := last (empty_cells st).

(** [SudokuState(board)]: [__init__] followed by [_initialize_state],
    the scan with [is_unsolvable] as its test ([_grid_key] is
    [sub_grid_no]). *)
Definition SudokuState (sudoku : Grid) : scan_result :=
  scan_rows is_unsolvable range9 (fresh_state sudoku).

(** [for digit in range(1, 10)] of [depth_first_search]. *)
Fixpoint try_digits (search : State → outcome State) (row col : Z)
    (ds : list Z) (st : State) (log : list State) : outcome State :=
  match ds with
  | [] => Finished None st log
  | digit :: ds =>
    let '(clash, st) := is_unsolvable st row col digit in
    if negb clash then
      match place_digit st row col digit with
      | None => SearchIndexError
      | Some st1 =>
        match search st1 with
        | Finished None st2 log2 =>
          let st3 := revert_state st2 row col digit in
          try_digits search row col ds st3 (log ++ st1 :: log2 ++ [st3])
        | Finished (Some deep_state) st2 log2 =>
          Finished (Some deep_state) st2 (log ++ st1 :: log2)
        | DepthExceeded => DepthExceeded
        | SearchIndexError => SearchIndexError
        end
      end
    else try_digits search row col ds st log
  end.

Fixpoint depth_first_search (depth : nat) (st : State) : outcome State :=
  if is_goal_state st then Finished (Some st) st []
  else
    match choose_cell st with
    | None => SearchIndexError
    | Some (row, col) =>
      match depth with
      | O => DepthExceeded
      | S depth => try_digits (depth_first_search depth) row col digits st []
      end
    end.

(** [sudoku_solver]: a [ValueError] from the constructor, or a search
    that found nothing, gives [invalid_sudoku]. *)
Definition sudoku_solver (sudoku : Grid) : solver_result :=
  match SudokuState sudoku with
  | DuplicateClue => Returned invalid_sudoku sudoku
  | ScanIndexError => Raised
  | Scanned initial_state =>
    match depth_first_search (length (empty_cells initial_state)) initial_state with
    | Finished (Some goal_state) st' _ => Returned (board goal_state) (board st')
    | Finished None st' _ => Returned invalid_sudoku (board st')
    | SearchIndexError => Raised
    | DepthExceeded => Unfinished
    end
  end.

End Approach1.

(** ** [sudoku_approach1.py]: [is_unsolvable] called with any integers

    [SudokuState] checks none of its arguments, and a caller may pass
    integers that are no cell of the board.  The dictionaries take any
    integer as a key.  [row // self.n_sq_root] however divides floats
    ([n_sq_root] is [math.sqrt(9)], the float [3.0]), so Python converts
    [row] to a float first, and that fails for an integer too large to be
    one. *)

Module Interface.

(** What a call of [is_unsolvable] can raise: [OverflowError], "int too
    large to convert to float". *)
Inductive exn : Type := OverflowError.

Inductive result (A : Type) : Type :=
  | Ok (a : A)
  | Raise (e : exn).
Arguments Ok {A} a.
Arguments Raise {A} e.

(** The largest float is [2^1024 - 2^971].  The conversion rounds to the
    nearest float and fails when that is beyond the largest one: from
    [2^1024 - 2^970] on, on either side of 0. *)
Definition float_limit : Z := 2 ^ 1024 - 2 ^ 970.

(** Every integer below [2^53] in magnitude is a float, and so is its
    quotient by 3: there the conversion and the division round nothing. *)
Definition exact_limit : Z := 2 ^ 53.

Section rounding.

(** Between the two limits the float nearest to the integer is divided, and
    the quotient is rounded again.  Which float that gives is not worked out
    here: [rounded_quotient i] stands for it (it has no fractional part, so
    it is kept as an integer, like the exact quotients). *)
Variable rounded_quotient : Z → Z.

(** [i // self.n_sq_root] for an integer [i]. *)
Definition floordiv_n_sq_root (i : Z) : result Z :=
  if bool_decide (Z.abs i < exact_limit) then Ok (i `div` 3)
  else if bool_decide (Z.abs i < float_limit) then Ok (rounded_quotient i)
  else Raise OverflowError.

(** [_grid_key]: the quotient of [row] is computed first. *)
Definition _grid_key (row col : Z) : result (Z * Z) :=
  match floordiv_n_sq_root row with
  | Raise e => Raise e
  | Ok r =>
    match floordiv_n_sq_root col with
    | Raise e => Raise e
    | Ok c => Ok (r, c)
    end
  end.

(** [is_unsolvable]: [or] stops at the first test that holds, so the key of
    the box is computed only when the column and the row do not hold [val];
    by then both have been looked up. *)
Definition is_unsolvable (st : State) (row col val : Z) : result bool * State :=
  let '(in_col, cols) := dd_contains val (col_to_seen_vals st) col in
  let st := with_cols st cols in
  if in_col then (Ok true, st)
  else
    let '(in_row, rows) := dd_contains val (row_to_seen_vals st) row in
    let st := with_rows st rows in
    if in_row then (Ok true, st)
    else
      match _grid_key row col with
      | Raise e => (Raise e, st)
      | Ok key =>
        let '(in_box, boxes) := dd_contains val (grid_to_cells st) key in
        (Ok in_box, with_boxes st boxes)
      end.

End rounding.

End Interface.

(** The states of approach 1 that come from the constructor by legality
    tests with any integers and by placements and reversions at cells of
    the board, which is how the search uses them.  A placement at another
    index the list accepts (a negative one) is not among the steps. *)
Inductive reachable_on_board (rounded_quotient : Z → Z) : State → Prop :=
  | reach_init sudoku st :
    Approach1.SudokuState sudoku = Scanned st →
    reachable_on_board rounded_quotient st
  | reach_test st row col val :
    reachable_on_board rounded_quotient st →
    reachable_on_board rounded_quotient
      (Interface.is_unsolvable rounded_quotient st row col val).2
  | reach_place st row col val st' :
    reachable_on_board rounded_quotient st → 0 ≤ row < 9 → 0 ≤ col < 9 →
    Approach1.place_digit st row col val = Some st' →
    reachable_on_board rounded_quotient st'
  | reach_revert st row col val :
    reachable_on_board rounded_quotient st → 0 ≤ row < 9 → 0 ≤ col < 9 →
    reachable_on_board rounded_quotient (Approach1.revert_state st row col val).

(** ** [sudoku_approach3_samestate_heap.py]: cell selection *)

Module Approach3.

(** The attributes [choose_cell] reads: the heap list [empty_cells] and
    [col_to_missing_rows], a [defaultdict(set)] from a column to the rows
    of its empty cells. *)
Record SudokuState : Type := mkSudokuState {
  empty_cells : list (Z * Z);
  col_to_missing_rows : gmap Z (gset Z)
}.

(** [min(iterable, key=key)]: the first element whose key is least. *)
Definition py_min {A} (key : A → nat) (l : list A) : option A :=
  match l with
  | [] => None
  | x :: l => Some (fold_left (λ best y, if (key y <? key best)%nat then y else best) l x)
  end.

(** [heapq.nsmallest(1, iterable, key=key)], which is [min] for [n = 1]. *)
Definition nsmallest1 {A} (key : A → nat) (l : list A) : list A :=
  match py_min key l with
  | None => []
  | Some x => [x]
  end.

(** [choose_cell]: [heapq.nsmallest(1, self.empty_cells, key=lambda tpl:
    len(self.col_to_missing_rows[tpl[1]]))[0]]. *)
Definition choose_cell (st : SudokuState) : option (Z * Z) :=
  py_getitem
    (nsmallest1 (λ tpl, size (dd_peek (col_to_missing_rows st) tpl.2)) (empty_cells st))
    0.

End Approach3.

(** ** [sudoku_approach3_samestate_heap.py]: the class and its solver *)

Module Heap.

(** [(row, col) < (row', col')] on tuples of integers. *)
Definition tuple_lt (p q : Z * Z) : bool :=
  bool_decide (p.1 < q.1 ∨ (p.1 = q.1 ∧ p.2 < q.2)).

(** The loop of [heapq._siftdown(heap, 0, pos)]: [newitem], the item at
    [pos], moves towards the root while it is less than its parent.
    [fuel] bounds the iterations of the loop; [pos] of them are always
    enough, since [parentpos < pos]. *)
Fixpoint siftdown (fuel : nat) (heap : list (Z * Z)) (newitem : Z * Z) (pos : nat)
  : list (Z * Z) :=
  match fuel with
  | O => <[pos := newitem]> heap
  | S fuel =>
    if bool_decide (0 < pos)%nat then
      let parentpos := Nat.div2 (pos - 1) in
      match heap !! parentpos with
      | Some parent =>
        if tuple_lt newitem parent
        then siftdown fuel (<[pos := parent]> heap) newitem parentpos
        else <[pos := newitem]> heap
      | None => <[pos := newitem]> heap
      end
    else <[pos := newitem]> heap
  end.

(** [heapq.heappush(heap, item)]: [heap.append(item)], then
    [_siftdown(heap, 0, len(heap) - 1)]. *)
Definition heappush (heap : list (Z * Z)) (item : Z * Z) : list (Z * Z) :=
  siftdown (length heap) (heap ++ [item]) item (length heap).

(** [l.remove(x)]: the first occurrence goes; [None] stands for the
    [ValueError] raised when there is none. *)
Fixpoint list_remove (x : Z * Z) (l : list (Z * Z)) : option (list (Z * Z)) :=
  match l with
  | [] => None
  | y :: l => if decide (x = y) then Some l else (y ::.) <$> list_remove x l
  end.

(** The attributes of [SudokuState]: those of approach 1, [empty_cells]
    being used as a heap, and [col_to_missing_rows]. *)
Record SudokuState : Type := mkSudokuState {
  base : State;
  col_to_missing_rows : gmap Z (gset Z)
}.

(** What the constructor ends with. *)
Inductive init_result : Type :=
  | Initialized (st : SudokuState)
  | InitValueError
  | InitIndexError.

(** The body of the inner loop of [_initialize_state] (lines 32-41);
    [is_unsolvable] and [_grid_key] are those of approach 1. *)
Definition init_cell (st : SudokuState) (row col : Z) : init_result :=
  match cell (board (base st)) row col with
  | None => InitIndexError
  | Some val =>
    if bool_decide (val = 0) then
      let missing := dd_add (col_to_missing_rows st) col row in
      let b := with_empty (base st) (heappush (empty_cells (base st)) (row, col)) in
      Initialized (mkSudokuState b missing)
    else
      let '(clash, b) := Approach1.is_unsolvable (base st) row col val in
      if clash then InitValueError
      else
        let b := with_cols b (dd_add (col_to_seen_vals b) col val) in
        let b := with_rows b (dd_add (row_to_seen_vals b) row val) in
        let b := with_boxes b (dd_add (grid_to_cells b) (Approach1._grid_key row col) val) in
        Initialized (mkSudokuState b (col_to_missing_rows st))
  end.

(** [for col in range(self.n)] *)
Fixpoint init_cols (row : Z) (cols : list Z) (st : SudokuState) : init_result :=
  match cols with
  | [] => Initialized st
  | col :: cols =>
    match init_cell st row col with
    | Initialized st => init_cols row cols st
    | r => r
    end
  end.

(** [for row in range(self.n)] *)
Fixpoint init_rows (rows : list Z) (st : SudokuState) : init_result :=
  match rows with
  | [] => Initialized st
  | row :: rows =>
    match init_cols row range9 st with
    | Initialized st => init_rows rows st
    | r => r
    end
  end.

(** [SudokuState(grid)]: [__init__] followed by [_initialize_state]. *)
Definition new_state (grid : Grid) : init_result :=
  init_rows range9 (mkSudokuState (fresh_state grid) ∅).

(** [is_goal_state] *)
Definition is_goal_state (st : SudokuState) : bool :=
  bool_decide (length (empty_cells (base st)) = 0%nat).

(** What [place_digit] ends with; when [remove] raises, the board is
    already written. *)
Inductive place_result : Type :=
  | Placed (st : SudokuState)
  | PlaceIndexError
  | PlaceValueError (st : SudokuState).

(** [place_digit] (lines 61-68) *)
Definition place_digit (st : SudokuState) (row col val : Z) : place_result :=
  match set_cell (board (base st)) row col val with
  | None => PlaceIndexError
  | Some g =>
    let b := with_board (base st) g in
    match list_remove (row, col) (empty_cells b) with
    | None => PlaceValueError (mkSudokuState b (col_to_missing_rows st))
    | Some l =>
      let b := with_empty b l in
      let b := with_rows b (dd_add (row_to_seen_vals b) row val) in
      let b := with_cols b (dd_add (col_to_seen_vals b) col val) in
      let b := with_boxes b (dd_add (grid_to_cells b) (Approach1._grid_key row col) val) in
      Placed (mkSudokuState b (dd_discard (col_to_missing_rows st) col row))
    end
  end.

(** [revert_state] (lines 71-79); [None] stands for [IndexError]. *)
Definition revert_state (st : SudokuState) (row col val : Z) : option SudokuState :=
  g ← set_cell (board (base st)) row col 0;
  let b := with_board (base st) g in
  let b := with_empty b (heappush (empty_cells b) (row, col)) in
  let b := with_rows b (dd_discard (row_to_seen_vals b) row val) in
  let b := with_cols b (dd_discard (col_to_seen_vals b) col val) in
  let b := with_boxes b (dd_discard (grid_to_cells b) (Approach1._grid_key row col) val) in
  Some (mkSudokuState b (dd_add (col_to_missing_rows st) col row)).

(** [choose_cell] (line 88) *)
Definition choose_cell (st : SudokuState) : option (Z * Z) :=
  Approach3.choose_cell
    (Approach3.mkSudokuState (empty_cells (base st)) (col_to_missing_rows st)).

(** What a search ends with.  [OutOfDepth] is an artefact of the
    embedding; [log] lists the state after every placement and every
    reversion, oldest first. *)
Inductive search_result : Type :=
  | OutOfDepth
  | IndexErrorRaised
  | ValueErrorRaised (st : SudokuState)
  | Found (goal : SudokuState) (st : SudokuState) (log : list SudokuState)
  | NotFound (st : SudokuState) (log : list SudokuState).

(** [for digit in range(1, 10)] of [depth_first_search] (lines 99-109),
    with the recursive call abstracted as [search]. *)
Fixpoint try_digits (search : SudokuState → search_result) (row col : Z)
    (ds : list Z) (st : SudokuState) (log : list SudokuState) : search_result :=
  match ds with
  | [] => NotFound st log
  | digit :: ds =>
    let '(clash, b) := Approach1.is_unsolvable (base st) row col digit in
    let st := mkSudokuState b (col_to_missing_rows st) in
    if clash then try_digits search row col ds st log
    else
      match place_digit st row col digit with
      | PlaceIndexError => IndexErrorRaised
      | PlaceValueError st => ValueErrorRaised st
      | Placed st1 =>
        match search st1 with
        | NotFound st2 log2 =>
          match revert_state st2 row col digit with
          | None => IndexErrorRaised
          | Some st3 => try_digits search row col ds st3 (log ++ st1 :: log2 ++ [st3])
          end
        | Found goal st2 log2 => Found goal st2 (log ++ st1 :: log2)
        | r => r
        end
      end
  end.

(** [depth_first_search] (lines 93-109).  [depth] bounds how many
    recursive calls may be nested below this one. *)
Fixpoint depth_first_search (depth : nat) (st : SudokuState) : search_result :=
  if is_goal_state st then Found st st []
  else
    match choose_cell st with
    | None => IndexErrorRaised
    | Some (row, col) =>
      match depth with
      | O => OutOfDepth
      | S depth => try_digits (depth_first_search depth) row col digits st []
      end
    end.

(** [sudoku_solver] (lines 91-122): every [ValueError] gives
    [invalid_sudoku]. *)
Definition sudoku_solver (sudoku : Grid) : solver_result :=
  match new_state sudoku with
  | InitValueError => Returned invalid_sudoku sudoku
  | InitIndexError => Raised
  | Initialized initial_state =>
    match depth_first_search (length (empty_cells (base initial_state))) initial_state with
    | Found goal_state st _ => Returned (board (base goal_state)) (board (base st))
    | NotFound st _ => Returned invalid_sudoku (board (base st))
    | ValueErrorRaised st => Returned invalid_sudoku (board (base st))
    | IndexErrorRaised => Raised
    | OutOfDepth => Unfinished
    end
  end.

End Heap.

(** ** [sudoku_approach1_newstate.py]

    The constructor, [is_unsolvable], [is_goal_state], [_sub_grid_key] and
    [choose_cell] of [PartialSudokuState] are those of [SudokuState] of
    approach 1, word for word; [place_digit] and [revert_state] build a new
    state from a copy of the board.  The copy, [self.board.copy()], is a new
    list of the same rows: writing a cell of the copy writes the caller's
    grid. *)

Module NewState.

(** What [place_digit] ends with; the [ValueError] of the constructor
    leaves the board written. *)
Inductive place_result : Type :=
  | Placed (new_state : State)
  | PlaceIndexError
  | PlaceValueError (g : Grid).

(** [place_digit] (lines 78-80) *)
Definition place_digit (st : State) (row col val : Z) : place_result :=
  match set_cell (board st) row col val with
  | None => PlaceIndexError
  | Some new_board =>
    match Approach1.SudokuState new_board with
    | Scanned new_state => Placed new_state
    | DuplicateClue => PlaceValueError new_board
    | ScanIndexError => PlaceIndexError
    end
  end.

(** What a search ends with; [g] is what the grid holds then.
    [OutOfDepth] is an artefact of the embedding. *)
Inductive search_result : Type :=
  | OutOfDepth
  | IndexErrorRaised
  | ValueErrorRaised (g : Grid)
  | TypeErrorRaised (g : Grid)
  | Found (goal : State)
  | NotFound (g : Grid).

(** [for digit in range(1, 10)] of [depth_first_search] (lines 117-127).
    When the nested search finds nothing, line 124 calls
    [new_state.revert_state(row, col, digit)]; [revert_state] takes
    [(self, row, col)], so the call raises [TypeError] before anything is
    reverted. *)
Fixpoint try_digits (search : State → search_result) (row col : Z)
    (ds : list Z) (st : State) : search_result :=
  match ds with
  | [] => NotFound (board st)
  | digit :: ds =>
    let '(clash, st) := Approach1.is_unsolvable st row col digit in
    if clash then try_digits search row col ds st
    else
      match place_digit st row col digit with
      | PlaceIndexError => IndexErrorRaised
      | PlaceValueError g => ValueErrorRaised g
      | Placed new_state =>
        match search new_state with
        | NotFound g => TypeErrorRaised g
        | r => r
        end
      end
  end.

(** [depth_first_search] (lines 111-127) *)
Fixpoint depth_first_search (depth : nat) (st : State) : search_result :=
  if Approach1.is_goal_state st then Found st
  else
    match Approach1.choose_cell st with
    | None => IndexErrorRaised
    | Some (row, col) =>
      match depth with
      | O => OutOfDepth
      | S depth => try_digits (depth_first_search depth) row col digits st
      end
    end.

(** What a call of [sudoku_solver] ends with: an answer and the contents
    of the caller's grid, or an exception that escapes. *)
Inductive result : Type :=
  | Answer (out after : Grid)
  | IndexErrorEscapes
  | TypeErrorEscapes (after : Grid)
  | Unfinished.

(** [sudoku_solver] (lines 110-140): only [ValueError] is caught. *)
Definition sudoku_solver (sudoku : Grid) : result :=
  match Approach1.SudokuState sudoku with
  | DuplicateClue => Answer invalid_sudoku sudoku
  | ScanIndexError => IndexErrorEscapes
  | Scanned initial_state =>
    match depth_first_search (length (empty_cells initial_state)) initial_state with
    | Found goal_state => Answer (board goal_state) (board goal_state)
    | NotFound g => Answer invalid_sudoku g
    | ValueErrorRaised g => Answer invalid_sudoku g
    | TypeErrorRaised g => TypeErrorEscapes g
    | IndexErrorRaised => IndexErrorEscapes
    | OutOfDepth => Unfinished
    end
  end.

End NewState.

(** ** [sudoku_approach2_min_row_col.py] *)

Module Approach2.

(** The attributes of [PartialSudokuState].  [shared] holds the board and
    the three used-sets, on which [is_unsolvable] and [_sub_grid_key] are
    those of approach 1, word for word; this class has no [empty_cells],
    and that field of [shared] stays empty.  A set of cells is kept as the
    list of its elements in the order in which they were added. *)
Record PartialSudokuState : Type := mkPartialSudokuState {
  shared : State;
  row_to_empty_cells : gmap Z (list (Z * Z));
  col_to_empty_cells_count : gmap Z Z;
  min_empty_row : Z;
  min_empty_col : Z
}.

Definition with_shared (st : PartialSudokuState) (s : State) : PartialSudokuState :=
  mkPartialSudokuState s (row_to_empty_cells st) (col_to_empty_cells_count st)
                       (min_empty_row st) (min_empty_col st).

(** [s.add(x)] *)
Definition set_add (x : Z * Z) (s : list (Z * Z)) : list (Z * Z) :=
  if decide (x ∈ s) then s else s ++ [x].

(** What building a state ends with; [g] is the board on which the
    constructor found a repeated clue. *)
Inductive build_result : Type :=
  | Built (st : PartialSudokuState)
  | BuildValueError (g : Grid)
  | BuildIndexError.

(** The body of the inner loop of [_initialize_state] (lines 47-66). *)
Definition init_cell (st : PartialSudokuState) (row col : Z) : build_result :=
  match cell (board (shared st)) row col with
  | None => BuildIndexError
  | Some val =>
    if bool_decide (val = 0) then
      let empties :=
        <[row := set_add (row, col) (default [] (row_to_empty_cells st !! row))]>
          (row_to_empty_cells st) in
      let counts :=
        <[col := default 0 (col_to_empty_cells_count st !! col) + 1]>
          (col_to_empty_cells_count st) in
      let min_row :=
        match empties !! min_empty_row st with
        | None => row
        | Some least =>
          if bool_decide (length (default [] (empties !! row)) < length least)%nat
          then row else min_empty_row st
        end in
      let min_col :=
        match counts !! min_empty_col st with
        | None => col
        | Some least =>
          if bool_decide (default 0 (counts !! col) < least) then col else min_empty_col st
        end in
      Built (mkPartialSudokuState (shared st) empties counts min_row min_col)
    else
      let '(clash, s) := Approach1.is_unsolvable (shared st) row col val in
      if clash then BuildValueError (board s)
      else
        let s := with_cols s (dd_add (col_to_seen_vals s) col val) in
        let s := with_rows s (dd_add (row_to_seen_vals s) row val) in
        let s := with_boxes s (dd_add (grid_to_cells s) (Approach1._grid_key row col) val) in
        Built (with_shared st s)
  end.

(** [for col in range(self.n)] *)
Fixpoint init_cols (row : Z) (cols : list Z) (st : PartialSudokuState) : build_result :=
  match cols with
  | [] => Built st
  | col :: cols =>
    match init_cell st row col with
    | Built st => init_cols row cols st
    | r => r
    end
  end.

(** [for row in range(self.n)] *)
Fixpoint init_rows (rows : list Z) (st : PartialSudokuState) : build_result :=
  match rows with
  | [] => Built st
  | row :: rows =>
    match init_cols row range9 st with
    | Built st => init_rows rows st
    | r => r
    end
  end.

(** [PartialSudokuState(grid)]: [__init__] (lines 21-34) followed by
    [_initialize_state]. *)
Definition new_state (grid : Grid) : build_result :=
  init_rows range9 (mkPartialSudokuState (fresh_state grid) ∅ ∅ 9 9).

(** [is_goal_state]: [len(self.row_to_empty_cells) == 0] *)
Definition is_goal_state (st : PartialSudokuState) : bool :=
  bool_decide (size (row_to_empty_cells st) = 0%nat).

(** [place_digit] (lines 93-95): the copy of the board is a new list of
    the same rows, so the digit is written into the caller's grid. *)
Definition place_digit (st : PartialSudokuState) (row col val : Z) : build_result :=
  match set_cell (board (shared st)) row col val with
  | None => BuildIndexError
  | Some new_board => new_state new_board
  end.

(** [revert_state] (lines 103-105), on a board that holds [g]. *)
Definition revert_state (g : Grid) (row col : Z) : build_result :=
  match set_cell g row col 0 with
  | None => BuildIndexError
  | Some new_board => new_state new_board
  end.

Section choose.

(** [s.pop()], which removes and returns an arbitrary element of a set:
    which one is determined by how the set was built, here by the order
    in which its elements were added. *)
Variable set_pop : list (Z * Z) → option (Z * Z).

(** [choose_cell] (lines 125-128); [None] stands for the [KeyError] of
    [pop] on an empty set.  That [pop] also removes the cell from the set
    has no effect: the state is not asked for a cell again. *)
Definition choose_cell (st : PartialSudokuState) : option (Z * Z) :=
  let cells := default [] (row_to_empty_cells st !! min_empty_row st) in
  if bool_decide ((min_empty_row st, min_empty_col st) ∈ cells)
  then Some (min_empty_row st, min_empty_col st)
  else set_pop cells.

(** What a search ends with; [g] is what the grid holds then.
    [OutOfDepth] is an artefact of the embedding. *)
Inductive search_result : Type :=
  | OutOfDepth
  | IndexErrorRaised
  | KeyErrorRaised
  | ValueErrorRaised (g : Grid)
  | Found (goal : PartialSudokuState)
  | NotFound (g : Grid).

(** [for digit in range(1, 10)] of [depth_first_search] (lines 138-148).
    When the nested search returns, the rows of [new_state.board] hold
    [g]. *)
Fixpoint try_digits (search : PartialSudokuState → search_result) (row col : Z)
    (ds : list Z) (st : PartialSudokuState) : search_result :=
  match ds with
  | [] => NotFound (board (shared st))
  | digit :: ds =>
    let '(clash, s) := Approach1.is_unsolvable (shared st) row col digit in
    let st := with_shared st s in
    if clash then try_digits search row col ds st
    else
      match place_digit st row col digit with
      | BuildIndexError => IndexErrorRaised
      | BuildValueError g => ValueErrorRaised g
      | Built new_state =>
        match search new_state with
        | NotFound g =>
          match revert_state g row col with
          | BuildIndexError => IndexErrorRaised
          | BuildValueError g => ValueErrorRaised g
          | Built st => try_digits search row col ds st
          end
        | r => r
        end
      end
  end.

(** [depth_first_search] (lines 132-148) *)
Fixpoint depth_first_search (depth : nat) (st : PartialSudokuState) : search_result :=
  if is_goal_state st then Found st
  else
    match choose_cell st with
    | None => KeyErrorRaised
    | Some (row, col) =>
      match depth with
      | O => OutOfDepth
      | S depth => try_digits (depth_first_search depth) row col digits st
      end
    end.

(** [sudoku_solver] (lines 131-161): every [ValueError] gives
    [invalid_sudoku]; other exceptions escape.  The search may nest one
    call per cell of the board. *)
Definition sudoku_solver (sudoku : Grid) : solver_result :=
  match new_state sudoku with
  | BuildValueError g => Returned invalid_sudoku g
  | BuildIndexError => Raised
  | Built initial_state =>
    match depth_first_search 81 initial_state with
    | Found goal_state => Returned (board (shared goal_state)) (board (shared goal_state))
    | NotFound g => Returned invalid_sudoku g
    | ValueErrorRaised g => Returned invalid_sudoku g
    | IndexErrorRaised => Raised
    | KeyErrorRaised => Raised
    | OutOfDepth => Unfinished
    end
  end.

End choose.

End Approach2.

(** ** [sudoku_with_heap.py]

    The class is that of [sudoku_approach3_samestate_heap.py] but for
    [revert_state], which does not write the board; the solver is the
    same. *)

Module WithHeap.

(** [revert_state] (lines 62-69) *)
Definition revert_state (st : Heap.SudokuState) (row col val : Z) : Heap.SudokuState :=
  let b := Heap.base st in
  let b := with_empty b (Heap.heappush (empty_cells b) (row, col)) in
  let b := with_rows b (dd_discard (row_to_seen_vals b) row val) in
  let b := with_cols b (dd_discard (col_to_seen_vals b) col val) in
  let b := with_boxes b (dd_discard (grid_to_cells b) (Approach1._grid_key row col) val) in
  Heap.mkSudokuState b (dd_add (Heap.col_to_missing_rows st) col row).

(** [for digit in range(1, 10)] of [depth_first_search] (lines 86-96). *)
Fixpoint try_digits (search : Heap.SudokuState → Heap.search_result) (row col : Z)
    (ds : list Z) (st : Heap.SudokuState) (log : list Heap.SudokuState)
  : Heap.search_result :=
  match ds with
  | [] => Heap.NotFound st log
  | digit :: ds =>
    let '(clash, b) := Approach1.is_unsolvable (Heap.base st) row col digit in
    let st := Heap.mkSudokuState b (Heap.col_to_missing_rows st) in
    if clash then try_digits search row col ds st log
    else
      match Heap.place_digit st row col digit with
      | Heap.PlaceIndexError => Heap.IndexErrorRaised
      | Heap.PlaceValueError st => Heap.ValueErrorRaised st
      | Heap.Placed st1 =>
        match search st1 with
        | Heap.NotFound st2 log2 =>
          let st3 := revert_state st2 row col digit in
          try_digits search row col ds st3 (log ++ st1 :: log2 ++ [st3])
        | Heap.Found goal st2 log2 => Heap.Found goal st2 (log ++ st1 :: log2)
        | r => r
        end
      end
  end.

(** [depth_first_search] (lines 80-96) *)
Fixpoint depth_first_search (depth : nat) (st : Heap.SudokuState) : Heap.search_result :=
  if Heap.is_goal_state st then Heap.Found st st []
  else
    match Heap.choose_cell st with
    | None => Heap.IndexErrorRaised
    | Some (row, col) =>
      match depth with
      | O => Heap.OutOfDepth
      | S depth => try_digits (depth_first_search depth) row col digits st []
      end
    end.

(** [sudoku_solver] (lines 78-108) *)
Definition sudoku_solver (sudoku : Grid) : solver_result :=
  match Heap.new_state sudoku with
  | Heap.InitValueError => Returned invalid_sudoku sudoku
  | Heap.InitIndexError => Raised
  | Heap.Initialized initial_state =>
    match depth_first_search (length (empty_cells (Heap.base initial_state))) initial_state with
    | Heap.Found goal_state st _ => Returned (board (Heap.base goal_state)) (board (Heap.base st))
    | Heap.NotFound st _ => Returned invalid_sudoku (board (Heap.base st))
    | Heap.ValueErrorRaised st => Returned invalid_sudoku (board (Heap.base st))
    | Heap.IndexErrorRaised => Raised
    | Heap.OutOfDepth => Unfinished
    end
  end.

End WithHeap.

(** ** What the claims talk about *)

(** A cell of the 9x9 board. *)
Definition on_board (p : Z * Z) : Prop := 0 ≤ p.1 < 9 ∧ 0 ≤ p.2 < 9.

Definition cell_at (g : Grid) (p : Z * Z) : option Z := cell g p.1 p.2.

(** The row lengths of a grid. *)
Definition shape (g : Grid) : list nat := length <$> g.

Definition wf_grid (g : Grid) : Prop := shape g = replicate 9 9%nat.

(** Every entry is in [0, 9]. *)
Definition digits_only (g : Grid) : Prop :=
  Forall (Forall (λ v, 0 ≤ v ≤ 9)) g.

(** The 81 cells in row-major order. *)
Definition all_cells : list (Z * Z) := row ← range9; (λ col, (row, col)) <$> range9.

(** The keys under which a cell's value is recorded. *)
Definition row_key (p : Z * Z) : Z := p.1.
Definition col_key (p : Z * Z) : Z := p.2.
Definition box_key (p : Z * Z) : Z * Z := sub_grid_no p.1 p.2.

(** The 27 units: rows, columns and boxes. *)
Definition row_cells (r : Z) : list (Z * Z) := (λ c, (r, c)) <$> range9.
Definition col_cells (c : Z) : list (Z * Z) := (λ r, (r, c)) <$> range9.
Definition box_cells (b : Z * Z) : list (Z * Z) :=
  r ← seqZ (3 * b.1) 3; (λ c, (r, c)) <$> seqZ (3 * b.2) 3.
Definition boxes : list (Z * Z) := br ← seqZ 0 3; (λ bc, (br, bc)) <$> seqZ 0 3.
Definition units : list (list (Z * Z)) :=
  (row_cells <$> range9) ++ (col_cells <$> range9) ++ (box_cells <$> boxes).

Definition unit_vals (g : Grid) (u : list (Z * Z)) : list Z := omap (cell_at g) u.

(** Each digit 1-9 occurs exactly once in [l]. *)
Definition each_digit_once (l : list Z) : Prop :=
  Forall (λ d, count_occ Z.eq_dec l d = 1%nat) digits.

(** A solved grid: 9x9, and every row, column and box holds each digit
    exactly once. *)
Definition valid_solution (g : Grid) : Prop :=
  wf_grid g ∧ Forall (λ u, each_digit_once (unit_vals g u)) units.

(** [out] keeps every clue of [g]. *)
Definition keeps_clues (g out : Grid) : Prop :=
  ∀ p v, on_board p → cell_at g p = Some v → v ≠ 0 → cell_at out p = Some v.

(** [keeps_clues] as a check that can be run. *)
Definition keeps_cluesb (g out : Grid) : bool :=
  forallb (λ p, match cell_at g p with
                | Some v => bool_decide (v = 0 ∨ cell_at out p = Some v)
                | None => true
                end) all_cells.

(** Some non-zero value occurs twice in a row, a column or a box. *)
Definition duplicate_clue (g : Grid) : Prop :=
  ∃ p q v, on_board p ∧ on_board q ∧ p ≠ q ∧ v ≠ 0 ∧
    cell_at g p = Some v ∧ cell_at g q = Some v ∧
    (p.1 = q.1 ∨ p.2 = q.2 ∨ sub_grid_no p.1 p.2 = sub_grid_no q.1 q.2).

(** Invariant I2: [empty_cells] lists exactly the cells holding 0, each
    once. *)
Definition I2 (st : State) : Prop :=
  NoDup (empty_cells st) ∧
  ∀ p, p ∈ empty_cells st ↔ on_board p ∧ cell_at (board st) p = Some 0.

(** The used-sets of two states agree key by key, and so do board and
    empty cells. *)
Record same_state (st st' : State) : Prop := {
  same_board : board st = board st';
  same_empty : empty_cells st = empty_cells st';
  same_rows : ∀ k, dd_peek (row_to_seen_vals st) k = dd_peek (row_to_seen_vals st') k;
  same_cols : ∀ k, dd_peek (col_to_seen_vals st) k = dd_peek (col_to_seen_vals st') k;
  same_boxes : ∀ k, dd_peek (grid_to_cells st) k = dd_peek (grid_to_cells st') k
}.

(** Number of cells of row [r] recorded as empty. *)
Definition row_empties (st : State) (r : Z) : nat :=
  length (filter (λ p, p.1 = r) (empty_cells st)).

(** Row [r] has an empty cell and no row with an empty cell has fewer. *)
Definition fewest_row (st : State) (r : Z) : Prop :=
  (0 < row_empties st r)%nat ∧
  Forall (λ r', (0 < row_empties st r')%nat → (row_empties st r ≤ row_empties st r')%nat) range9.

Instance valid_solution_dec g : Decision (valid_solution g).
Proof. unfold valid_solution, wf_grid, each_digit_once. apply _. Defined.


(** Two cells share a row, a column or a box. *)
Definition same_unit (p q : Z * Z) : Prop :=
  row_key p = row_key q ∨ col_key p = col_key q ∨ box_key p = box_key q.

(** No value fills two cells of one unit. *)
Definition NoClash (F : Z * Z → Z → Prop) : Prop :=
  ∀ p q v, same_unit p q → F p v → F q v → p = q.

Instance on_board_dec p : Decision (on_board p).
Proof. unfold on_board. apply _. Defined.

Instance same_unit_dec p q : Decision (same_unit p q).
Proof. unfold same_unit. apply _. Defined.

(** ** Invariants of the search state *)

(** Cell [p] of [dom] holds the non-zero value [v]. *)
Definition filled (dom : Z * Z → Prop) (g : Grid) (p : Z * Z) (v : Z) : Prop :=
  dom p ∧ cell_at g p = Some v ∧ v ≠ 0.

Section tracking.
Context `{Countable K}.
Variable key : Z * Z → K.

(** The dictionary [m] holds under each key exactly the values of the
    filled cells with that key (the spec's I1, and its converse). *)
Definition Seen (m : gmap K (gset Z)) (F : Z * Z → Z → Prop) : Prop :=
  ∀ k v, v ∈ dd_peek m k ↔ ∃ p, key p = k ∧ F p v.

(** No value fills two cells with the same key. *)
Definition Distinct (F : Z * Z → Z → Prop) : Prop :=
  ∀ p q v, key p = key q → F p v → F q v → p = q.
End tracking.

(** The three dictionaries track the filled cells [F], which are free of
    duplicates. *)
Record Tracks (rows cols : gmap Z (gset Z)) (boxes : gmap (Z * Z) (gset Z))
    (F : Z * Z → Z → Prop) : Prop := {
  seen_rows : Seen row_key rows F;
  seen_cols : Seen col_key cols F;
  seen_boxes : Seen box_key boxes F;
  distinct_rows : Distinct row_key F;
  distinct_cols : Distinct col_key F;
  distinct_boxes : Distinct box_key F
}.

(** What the search relies on: all 81 cells exist, I2 holds, and the
    dictionaries track the board. *)
Record Inv (st : State) : Prop := {
  inv_cells : ∀ p, on_board p → is_Some (cell_at (board st) p);
  inv_I2 : I2 st;
  inv_tracks :
    Tracks (row_to_seen_vals st) (col_to_seen_vals st) (grid_to_cells st)
           (filled on_board (board st))
}.

(** [g'] has the shape of [g], keeps its non-zero cells and holds a digit
    1-9 where [g] holds 0. *)
Definition completes (g g' : Grid) : Prop :=
  shape g' = shape g ∧
  ∀ p v, on_board p → cell_at g p = Some v →
    if decide (v = 0) then ∃ d, 1 ≤ d ≤ 9 ∧ cell_at g' p = Some d
    else cell_at g' p = Some v.

(** The digit is in none of the three used-sets of the cell. *)
Definition unused (st : State) (row col digit : Z) : Prop :=
  (digit ∉ dd_peek (row_to_seen_vals st) row) ∧
  (digit ∉ dd_peek (col_to_seen_vals st) col) ∧
  (digit ∉ dd_peek (grid_to_cells st) (sub_grid_no row col)).

(** The state of the scan once the cells [done] are read: the board is
    untouched, the empty cells among [done] are recorded in order, and the
    dictionaries track the clues among [done]. *)
Record scanned (sudoku : Grid) (done : list (Z * Z)) (st : State) : Prop := {
  scanned_board : board st = sudoku;
  scanned_cells : ∀ p, p ∈ done → is_Some (cell_at sudoku p);
  scanned_empty : empty_cells st = filter (λ p, cell_at sudoku p = Some 0) done;
  scanned_tracks :
    Tracks (row_to_seen_vals st) (col_to_seen_vals st) (grid_to_cells st)
           (filled (.∈ done) sudoku)
}.

(** What a scan of [sudoku] guarantees. *)
Definition scan_ok (sudoku : Grid) (r : scan_result) : Prop :=
  match r with
  | Scanned st =>
    Inv st ∧ board st = sudoku ∧
    empty_cells st = filter (λ p, cell_at sudoku p = Some 0) all_cells ∧
    ¬ duplicate_clue sudoku
  | DuplicateClue => duplicate_clue sudoku
  | ScanIndexError => ∃ p, on_board p ∧ cell_at sudoku p = None
  end.

(** No used-set is recorded under a key that no cell of the board has. *)
Definition off_board_unseen (st : State) : Prop :=
  (∀ k, ¬ 0 ≤ k < 9 → dd_peek (row_to_seen_vals st) k = ∅) ∧
  (∀ k, ¬ 0 ≤ k < 9 → dd_peek (col_to_seen_vals st) k = ∅) ∧
  (∀ k, ¬ (0 ≤ k.1 < 3 ∧ 0 ≤ k.2 < 3) → dd_peek (grid_to_cells st) k = ∅).

(** What a search started from [st] guarantees: on failure the contents of
    [st] are back and the board has no solution; on success the returned
    grid is the board, which is complete.  [X] is what is claimed of a
    search that was cut short. *)
Definition search_ok (X : Prop) (st : State) (r : outcome Grid) : Prop :=
  match r with
  | DepthExceeded => X
  | SearchIndexError => False
  | Finished None st' log =>
    same_state st st' ∧ Forall I2 log ∧
    ∀ sol, valid_solution sol → keeps_clues (board st) sol → False
  | Finished (Some g) st' log =>
    g = board st' ∧ Inv st' ∧ empty_cells st' = [] ∧
    completes (board st) (board st') ∧ Forall I2 log
  end.

(** The same for the loop over the digits [ds] tried in cell [p]. *)
Definition loop_ok (X : Prop) (st : State) (p : Z * Z) (ds : list Z)
    (r : outcome Grid) : Prop :=
  match r with
  | DepthExceeded => X
  | SearchIndexError => False
  | Finished None st' log =>
    same_state st st' ∧ Forall I2 log ∧
    ∀ sol d, valid_solution sol → keeps_clues (board st) sol →
             cell_at sol p = Some d → d ∉ ds
  | Finished (Some g) st' log =>
    g = board st' ∧ Inv st' ∧ empty_cells st' = [] ∧
    completes (board st) (board st') ∧ Forall I2 log
  end.

(** ** Example grids *)

(** A puzzle with 51 empty cells, and its solution. *)
Definition easy : Grid :=
  [ [5;3;0;0;7;0;0;0;0];
    [6;0;0;1;9;5;0;0;0];
    [0;9;8;0;0;0;0;6;0];
    [8;0;0;0;6;0;0;0;3];
    [4;0;0;8;0;3;0;0;1];
    [7;0;0;0;2;0;0;0;6];
    [0;6;0;0;0;0;2;8;0];
    [0;0;0;4;1;9;0;0;5];
    [0;0;0;0;8;0;0;7;9] ].

Definition easy_solved : Grid :=
  [ [5;3;4;6;7;8;9;1;2];
    [6;7;2;1;9;5;3;4;8];
    [1;9;8;3;4;2;5;6;7];
    [8;5;9;7;6;1;4;2;3];
    [4;2;6;8;5;3;7;9;1];
    [7;1;3;9;2;4;8;5;6];
    [9;6;1;5;3;7;2;8;4];
    [2;8;7;4;1;9;6;3;5];
    [3;4;5;2;8;6;1;7;9] ].

(** Two 5s in row 0. *)
Definition two_fives : Grid :=
  [5;5;0;0;0;0;0;0;0] :: replicate 8 (replicate 9 0).

(** No clue is repeated, yet nothing fits: cell (8,8) can only take 9,
    after which cell (8,7) can take nothing. *)
Definition dead_end : Grid :=
  [ [0;0;0;0;0;0;0;0;8];
    [0;0;0;0;0;0;0;0;0];
    [0;0;0;0;0;0;0;0;0];
    [0;0;0;0;0;0;0;8;0];
    [0;0;0;0;0;0;0;0;0];
    [0;0;0;0;0;0;0;0;0];
    [0;0;0;0;0;0;0;0;0];
    [0;0;0;0;0;0;0;0;0];
    [1;2;3;4;5;6;7;0;0] ].

(** The solved grid with cells (0,0) and (8,8) emptied. *)
Definition two_blanks : Grid :=
  [ [0;3;4;6;7;8;9;1;2];
    [6;7;2;1;9;5;3;4;8];
    [1;9;8;3;4;2;5;6;7];
    [8;5;9;7;6;1;4;2;3];
    [4;2;6;8;5;3;7;9;1];
    [7;1;3;9;2;4;8;5;6];
    [9;6;1;5;3;7;2;8;4];
    [2;8;7;4;1;9;6;3;5];
    [3;4;5;2;8;6;1;7;0] ].

(** The solved grid with one cell of row 0 and two cells of row 8
    emptied. *)
Definition lopsided : Grid :=
  [ [0;3;4;6;7;8;9;1;2];
    [6;7;2;1;9;5;3;4;8];
    [1;9;8;3;4;2;5;6;7];
    [8;5;9;7;6;1;4;2;3];
    [4;2;6;8;5;3;7;9;1];
    [7;1;3;9;2;4;8;5;6];
    [9;6;1;5;3;7;2;8;4];
    [2;8;7;4;1;9;6;3;5];
    [3;4;5;2;8;6;1;0;0] ].

(** The solved grid with the cells (3,5), (3,8), (4,5) and (4,8) emptied,
    which has two solutions: [easy_solved], and [other_way] with the digits
    1 and 3 of these cells exchanged. *)
Definition two_ways : Grid :=
  [ [5;3;4;6;7;8;9;1;2];
    [6;7;2;1;9;5;3;4;8];
    [1;9;8;3;4;2;5;6;7];
    [8;5;9;7;6;0;4;2;0];
    [4;2;6;8;5;0;7;9;0];
    [7;1;3;9;2;4;8;5;6];
    [9;6;1;5;3;7;2;8;4];
    [2;8;7;4;1;9;6;3;5];
    [3;4;5;2;8;6;1;7;9] ].

Definition other_way : Grid :=
  [ [5;3;4;6;7;8;9;1;2];
    [6;7;2;1;9;5;3;4;8];
    [1;9;8;3;4;2;5;6;7];
    [8;5;9;7;6;3;4;2;1];
    [4;2;6;8;5;1;7;9;3];
    [7;1;3;9;2;4;8;5;6];
    [9;6;1;5;3;7;2;8;4];
    [2;8;7;4;1;9;6;3;5];
    [3;4;5;2;8;6;1;7;9] ].

(** The first three rows of [easy] above the last six of its solution: 17
    empty cells. *)
Definition top_band : Grid :=
  [ [5;3;0;0;7;0;0;0;0];
    [6;0;0;1;9;5;0;0;0];
    [0;9;8;0;0;0;0;6;0];
    [8;5;9;7;6;1;4;2;3];
    [4;2;6;8;5;3;7;9;1];
    [7;1;3;9;2;4;8;5;6];
    [9;6;1;5;3;7;2;8;4];
    [2;8;7;4;1;9;6;3;5];
    [3;4;5;2;8;6;1;7;9] ].

(** A check that a solved grid [sol] is the only one for [g]: with any
    other digit in any one empty cell of [g], the final solution finds
    nothing. *)
Definition refutes_others (g sol : Grid) : bool :=
  forallb (λ p,
    match cell_at g p with
    | Some 0 =>
      forallb (λ d,
        bool_decide (cell_at sol p = Some d) ||
        match set_cell g p.1 p.2 d with
        | Some g' =>
          match Final.sudoku_solver g' with
          | Returned out _ => bool_decide (out = invalid_sudoku)
          | _ => false
          end
        | None => false
        end) digits
    | _ => true
    end) all_cells.

(** The state a scan leaves, for grids whose scan succeeds. *)
Definition scanned_state (sudoku : Grid) : State :=
  match Final.scan_rows range9 (fresh_state sudoku) with
  | Scanned st => st
  | _ => fresh_state sudoku
  end.

(** Invariant I1 and its converse, written out: each used-set holds exactly
    the non-zero values of the cells of its row, column or box. *)
Definition used_sets_track (st : State) : Prop :=
  (∀ r v, v ∈ dd_peek (row_to_seen_vals st) r ↔
     v ≠ 0 ∧ ∃ c, 0 ≤ r < 9 ∧ 0 ≤ c < 9 ∧ cell (board st) r c = Some v) ∧
  (∀ c v, v ∈ dd_peek (col_to_seen_vals st) c ↔
     v ≠ 0 ∧ ∃ r, 0 ≤ r < 9 ∧ 0 ≤ c < 9 ∧ cell (board st) r c = Some v) ∧
  (∀ b v, v ∈ dd_peek (grid_to_cells st) b ↔
     v ≠ 0 ∧ ∃ r c, 0 ≤ r < 9 ∧ 0 ≤ c < 9 ∧ sub_grid_no r c = b ∧
                    cell (board st) r c = Some v).

(** ** Approach 1 beside the final solution *)

(** The grids have the same shape and the same entries, except at the
    positions listed in [E]. *)
Definition agree_off (E : list (Z * Z)) (g g' : Grid) : Prop :=
  shape g = shape g' ∧
  ∀ i j : nat, (Z.of_nat i, Z.of_nat j) ∉ E →
    g !! i ≫= (.!! j) = g' !! i ≫= (.!! j).

(** State [a] of approach 1 mirrors state [f] of the final solution: the
    same empty cells and used-sets, and the same board except at the cells
    recorded as empty, where [revert_state] leaves the digit tried last. *)
Record mirrors (a f : State) : Prop := {
  mirrors_board : agree_off (empty_cells f) (board a) (board f);
  mirrors_empty : empty_cells a = empty_cells f;
  mirrors_rows : ∀ k, dd_peek (row_to_seen_vals a) k = dd_peek (row_to_seen_vals f) k;
  mirrors_cols : ∀ k, dd_peek (col_to_seen_vals a) k = dd_peek (col_to_seen_vals f) k;
  mirrors_boxes : ∀ k, dd_peek (grid_to_cells a) k = dd_peek (grid_to_cells f) k
}.

(** Two scans end alike. *)
Definition scan_alike (r r' : scan_result) : Prop :=
  match r, r' with
  | Scanned st, Scanned st' => same_state st st'
  | DuplicateClue, DuplicateClue => True
  | ScanIndexError, ScanIndexError => True
  | _, _ => False
  end.

(** A search of approach 1 and one of the final solution end alike. *)
Definition search_alike (ra : outcome State) (rf : outcome Grid) : Prop :=
  match ra, rf with
  | DepthExceeded, DepthExceeded => True
  | SearchIndexError, SearchIndexError => True
  | Finished None a _, Finished None f _ => mirrors a f
  | Finished (Some goal) a _, Finished (Some g) f _ =>
    board goal = g ∧ board a = board f
  | _, _ => False
  end.

(** A call of approach 1 and one of the final solution end alike: the same
    answer, and the same grid left to the caller except at the cells that
    were empty. *)
Definition solver_alike (sudoku : Grid) (ra rf : solver_result) : Prop :=
  match ra, rf with
  | Returned out after, Returned out' after' =>
    out = out' ∧
    agree_off (filter (λ p, cell_at sudoku p = Some 0) all_cells) after after' ∧
    (out ≠ invalid_sudoku → after = after')
  | Raised, Raised => True
  | Unfinished, Unfinished => True
  | _, _ => False
  end.

(** A search that ends differs from its start only at cells that were
    recorded as empty. *)
Definition search_frame (st : State) (r : outcome Grid) : Prop :=
  match r with
  | Finished _ st' _ => agree_off (empty_cells st) (board st) (board st')
  | _ => True
  end.

(** ** Which solution is returned *)

(** [l] comes before [l'] or equals it, the two compared entry by entry
    from the front. *)
Fixpoint lex_le (l l' : list Z) : Prop :=
  match l, l' with
  | [], _ => True
  | _ :: _, [] => False
  | x :: l, y :: l' => x < y ∨ (x = y ∧ lex_le l l')
  end.

(** The order in which the search fills the cells that the scan recorded
    as empty: the last one first. *)
Definition fill_order (sudoku : Grid) : list (Z * Z) :=
  reverse (filter (λ p, cell_at sudoku p = Some 0) all_cells).

(** The board a search ends with on success comes first among the
    solutions of the board it started with, read in the order in which the
    cells are filled. *)
Definition search_least (st : State) (r : outcome Grid) : Prop :=
  match r with
  | Finished (Some _) st' _ =>
    ∀ sol, valid_solution sol → keeps_clues (board st) sol →
      lex_le (unit_vals (board st') (reverse (empty_cells st)))
             (unit_vals sol (reverse (empty_cells st)))
  | _ => True
  end.

(** ** Invariants of the heap variant *)

(** Two states with the same contents, the empty cells up to their
    order. *)
Record same_perm (st st' : State) : Prop := {
  perm_board : board st = board st';
  perm_empty : empty_cells st ≡ₚ empty_cells st';
  perm_rows : ∀ k, dd_peek (row_to_seen_vals st) k = dd_peek (row_to_seen_vals st') k;
  perm_cols : ∀ k, dd_peek (col_to_seen_vals st) k = dd_peek (col_to_seen_vals st') k;
  perm_boxes : ∀ k, dd_peek (grid_to_cells st) k = dd_peek (grid_to_cells st') k
}.

(** [col_to_missing_rows[c]] holds the rows of the cells of column [c]
    that are recorded as empty. *)
Definition tracks_missing (st : Heap.SudokuState) : Prop :=
  ∀ c r, r ∈ dd_peek (Heap.col_to_missing_rows st) c ↔ (r, c) ∈ empty_cells (Heap.base st).

Definition HeapInv (st : Heap.SudokuState) : Prop :=
  Inv (Heap.base st) ∧ tracks_missing st.

Definition same_heap (st st' : Heap.SudokuState) : Prop :=
  same_perm (Heap.base st) (Heap.base st') ∧
  ∀ c, dd_peek (Heap.col_to_missing_rows st) c = dd_peek (Heap.col_to_missing_rows st') c.

(** What a search of the heap variant guarantees when it has room for one
    nested call per empty cell. *)
Definition heap_search_ok (st : Heap.SudokuState) (r : Heap.search_result) : Prop :=
  match r with
  | Heap.OutOfDepth => False
  | Heap.IndexErrorRaised => False
  | Heap.ValueErrorRaised _ => False
  | Heap.NotFound st' log =>
    same_heap st st' ∧ Forall HeapInv log ∧
    ∀ sol, valid_solution sol → keeps_clues (board (Heap.base st)) sol → False
  | Heap.Found goal st' log =>
    goal = st' ∧ HeapInv st' ∧ empty_cells (Heap.base st') = [] ∧
    completes (board (Heap.base st)) (board (Heap.base st')) ∧ Forall HeapInv log
  end.

(** The same for the loop over the digits [ds] tried in cell [p]. *)
Definition heap_loop_ok (st : Heap.SudokuState) (p : Z * Z) (ds : list Z)
    (r : Heap.search_result) : Prop :=
  match r with
  | Heap.OutOfDepth => False
  | Heap.IndexErrorRaised => False
  | Heap.ValueErrorRaised _ => False
  | Heap.NotFound st' log =>
    same_heap st st' ∧ Forall HeapInv log ∧
    ∀ sol d, valid_solution sol → keeps_clues (board (Heap.base st)) sol →
             cell_at sol p = Some d → d ∉ ds
  | Heap.Found goal st' log =>
    goal = st' ∧ HeapInv st' ∧ empty_cells (Heap.base st') = [] ∧
    completes (board (Heap.base st)) (board (Heap.base st')) ∧ Forall HeapInv log
  end.

(** The constructor of the heap variant beside the scan of approach 1. *)
Definition init_alike (r : Heap.init_result) (r' : scan_result) : Prop :=
  match r, r' with
  | Heap.Initialized st, Scanned st' => same_perm (Heap.base st) st' ∧ tracks_missing st
  | Heap.InitValueError, DuplicateClue => True
  | Heap.InitIndexError, ScanIndexError => True
  | _, _ => False
  end.

(** Number of cells of column [c] of the board that hold 0. *)
Definition column_blanks (g : Grid) (c : Z) : nat :=
  length (filter (λ p, p.2 = c ∧ cell_at g p = Some 0) all_cells).

(** ** What the search of [sudoku_approach1_newstate.py] guarantees *)

(** The digit occurs in no cell of the row, the column and the box of
    cell [p] of the grid. *)
Definition fits (g : Grid) (p : Z * Z) (d : Z) : Prop :=
  ∀ q, on_board q → same_unit p q → cell_at g q ≠ Some d.

(** For the loop over the digits [ds] tried in cell [p]: a goal state
    completes the board; nothing found means that no digit was placed;
    [TypeError] means that one was. *)
Definition newstate_loop_ok (st : State) (p : Z * Z) (ds : list Z)
    (r : NewState.search_result) : Prop :=
  match r with
  | NewState.Found goal =>
    Inv goal ∧ empty_cells goal = [] ∧ completes (board st) (board goal)
  | NewState.NotFound g =>
    g = board st ∧ ∀ d, d ∈ ds → ¬ unused st p.1 p.2 d
  | NewState.TypeErrorRaised g => ∃ d, d ∈ ds ∧ unused st p.1 p.2 d
  | _ => False
  end.

Definition newstate_search_ok (st : State) (r : NewState.search_result) : Prop :=
  match r with
  | NewState.Found goal =>
    Inv goal ∧ empty_cells goal = [] ∧ completes (board st) (board goal)
  | NewState.NotFound g =>
    g = board st ∧
    ∃ p, last (empty_cells st) = Some p ∧ ∀ d, 1 ≤ d ≤ 9 → ¬ unused st p.1 p.2 d
  | NewState.TypeErrorRaised g =>
    ∃ p d, last (empty_cells st) = Some p ∧ 1 ≤ d ≤ 9 ∧ unused st p.1 p.2 d
  | _ => False
  end.

(** ** Invariants of approach 2 *)

(** The cells of the board that hold 0, in row-major order. *)
Definition blanks (g : Grid) : list (Z * Z) :=
  filter (λ p, cell_at g p = Some 0) all_cells.

(** The set kept under row [r], and the count kept under column [c]. *)
Definition row_empty_cells (st : Approach2.PartialSudokuState) (r : Z) : list (Z * Z) :=
  default [] (Approach2.row_to_empty_cells st !! r).
Definition col_count (st : Approach2.PartialSudokuState) (c : Z) : Z :=
  default 0 (Approach2.col_to_empty_cells_count st !! c).

(** The state of the constructor of approach 2 beside the state [st1] of
    the scan of approach 1 on the same grid [g], after the same cells. *)
Record building (g : Grid) (st : Approach2.PartialSudokuState) (st1 : State) : Prop := {
  b_board : board (Approach2.shared st) = g;
  b_board1 : board st1 = g;
  b_seen_rows : ∀ k, dd_peek (row_to_seen_vals (Approach2.shared st)) k
                     = dd_peek (row_to_seen_vals st1) k;
  b_seen_cols : ∀ k, dd_peek (col_to_seen_vals (Approach2.shared st)) k
                     = dd_peek (col_to_seen_vals st1) k;
  b_seen_boxes : ∀ k, dd_peek (grid_to_cells (Approach2.shared st)) k
                      = dd_peek (grid_to_cells st1) k;
  b_rows : ∀ r, row_empty_cells st r = filter (λ p, p.1 = r) (empty_cells st1);
  b_keys : ∀ r, is_Some (Approach2.row_to_empty_cells st !! r)
                ↔ filter (λ p, p.1 = r) (empty_cells st1) ≠ [];
  b_counts : ∀ c, col_count st c
                  = Z.of_nat (length (filter (λ p, p.2 = c) (empty_cells st1)));
  b_count_keys : ∀ c, is_Some (Approach2.col_to_empty_cells_count st !! c)
                      ↔ filter (λ p, p.2 = c) (empty_cells st1) ≠ [];
  b_min_row : empty_cells st1 ≠ [] →
              is_Some (Approach2.row_to_empty_cells st !! Approach2.min_empty_row st);
  b_min_col : empty_cells st1 ≠ [] →
              is_Some (Approach2.col_to_empty_cells_count st !! Approach2.min_empty_col st)
}.

(** Both end alike; [old] and [new] bound the cells that the scan of
    approach 1 has recorded as empty. *)
Definition build_alike (g : Grid) (old new : list (Z * Z))
    (r : Approach2.build_result) (r1 : scan_result) : Prop :=
  match r, r1 with
  | Approach2.Built st, Scanned st1 =>
    building g st st1 ∧ ∀ p, p ∈ empty_cells st1 → p ∈ old ∨ p ∈ new
  | Approach2.BuildValueError g', DuplicateClue => g' = g
  | Approach2.BuildIndexError, ScanIndexError => True
  | _, _ => False
  end.

(** What the constructor establishes on a board [g]. *)
Record built_on (g : Grid) (st : Approach2.PartialSudokuState) : Prop := {
  built_board : board (Approach2.shared st) = g;
  built_cells : ∀ p, on_board p → is_Some (cell_at g p);
  built_tracks :
    Tracks (row_to_seen_vals (Approach2.shared st)) (col_to_seen_vals (Approach2.shared st))
           (grid_to_cells (Approach2.shared st)) (filled on_board g);
  built_rows : ∀ r, row_empty_cells st r = filter (λ p, p.1 = r) (blanks g);
  built_keys : ∀ r, is_Some (Approach2.row_to_empty_cells st !! r)
                    ↔ filter (λ p, p.1 = r) (blanks g) ≠ [];
  built_counts : ∀ c, col_count st c = Z.of_nat (length (filter (λ p, p.2 = c) (blanks g)));
  built_min_row : blanks g ≠ [] →
                  is_Some (Approach2.row_to_empty_cells st !! Approach2.min_empty_row st);
  built_min_col : blanks g ≠ [] → 0 < col_count st (Approach2.min_empty_col st)
}.

(** What [set.pop] is assumed to do: it fails on the empty set only, and
    returns an element of the set. *)
Definition pops (set_pop : list (Z * Z) → option (Z * Z)) : Prop :=
  ∀ s, match set_pop s with
       | Some x => x ∈ s
       | None => s = []
       end.

(** What a search of approach 2 guarantees when it has room for one nested
    call per empty cell. *)
Definition approach2_search_ok (g : Grid) (r : Approach2.search_result) : Prop :=
  match r with
  | Approach2.Found goal =>
    (∃ g', built_on g' goal ∧ blanks g' = [] ∧ completes g g')
  | Approach2.NotFound g' =>
    g' = g ∧ ∀ sol, valid_solution sol → keeps_clues g sol → False
  | _ => False
  end.

(** The same for the loop over the digits [ds] tried in cell [p]. *)
Definition approach2_loop_ok (g : Grid) (p : Z * Z) (ds : list Z)
    (r : Approach2.search_result) : Prop :=
  match r with
  | Approach2.Found goal =>
    (∃ g', built_on g' goal ∧ blanks g' = [] ∧ completes g g')
  | Approach2.NotFound g' =>
    g' = g ∧ ∀ sol d, valid_solution sol → keeps_clues g sol →
                      cell_at sol p = Some d → d ∉ ds
  | _ => False
  end.

(** Board and used-sets of a state are fit for a search on [g]: all 81
    cells exist and the used-sets track the board. *)
Record usable (g : Grid) (s : State) : Prop := {
  usable_board : board s = g;
  usable_cells : ∀ p, on_board p → is_Some (cell_at g p);
  usable_tracks :
    Tracks (row_to_seen_vals s) (col_to_seen_vals s) (grid_to_cells s) (filled on_board g)
}.

(** ** [sudoku_with_heap.py] beside approach 3 *)

(** State [w] of [sudoku_with_heap.py] mirrors state [h] of approach 3. *)
Definition heap_mirrors (w h : Heap.SudokuState) : Prop :=
  mirrors (Heap.base w) (Heap.base h) ∧
  ∀ c, dd_peek (Heap.col_to_missing_rows w) c = dd_peek (Heap.col_to_missing_rows h) c.

(** Two searches end alike. *)
Definition heap_search_alike (rw rh : Heap.search_result) : Prop :=
  match rw, rh with
  | Heap.OutOfDepth, Heap.OutOfDepth => True
  | Heap.IndexErrorRaised, Heap.IndexErrorRaised => True
  | Heap.ValueErrorRaised w, Heap.ValueErrorRaised h => True
  | Heap.NotFound w _, Heap.NotFound h _ => heap_mirrors w h
  | Heap.Found goal w _, Heap.Found goal' h _ =>
    board (Heap.base goal) = board (Heap.base goal') ∧
    board (Heap.base w) = board (Heap.base h)
  | _, _ => False
  end.

(** * Properties *)

(** ** Python sequences *)

Lemma py_getitem_nonneg {A} (l : list A) (i : Z) :
  0 ≤ i → py_getitem l i = l !! Z.to_nat i.
Proof.
  intros Hi. unfold py_getitem, py_pos.
  case_bool_decide as H1; simpl; [done|].
  case_bool_decide as H2; [lia|]. simpl.
  symmetry. apply lookup_ge_None_2. lia.
Qed.

Lemma py_setitem_nonneg {A} (l l' : list A) (i : Z) (x : A) :
  0 ≤ i →
  py_setitem l i x = Some l' ↔ (Z.to_nat i < length l)%nat ∧ l' = <[Z.to_nat i := x]> l.
Proof.
  intros Hi. unfold py_setitem, py_pos.
  case_bool_decide as H1; simpl.
  - split.
    + intros [= <-]. split; [lia|reflexivity].
    + intros [_ ->]. reflexivity.
  - case_bool_decide as H2; [lia|]. simpl. split; [done|]. intros [? _]. lia.
Qed.

Lemma cell_nonneg (g : Grid) (r c : Z) :
  0 ≤ r → 0 ≤ c →
  cell g r c = g !! Z.to_nat r ≫= λ row, row !! Z.to_nat c.
Proof.
  intros Hr Hc. unfold cell. rewrite (py_getitem_nonneg g r Hr).
  destruct (g !! Z.to_nat r) as [row|]; simpl; [|done].
  by apply py_getitem_nonneg.
Qed.

Lemma set_cell_nonneg (g g' : Grid) (r c v : Z) :
  0 ≤ r → 0 ≤ c →
  set_cell g r c v = Some g' ↔
  ∃ row, g !! Z.to_nat r = Some row ∧ (Z.to_nat c < length row)%nat ∧
         g' = <[Z.to_nat r := <[Z.to_nat c := v]> row]> g.
Proof.
  intros Hr Hc. unfold set_cell. rewrite (py_getitem_nonneg g r Hr).
  destruct (g !! Z.to_nat r) as [row|] eqn:Hrow; simpl.
  - destruct (py_setitem row c v) as [row'|] eqn:Hset; simpl.
    + apply py_setitem_nonneg in Hset as [Hlen ->]; [|done].
      rewrite py_setitem_nonneg by done. split.
      * intros [_ ->]. eauto.
      * intros (row2 & [= <-] & _ & ->). split; [|done].
        by eapply lookup_lt_Some.
    + split; [done|]. intros (row2 & [= <-] & Hlen & _).
      assert (py_setitem row c v = Some (<[Z.to_nat c := v]> row)) as Hs
        by (by apply py_setitem_nonneg). congruence.
  - split; [done|]. by intros (row & ? & _).
Qed.

Lemma set_cell_is_Some (g : Grid) (r c v w : Z) :
  0 ≤ r → 0 ≤ c → cell g r c = Some w → is_Some (set_cell g r c v).
Proof.
  intros Hr Hc. rewrite cell_nonneg by done.
  destruct (g !! Z.to_nat r) as [row|] eqn:Hrow; simpl; [|done].
  intros Hw. exists (<[Z.to_nat r := <[Z.to_nat c := v]> row]> g).
  apply set_cell_nonneg; [done..|]. exists row. split_and!; [done| |done].
  by eapply lookup_lt_Some.
Qed.

Lemma cell_set_same (g g' : Grid) (r c v : Z) :
  0 ≤ r → 0 ≤ c → set_cell g r c v = Some g' → cell g' r c = Some v.
Proof.
  intros Hr Hc (row & Hrow & Hlen & ->)%set_cell_nonneg; [|done..].
  rewrite cell_nonneg by done.
  rewrite list_lookup_insert_eq by (by eapply lookup_lt_Some). simpl.
  by apply list_lookup_insert_eq.
Qed.

Lemma cell_set_other (g g' : Grid) (r c v r' c' : Z) :
  0 ≤ r → 0 ≤ c → 0 ≤ r' → 0 ≤ c' → (r', c') ≠ (r, c) →
  set_cell g r c v = Some g' → cell g' r' c' = cell g r' c'.
Proof.
  intros Hr Hc Hr' Hc' Hne (row & Hrow & Hlen & ->)%set_cell_nonneg; [|done..].
  rewrite !cell_nonneg by done.
  destruct (decide (Z.to_nat r = Z.to_nat r')) as [Heq|Hneq].
  - rewrite <- Heq. rewrite list_lookup_insert_eq by (by eapply lookup_lt_Some).
    rewrite Hrow. simpl. apply list_lookup_insert_ne.
    intros Heqc. apply Hne. f_equal; lia.
  - by rewrite list_lookup_insert_ne.
Qed.

Lemma set_cell_shape (g g' : Grid) (r c v : Z) :
  0 ≤ r → 0 ≤ c → set_cell g r c v = Some g' → shape g' = shape g.
Proof.
  intros Hr Hc (row & Hrow & Hlen & ->)%set_cell_nonneg; [|done..].
  unfold shape. rewrite list_fmap_insert, length_insert.
  apply list_insert_id. by rewrite list_lookup_fmap, Hrow.
Qed.

(** Writing back the value a cell held gives back the grid. *)
Lemma set_cell_restore (g g' : Grid) (r c v w : Z) :
  0 ≤ r → 0 ≤ c →
  cell g r c = Some w → set_cell g r c v = Some g' → set_cell g' r c w = Some g.
Proof.
  intros Hr Hc Hw (row & Hrow & Hlen & ->)%set_cell_nonneg; [|done..].
  rewrite cell_nonneg in Hw by done. rewrite Hrow in Hw. simpl in Hw.
  apply set_cell_nonneg; [done..|].
  exists (<[Z.to_nat c := v]> row). split_and!.
  - apply list_lookup_insert_eq. by eapply lookup_lt_Some.
  - by rewrite length_insert.
  - rewrite list_insert_insert_eq, list_insert_insert_eq.
    rewrite (list_insert_id row) by done. by rewrite list_insert_id.
Qed.

Lemma match_snoc {A B} (l : list A) (x : A) (a b : B) :
  match l ++ [x] with [] => a | _ :: _ => b end = b.
Proof. by destruct l. Qed.

(** ** [defaultdict(set)] *)

Section defaultdict_facts.
Context `{Countable K}.
Implicit Types (m : gmap K (gset Z)) (k : K) (v : Z).

Lemma dd_peek_touch m k k' : dd_peek (dd_touch m k) k' = dd_peek m k'.
Proof.
  unfold dd_touch, dd_peek. destruct (m !! k) as [s|] eqn:Hk; [done|].
  destruct (decide (k = k')) as [<-|Hne].
  - by rewrite lookup_insert_eq, Hk.
  - by rewrite lookup_insert_ne.
Qed.

Lemma dd_peek_add m k v k' :
  dd_peek (dd_add m k v) k' =
  if decide (k = k') then dd_peek m k ∪ {[v]} else dd_peek m k'.
Proof.
  unfold dd_add. case_decide as Hk.
  - subst k'. unfold dd_peek at 1. by rewrite lookup_insert_eq.
  - unfold dd_peek at 1. rewrite lookup_insert_ne by done. done.
Qed.

Lemma dd_peek_discard m k v k' :
  dd_peek (dd_discard m k v) k' =
  if decide (k = k') then dd_peek m k ∖ {[v]} else dd_peek m k'.
Proof.
  unfold dd_discard. case_decide as Hk.
  - subst k'. unfold dd_peek at 1. by rewrite lookup_insert_eq.
  - unfold dd_peek at 1. rewrite lookup_insert_ne by done. done.
Qed.

(** Adding a value that was absent and discarding it again leaves every
    set as it was. *)
Lemma dd_peek_discard_add m k v k' :
  v ∉ dd_peek m k → dd_peek (dd_discard (dd_add m k v) k v) k' = dd_peek m k'.
Proof.
  intros Hv. rewrite dd_peek_discard, !dd_peek_add.
  case_decide as Hk; [|done]. subst k'.
  rewrite decide_True by done. set_solver.
Qed.

(** When the key was there, the dictionary itself is as it was. *)
Lemma dd_discard_add m k v :
  is_Some (m !! k) → v ∉ dd_peek m k → dd_discard (dd_add m k v) k v = m.
Proof.
  intros [s Hs] Hv. unfold dd_discard. rewrite dd_peek_add, decide_True by done.
  unfold dd_add. rewrite insert_insert_eq.
  apply insert_id. rewrite Hs. f_equal.
  unfold dd_peek in *. rewrite Hs in *. simpl in *. set_solver.
Qed.

Lemma dd_touch_is_Some m k : is_Some (dd_touch m k !! k).
Proof.
  unfold dd_touch. destruct (m !! k) eqn:Hk; [by rewrite Hk|].
  by rewrite lookup_insert_eq.
Qed.

Lemma dd_touch_keeps m k k' : is_Some (m !! k') → is_Some (dd_touch m k !! k').
Proof.
  unfold dd_touch. destruct (m !! k) eqn:Hk; [done|].
  intros Hk'. destruct (decide (k = k')) as [<-|Hne].
  - by rewrite lookup_insert_eq.
  - by rewrite lookup_insert_ne.
Qed.
End defaultdict_facts.

(** ** States up to created keys *)

Lemma same_state_refl st : same_state st st.
Proof. by split. Qed.

Lemma same_state_sym st st' : same_state st st' → same_state st' st.
Proof. intros []. by split. Qed.

Lemma same_state_trans st1 st2 st3 :
  same_state st1 st2 → same_state st2 st3 → same_state st1 st3.
Proof. intros [] []. split; intros; etrans; eauto. Qed.

Lemma same_state_I2 st st' : same_state st st' → I2 st → I2 st'.
Proof. intros [Hb He _ _ _]. unfold I2. by rewrite Hb, He. Qed.

Lemma unused_same_state st st' row col digit :
  same_state st st' → unused st row col digit → unused st' row col digit.
Proof. intros [_ _ Hr Hc Hx]. unfold unused. by rewrite Hr, Hc, Hx. Qed.

(** ** The three membership tests *)

Ltac unfold_test :=
  unfold dd_contains; simpl;
  repeat (case_bool_decide; simpl);
  (split; [split; simpl; intros; rewrite ?dd_peek_touch; done|]);
  unfold unused; simpl; rewrite ?dd_peek_touch.

Lemma clue_clashes_spec st row col val :
  same_state st (Final.clue_clashes st row col val).2 ∧
  ((Final.clue_clashes st row col val).1 = false ↔ unused st row col val).
Proof. unfold Final.clue_clashes. unfold_test; naive_solver. Qed.

Lemma digit_fits_spec st row col digit :
  same_state st (Final.digit_fits st row col digit).2 ∧
  ((Final.digit_fits st row col digit).1 = true ↔ unused st row col digit).
Proof. unfold Final.digit_fits. unfold_test; naive_solver. Qed.

Lemma is_unsolvable_spec st row col val :
  same_state st (Approach1.is_unsolvable st row col val).2 ∧
  ((Approach1.is_unsolvable st row col val).1 = false ↔ unused st row col val).
Proof.
  unfold Approach1.is_unsolvable, Approach1._grid_key.
  unfold_test; fold (sub_grid_no row col); naive_solver.
Qed.

(** ** Tracking the filled cells *)

Section tracking_facts.
Context `{Countable K}.
Variable key : Z * Z → K.
Implicit Types (m : gmap K (gset Z)) (F : Z * Z → Z → Prop).

Lemma Seen_proper m m' F F' :
  (∀ k, dd_peek m k = dd_peek m' k) → (∀ p v, F p v ↔ F' p v) →
  Seen key m F → Seen key m' F'.
Proof.
  intros Hm HF HS k v. rewrite <- Hm, (HS k v).
  split; intros (p & Hk & Hp); exists p; split; try done; by apply HF.
Qed.

Lemma Distinct_proper F F' :
  (∀ p v, F p v ↔ F' p v) → Distinct key F → Distinct key F'.
Proof. intros HF HD p q v Hk Hp Hq. apply (HD p q v); [done|by apply HF..]. Qed.

Lemma Seen_empty : Seen key ∅ (λ _ _, False).
Proof.
  intros k v. unfold dd_peek. rewrite lookup_empty. simpl.
  split; [set_solver|]. by intros (? & _ & []).
Qed.

(** One more filled cell, recorded under its key. *)
Lemma Seen_add m F F' p d :
  (∀ q v, F' q v ↔ F q v ∨ (q = p ∧ v = d)) →
  Seen key m F → Seen key (dd_add m (key p) d) F'.
Proof.
  intros HF HS k v. rewrite dd_peek_add. case_decide as Hk.
  - subst k. rewrite elem_of_union, elem_of_singleton, (HS (key p) v). split.
    + intros [(q & Hq & Hv) | ->].
      * exists q. split; [done|]. apply HF. by left.
      * exists p. split; [done|]. apply HF. by right.
    + intros (q & Hq & [Hv | [-> ->]]%HF); [left; by exists q | by right].
  - rewrite (HS k v). split.
    + intros (q & Hq & Hv). exists q. split; [done|]. apply HF. by left.
    + intros (q & Hq & [Hv | [-> ->]]%HF); [by exists q | done].
Qed.

Lemma Distinct_add m F F' p d :
  (∀ q v, F' q v ↔ F q v ∨ (q = p ∧ v = d)) →
  d ∉ dd_peek m (key p) → Seen key m F → Distinct key F → Distinct key F'.
Proof.
  intros HF Hd HS HD q1 q2 v Hk [H1 | [E1 E2]]%HF [H2 | [E3 E4]]%HF; subst.
  - by apply (HD q1 q2 v).
  - destruct Hd. apply HS. by exists q1.
  - destruct Hd. apply HS. by exists q2.
  - done.
Qed.
End tracking_facts.

Lemma Tracks_proper rows cols boxes rows' cols' boxes' F F' :
  (∀ k, dd_peek rows k = dd_peek rows' k) →
  (∀ k, dd_peek cols k = dd_peek cols' k) →
  (∀ k, dd_peek boxes k = dd_peek boxes' k) →
  (∀ p v, F p v ↔ F' p v) →
  Tracks rows cols boxes F → Tracks rows' cols' boxes' F'.
Proof.
  intros Hr Hc Hb HF []. split;
    eauto using Seen_proper, Distinct_proper.
Qed.

Lemma Tracks_add rows cols boxes F F' p d :
  (∀ q v, F' q v ↔ F q v ∨ (q = p ∧ v = d)) →
  d ∉ dd_peek rows p.1 → d ∉ dd_peek cols p.2 →
  d ∉ dd_peek boxes (sub_grid_no p.1 p.2) →
  Tracks rows cols boxes F →
  Tracks (dd_add rows p.1 d) (dd_add cols p.2 d)
         (dd_add boxes (sub_grid_no p.1 p.2) d) F'.
Proof.
  intros HF Hr Hc Hb []. split.
  - by apply (Seen_add row_key _ F).
  - by apply (Seen_add col_key _ F).
  - by apply (Seen_add box_key _ F).
  - by apply (Distinct_add row_key rows F F' p d).
  - by apply (Distinct_add col_key cols F F' p d).
  - by apply (Distinct_add box_key boxes F F' p d).
Qed.

Lemma Inv_same_state st st' : same_state st st' → Inv st → Inv st'.
Proof.
  intros Hs [Hc Hi Ht]. pose proof Hs as [Hb He Hr Hcs Hx]. split.
  - by rewrite <- Hb.
  - by apply (same_state_I2 st).
  - rewrite <- Hb. by apply (Tracks_proper _ _ _ _ _ _ _ _ Hr Hcs Hx (λ _ _, reflexivity _)).
Qed.

(** ** Placing and undoing a digit (final solution) *)

(** Writing a non-zero digit into an empty cell adds one filled cell. *)
Lemma filled_set_cell g g' p d :
  on_board p → cell_at g p = Some 0 → d ≠ 0 →
  set_cell g p.1 p.2 d = Some g' →
  ∀ q v, filled on_board g' q v ↔ filled on_board g q v ∨ (q = p ∧ v = d).
Proof.
  intros [Hp1 Hp2] H0 Hd Hset q v. unfold filled, cell_at in *.
  destruct (decide (q = p)) as [->|Hne].
  - rewrite (cell_set_same g g' p.1 p.2 d) by (done || lia). rewrite H0.
    split; [intros (_ & [= <-] & _); by right|].
    intros [(_ & [= <-] & []) | [_ ->]]; [done|]. done.
  - split.
    + intros ([Hq1 Hq2] & Hv & Hv0). left.
      rewrite (cell_set_other g g' p.1 p.2 d) in Hv; [done|lia..| |done].
      intros Heq. apply Hne. by destruct q, p; simplify_eq/=.
    + intros [([Hq1 Hq2] & Hv & Hv0) | [-> _]]; [|done].
      rewrite (cell_set_other g g' p.1 p.2 d); [done|lia..| |done].
      intros Heq. apply Hne. by destruct q, p; simplify_eq/=.
Qed.

Lemma place_Inv st p d :
  Inv st → last (empty_cells st) = Some p → unused st p.1 p.2 d → d ≠ 0 →
  ∃ st1, Final.place st p.1 p.2 d = Some st1 ∧ Inv st1 ∧
         set_cell (board st) p.1 p.2 d = Some (board st1) ∧
         empty_cells st = empty_cells st1 ++ [p] ∧
         on_board p ∧ cell_at (board st) p = Some 0.
Proof.
  intros [Hcells [Hnd Hmem] Htr] (l & Hl)%last_Some (Hr & Hc & Hb) Hd.
  assert (on_board p ∧ cell_at (board st) p = Some 0) as [Hon H0].
  { apply Hmem. rewrite Hl. set_solver. }
  pose proof Hon as [Hp1 Hp2].
  destruct (set_cell_is_Some (board st) p.1 p.2 d 0) as [g' Hg']; [lia..|done|].
  unfold Final.place. rewrite Hg'. simpl. rewrite Hl, match_snoc.
  rewrite removelast_last. eexists. split; [done|]. simpl.
  rewrite Hl in Hnd, Hmem. apply NoDup_app in Hnd as (Hndl & Hnp & _).
  split_and!; try done. split; simpl.
  - intros q [Hq1 Hq2]. unfold cell_at. destruct (decide (q = p)) as [->|Hne].
    + rewrite (cell_set_same (board st) g' p.1 p.2 d) by (done || lia). eauto.
    + rewrite (cell_set_other (board st) g' p.1 p.2 d); [by apply Hcells|lia..| |done].
      intros Heq. apply Hne. by destruct q, p; simplify_eq/=.
  - split; [done|]. simpl. intros q.
    pose proof (filled_set_cell _ _ _ _ Hon H0 Hd Hg') as HF.
    split.
    + intros Hq. assert (q ≠ p) as Hne by (intros ->; by apply (Hnp p), list_elem_of_singleton).
      destruct (proj1 (Hmem q)) as [[Hq1 Hq2] Hq0]; [set_solver|]. split; [done|].
      unfold cell_at in *. rewrite (cell_set_other (board st) g' p.1 p.2 d); [done|lia..| |done].
      intros Heq. apply Hne. by destruct q, p; simplify_eq/=.
    + intros [[Hq1 Hq2] Hq0].
      assert (q ≠ p) as Hne.
      { intros ->. unfold cell_at in Hq0.
        rewrite (cell_set_same (board st) g' p.1 p.2 d) in Hq0 by (done || lia). congruence. }
      unfold cell_at in *.
      rewrite (cell_set_other (board st) g' p.1 p.2 d) in Hq0; [|lia..| |done].
      * assert (q ∈ l ++ [p]) as Hin by (by apply Hmem). set_solver.
      * intros Heq. apply Hne. by destruct q, p; simplify_eq/=.
  - eapply Tracks_add; [|done..]. by apply filled_set_cell.
Qed.

(** Undoing the placement on a state that has the placed state's contents
    gives a state with the contents before the placement. *)
Lemma undo_place st st1 st2 p d :
  on_board p → cell_at (board st) p = Some 0 → unused st p.1 p.2 d →
  last (empty_cells st) = Some p →
  Final.place st p.1 p.2 d = Some st1 → same_state st1 st2 →
  ∃ st3, Final.undo st2 p.1 p.2 d = Some st3 ∧ same_state st st3.
Proof.
  intros [Hp1 Hp2] H0 (Hr & Hc & Hb) (l & Hl)%last_Some Hplace [Sb Se Sr Sc Sx].
  unfold Final.place in Hplace.
  destruct (set_cell (board st) p.1 p.2 d) as [g'|] eqn:Hg'; simpl in Hplace; [|done].
  rewrite Hl, match_snoc, removelast_last in Hplace. injection Hplace as <-. simpl in *.
  unfold Final.undo. rewrite <- Sb.
  rewrite (set_cell_restore (board st) g' p.1 p.2 d 0) by (done || lia). simpl.
  eexists. split; [done|]. split; simpl.
  - done.
  - rewrite <- Se, Hl. by destruct p.
  - intros k. rewrite dd_peek_discard, <- !Sr, <- dd_peek_discard.
    by rewrite dd_peek_discard_add.
  - intros k. rewrite dd_peek_discard, <- !Sc, <- dd_peek_discard.
    by rewrite dd_peek_discard_add.
  - intros k. rewrite dd_peek_discard, <- !Sx, <- dd_peek_discard.
    by rewrite dd_peek_discard_add.
Qed.

(** ** Units of the board *)

Lemma on_board_all_cells p : on_board p ↔ p ∈ all_cells.
Proof.
  unfold on_board, all_cells, range9. rewrite list_elem_of_bind. split.
  - intros [H1 H2]. exists p.1. rewrite list_elem_of_fmap, elem_of_seqZ.
    split; [|lia]. exists p.2. rewrite elem_of_seqZ. split; [by destruct p|lia].
  - intros (r & (c & -> & Hc%elem_of_seqZ)%list_elem_of_fmap & Hr%elem_of_seqZ).
    simpl. lia.
Qed.

Lemma units_cover_cells :
  Forall (λ p, Forall (λ q,
    same_unit p q → Exists (λ u, p ∈ u ∧ q ∈ u) units) all_cells) all_cells.
Proof. apply (bool_decide_unpack _). by vm_compute. Qed.

Lemma units_shape :
  Forall (λ u, NoDup u ∧ length u = 9%nat ∧ Forall on_board u ∧
               Forall (λ p, Forall (same_unit p) u) u) units.
Proof. apply (bool_decide_unpack _). by vm_compute. Qed.

Lemma units_cover p q :
  on_board p → on_board q → same_unit p q → ∃ u, u ∈ units ∧ p ∈ u ∧ q ∈ u.
Proof.
  intros Hp%on_board_all_cells Hq%on_board_all_cells Hs.
  pose proof units_cover_cells as H. rewrite Forall_forall in H.
  specialize (H p Hp). rewrite Forall_forall in H.
  specialize (H q Hq Hs). by apply Exists_exists in H.
Qed.

Lemma same_unit_refl p : same_unit p p.
Proof. by left. Qed.

Lemma wf_grid_cells g p : wf_grid g → on_board p → is_Some (cell_at g p).
Proof.
  intros Hwf [Hr Hc]. unfold cell_at. rewrite cell_nonneg by lia.
  assert (shape g !! Z.to_nat p.1 = Some 9%nat) as Hrow.
  { rewrite Hwf. apply lookup_replicate_2. lia. }
  unfold shape in Hrow. rewrite list_lookup_fmap in Hrow.
  destruct (g !! Z.to_nat p.1) as [row|]; simpl in *; [|done].
  injection Hrow as Hlen. apply lookup_lt_is_Some. lia.
Qed.

(** ** Holding each digit once *)

Lemma each_digit_once_perm (l : list Z) :
  each_digit_once l → (length l ≤ 9)%nat → l ≡ₚ digits.
Proof.
  intros Hl Hlen. symmetry. apply submseteq_length_Permutation; [|done].
  apply NoDup_submseteq; [apply NoDup_seqZ|].
  intros d Hd. unfold each_digit_once in Hl. rewrite Forall_forall in Hl.
  apply list_elem_of_In, (count_occ_In Z.eq_dec). rewrite (Hl d Hd). lia.
Qed.

Lemma perm_each_digit_once (l : list Z) : l ≡ₚ digits → each_digit_once l.
Proof.
  intros Hp. apply Forall_forall. intros d Hd.
  rewrite (proj1 (Permutation_count_occ Z.eq_dec l digits) Hp d).
  apply NoDup_count_occ'; [apply NoDup_ListNoDup, NoDup_seqZ|by apply list_elem_of_In].
Qed.

Section omap_facts.
Context {A B : Type} (f : A → option B).

Lemma length_omap_le (u : list A) : (length (omap f u) ≤ length u)%nat.
Proof. induction u as [|x u IH]; csimpl; [done|]. destruct (f x); csimpl; lia. Qed.

Lemma length_omap_all (u : list A) :
  (∀ p, p ∈ u → is_Some (f p)) → length (omap f u) = length u.
Proof.
  induction u as [|x u IH]; csimpl; [done|]. intros Hu.
  destruct (Hu x) as [y ->]; [set_solver|]. csimpl. rewrite IH; [done|].
  intros p Hp. apply Hu. set_solver.
Qed.

Lemma NoDup_omap (u : list A) :
  NoDup u →
  (∀ p q v, p ∈ u → q ∈ u → f p = Some v → f q = Some v → p = q) →
  NoDup (omap f u).
Proof.
  induction 1 as [|x u Hx Hu IH]; csimpl; intros Hinj; [constructor|].
  assert (NoDup (omap f u)) as IH'.
  { apply IH. intros p q v Hp Hq. apply Hinj; set_solver. }
  destruct (f x) as [y|] eqn:Hy; [|done]. constructor; [|done].
  intros (q & Hq & Hfq)%list_elem_of_omap.
  apply Hx. rewrite (Hinj x q y); [done|set_solver..|done|done].
Qed.

Lemma omap_NoDup_inj (u : list A) p q v :
  NoDup (omap f u) → p ∈ u → q ∈ u → f p = Some v → f q = Some v → p = q.
Proof.
  induction u as [|x u IH]; csimpl; intros Hnd Hp Hq Hfp Hfq; [set_solver|].
  assert (∀ z, z ∈ u → f z = Some v → f x = Some v → False) as Hclash.
  { intros z Hz Hfz Hfx. rewrite Hfx in Hnd. apply NoDup_cons in Hnd as [Hv _].
    apply Hv, list_elem_of_omap. eauto. }
  apply elem_of_cons in Hp as [->|Hp]; apply elem_of_cons in Hq as [->|Hq].
  - done.
  - destruct (Hclash q); done.
  - destruct (Hclash p); done.
  - apply IH; try done. destruct (f x); [by apply NoDup_cons in Hnd as [_ ?]|done].
Qed.
End omap_facts.

(** ** Solved grids *)

Lemma valid_unit_perm sol u :
  valid_solution sol → u ∈ units → unit_vals sol u ≡ₚ digits.
Proof.
  intros [_ Hv] Hu. rewrite Forall_forall in Hv.
  apply each_digit_once_perm; [by apply Hv|].
  pose proof units_shape as Hs. rewrite Forall_forall in Hs.
  destruct (Hs u Hu) as (_ & <- & _). apply length_omap_le.
Qed.

Lemma valid_NoClash sol : valid_solution sol → NoClash (filled on_board sol).
Proof.
  intros Hv p q v Hs (Hp & Hpv & _) (Hq & Hqv & _).
  destruct (units_cover p q) as (u & Hu & Hpu & Hqu); [done..|].
  apply (omap_NoDup_inj (cell_at sol) u p q v); try done.
  fold (unit_vals sol u). rewrite (valid_unit_perm sol u Hv Hu). apply NoDup_seqZ.
Qed.

Lemma valid_digit sol p :
  valid_solution sol → on_board p → ∃ d, 1 ≤ d ≤ 9 ∧ cell_at sol p = Some d.
Proof.
  intros Hv Hp. destruct (wf_grid_cells sol p) as [d Hd]; [by destruct Hv|done|].
  exists d. split; [|done].
  destruct (units_cover p p) as (u & Hu & Hpu & _); [done..|apply same_unit_refl|].
  assert (d ∈ unit_vals sol u) as Hin by (apply list_elem_of_omap; eauto).
  rewrite (valid_unit_perm sol u Hv Hu) in Hin. apply elem_of_seqZ in Hin. lia.
Qed.

Lemma NoClash_valid g :
  wf_grid g → NoClash (filled on_board g) →
  (∀ p, on_board p → ∃ d, 1 ≤ d ≤ 9 ∧ cell_at g p = Some d) →
  valid_solution g.
Proof.
  intros Hwf Hnc Hall. split; [done|]. apply Forall_forall. intros u Hu.
  pose proof units_shape as Hs. rewrite Forall_forall in Hs.
  destruct (Hs u Hu) as (Hnd & Hlen & Hon & Hsame).
  rewrite Forall_forall in Hon. rewrite Forall_forall in Hsame.
  apply perm_each_digit_once, submseteq_length_Permutation.
  - apply NoDup_submseteq.
    + apply NoDup_omap; [done|]. intros p q v Hp Hq Hpv Hqv.
      destruct (Hall p (Hon p Hp)) as (d & Hd & Hpd).
      specialize (Hsame p Hp). rewrite Forall_forall in Hsame.
      apply (Hnc p q v); [by apply Hsame| |]; split_and!; eauto; intros ->; simplify_eq; lia.
    + intros v (p & Hp & Hpv)%list_elem_of_omap.
      destruct (Hall p (Hon p Hp)) as (d & Hd & Hpd).
      apply elem_of_seqZ. simplify_eq. lia.
  - unfold unit_vals. rewrite length_omap_all, Hlen; [done|].
    intros p Hp. destruct (Hall p (Hon p Hp)) as (d & _ & ->). eauto.
Qed.

Lemma Tracks_NoClash rows cols boxes F : Tracks rows cols boxes F → NoClash F.
Proof.
  intros [_ _ _ Hr Hc Hb] p q v [Hk | [Hk | Hk]]; [apply Hr|apply Hc|apply Hb]; done.
Qed.

(** ** The search (final solution) *)

Lemma completes_full st : Inv st → empty_cells st = [] → completes (board st) (board st).
Proof.
  intros [_ [_ Hmem] _] Hnil. split; [done|]. intros p v Hp Hv.
  case_decide as H0; [|done]. subst v.
  assert (p ∈ empty_cells st) as Hin by (by apply Hmem). rewrite Hnil in Hin. set_solver.
Qed.

Lemma completes_place g g1 g2 p d :
  on_board p → cell_at g p = Some 0 → 1 ≤ d ≤ 9 →
  set_cell g p.1 p.2 d = Some g1 → completes g1 g2 → completes g g2.
Proof.
  intros Hon H0 Hd Hset [Hsh Hc]. pose proof Hon as [Hp1 Hp2]. split.
  - rewrite Hsh. by apply (set_cell_shape g g1 p.1 p.2 d); [lia..|].
  - intros q v Hq Hv. destruct (decide (q = p)) as [->|Hne].
    + assert (v = 0) as -> by congruence. rewrite decide_True by done.
      exists d. split; [done|].
      specialize (Hc p d Hon). rewrite decide_False in Hc by lia. apply Hc.
      by apply (cell_set_same g g1 p.1 p.2 d); [lia..|].
    + apply Hc; [done|]. rewrite <- Hv. destruct Hq as [Hq1 Hq2].
      apply (cell_set_other g g1 p.1 p.2 d); [lia..| |done].
      intros Heq. apply Hne. by destruct q, p; simplify_eq/=.
Qed.

Lemma keeps_clues_place g g1 sol p d :
  on_board p → set_cell g p.1 p.2 d = Some g1 → cell_at sol p = Some d →
  keeps_clues g sol → keeps_clues g1 sol.
Proof.
  intros [Hp1 Hp2] Hset Hsol Hk q v Hq Hv Hv0. destruct (decide (q = p)) as [->|Hne].
  - unfold cell_at in Hv. rewrite (cell_set_same g g1 p.1 p.2 d) in Hv by (done || lia).
    congruence.
  - apply Hk; [done| |done]. rewrite <- Hv. symmetry. destruct Hq as [Hq1 Hq2].
    apply (cell_set_other g g1 p.1 p.2 d); [lia..| |done].
    intros Heq. apply Hne. by destruct q, p; simplify_eq/=.
Qed.

(** The digit a solution has in an empty cell is in none of the cell's
    used-sets. *)
Lemma solution_digit_unused st sol p d :
  Inv st → on_board p → cell_at (board st) p = Some 0 →
  valid_solution sol → keeps_clues (board st) sol → cell_at sol p = Some d →
  unused st p.1 p.2 d.
Proof.
  intros [_ _ [Hr Hc Hb _ _ _]] Hon H0 Hv Hk Hd.
  assert (∀ q, same_unit q p → filled on_board (board st) q d → False) as Hclash.
  { intros q Hs (Hq & Hqd & Hd0).
    assert (q = p) as ->; [|congruence].
    apply (valid_NoClash sol Hv q p d Hs); split_and!; eauto. }
  split_and!.
  - intros (q & Hq & HF)%Hr. apply (Hclash q); [by left|done].
  - intros (q & Hq & HF)%Hc. apply (Hclash q); [by right; left|done].
  - intros (q & Hq & HF)%Hb. apply (Hclash q); [by right; right|done].
Qed.

Lemma try_digits_ok X search p n :
  (∀ st1, Inv st1 → length (empty_cells st1) = n → search_ok X st1 (search st1)) →
  ∀ ds st log,
    Forall (λ d, 1 ≤ d ≤ 9) ds → Inv st →
    last (empty_cells st) = Some p → length (empty_cells st) = S n →
    Forall I2 log →
    loop_ok X st p ds (Final.try_digits search p.1 p.2 ds st log).
Proof.
  intros Hsearch ds. induction ds as [|d ds IH]; intros st log Hds HInv Hlast Hlen Hlog; simpl.
  { split_and!; [apply same_state_refl | done | set_solver]. }
  apply Forall_cons in Hds as [Hd Hds].
  pose proof (digit_fits_spec st p.1 p.2 d) as [Hsame Hfits].
  destruct (Final.digit_fits st p.1 p.2 d) as [fits stc]; simpl in *.
  assert (Inv stc) as HInvc by eauto using Inv_same_state.
  pose proof Hsame as [Sb Se _ _ _].
  assert (on_board p ∧ cell_at (board st) p = Some 0) as [Hon H0].
  { destruct HInv as [_ [_ Hmem] _]. apply Hmem. by apply last_Some_elem_of. }
  destruct fits.
  - assert (unused st p.1 p.2 d) as Hun by (by apply Hfits).
    destruct (place_Inv stc p d) as (st1 & Hplace & HInv1 & Hset & Hemp & _ & _);
      [done|by rewrite <- Se|by apply (unused_same_state st)|lia|].
    rewrite Hplace.
    assert (length (empty_cells st1) = n) as Hlen1.
    { rewrite Se, Hemp, length_app in Hlen. simpl in Hlen. lia. }
    specialize (Hsearch st1 HInv1 Hlen1).
    destruct (search st1) as [| |[g|] st2 log2]; simpl in Hsearch; try done.
    + destruct Hsearch as (-> & HInv2 & Hemp2 & Hcomp & Hlog2). split_and!; try done.
      * apply (completes_place (board st) (board st1) _ p d); try done. by rewrite Sb.
      * apply Forall_app. split; [done|]. constructor; [apply HInv1|done].
    + destruct Hsearch as (Hs12 & Hlog2 & Hnone).
      destruct (undo_place stc st1 st2 p d) as (st3 & Hundo & Hs3);
        [done|by rewrite <- Sb|by apply (unused_same_state st)|by rewrite <- Se|done..|].
      rewrite Hundo.
      assert (same_state st st3) as Hs by eauto using same_state_trans.
      pose proof Hs as [Sb3 Se3 _ _ _].
      assert (Inv st3) as HInv3 by eauto using Inv_same_state.
      specialize (IH st3 (log ++ st1 :: log2 ++ [st3]) Hds HInv3).
      rewrite <- Se3 in IH.
      assert (Forall I2 (log ++ st1 :: log2 ++ [st3])) as Hlog3.
      { rewrite Forall_app, Forall_cons, Forall_app, Forall_singleton.
        split_and!; try done; [apply HInv1|apply HInv3]. }
      specialize (IH Hlast Hlen Hlog3).
      destruct (Final.try_digits search p.1 p.2 ds st3 (log ++ st1 :: log2 ++ [st3]))
        as [| |[g|] st' log']; simpl in *; try done.
      * by rewrite Sb3.
      * destruct IH as (Hs' & Hlog' & Hnone').
        split_and!; [eauto using same_state_trans|done|].
        intros sol d' Hv Hk Hd'. apply not_elem_of_cons. split.
        -- intros ->. apply (Hnone sol Hv).
           apply (keeps_clues_place (board st) (board st1) sol p d); try done.
           by rewrite Sb.
        -- apply (Hnone' sol d' Hv); [by rewrite <- Sb3|done].
  - specialize (IH stc log Hds HInvc). rewrite <- Se in IH. specialize (IH Hlast Hlen Hlog).
    destruct (Final.try_digits search p.1 p.2 ds stc log) as [| |[g|] st' log']; simpl in *;
      try done.
    + by rewrite Sb.
    + destruct IH as (Hs' & Hlog' & Hnone').
      split_and!; [eauto using same_state_trans|done|].
      intros sol d' Hv Hk Hd'. apply not_elem_of_cons. split.
      * intros ->. assert (unused st p.1 p.2 d) as Hun
          by (by apply (solution_digit_unused st sol)).
        apply Hfits in Hun. done.
      * apply (Hnone' sol d' Hv); [by rewrite <- Sb|done].
Qed.

(** A search that is not cut short keeps its promises. *)
Lemma depth_first_search_partial depth : ∀ st,
  Inv st → search_ok True st (Final.depth_first_search depth st).
Proof.
  induction depth as [|depth IH]; intros st HInv;
    cbn [Final.depth_first_search]; unfold Final.choose_cell;
    destruct (last (empty_cells st)) as [[row col]|] eqn:Hlast; try done.
  - apply last_None in Hlast. split_and!; [done..|by apply completes_full|done].
  - destruct (empty_cells st) as [|x l] eqn:Hl; [done|].
    pose proof (try_digits_ok True (Final.depth_first_search depth) (row, col) (length l)) as Hloop.
    specialize (Hloop (λ st1 H1 _, IH st1 H1) digits st []).
    cbn [fst snd] in Hloop. rewrite Hl in Hloop.
    assert (Forall (λ d, 1 ≤ d ≤ 9) digits) as Hds
      by (apply Forall_forall; intros d Hd%elem_of_seqZ; lia).
    specialize (Hloop Hds HInv Hlast eq_refl (Forall_nil_2 _)).
    destruct (Final.try_digits (Final.depth_first_search depth) row col digits st [])
      as [| |[g|] st' log']; cbn [loop_ok search_ok] in *; try done.
    destruct Hloop as (Hs & Hlog & Hnone).
    split; [done|]. split; [done|]. intros sol Hv Hk.
    assert (on_board (row, col)) as Hon.
    { destruct HInv as [_ [_ Hmem] _]. apply Hmem. rewrite Hl. by apply last_Some_elem_of. }
    destruct (valid_digit sol (row, col) Hv Hon) as (d & Hd & Hsol).
    apply (Hnone sol d Hv Hk Hsol). apply elem_of_seqZ. lia.
  - apply last_None in Hlast. split_and!; [done..|by apply completes_full|done].
Qed.

(** With room for one nested call per empty cell the search is never cut
    short. *)
Lemma depth_first_search_ok depth : ∀ st,
  Inv st → (length (empty_cells st) ≤ depth)%nat →
  search_ok False st (Final.depth_first_search depth st).
Proof.
  induction depth as [|depth IH]; intros st HInv Hlen;
    cbn [Final.depth_first_search]; unfold Final.choose_cell;
    destruct (last (empty_cells st)) as [[row col]|] eqn:Hlast.
  - apply last_Some in Hlast as [l Hl]. rewrite Hl, length_app in Hlen. simpl in Hlen. lia.
  - apply last_None in Hlast. split_and!; [done..|by apply completes_full|done].
  - destruct (empty_cells st) as [|x l] eqn:Hl; [done|]. simpl in Hlen.
    pose proof (try_digits_ok False (Final.depth_first_search depth) (row, col) (length l)) as Hloop.
    specialize (Hloop (λ st1 H1 H2, IH st1 H1 ltac:(lia)) digits st []).
    cbn [fst snd] in Hloop. rewrite Hl in Hloop.
    assert (Forall (λ d, 1 ≤ d ≤ 9) digits) as Hds
      by (apply Forall_forall; intros d Hd%elem_of_seqZ; lia).
    specialize (Hloop Hds HInv Hlast eq_refl (Forall_nil_2 _)).
    destruct (Final.try_digits (Final.depth_first_search depth) row col digits st [])
      as [| |[g|] st' log']; cbn [loop_ok search_ok] in *; try done.
    destruct Hloop as (Hs & Hlog & Hnone).
    split; [done|]. split; [done|]. intros sol Hv Hk.
    assert (on_board (row, col)) as Hon.
    { destruct HInv as [_ [_ Hmem] _]. apply Hmem. rewrite Hl. by apply last_Some_elem_of. }
    destruct (valid_digit sol (row, col) Hv Hon) as (d & Hd & Hsol).
    apply (Hnone sol d Hv Hk Hsol). apply elem_of_seqZ. lia.
  - apply last_None in Hlast. split_and!; [done..|by apply completes_full|done].
Qed.

(** More room changes nothing once the search is not cut short. *)
Lemma try_digits_mono (search search' : State → outcome Grid) row col :
  (∀ st, search st ≠ DepthExceeded → search' st = search st) →
  ∀ ds st log,
    Final.try_digits search row col ds st log ≠ DepthExceeded →
    Final.try_digits search' row col ds st log = Final.try_digits search row col ds st log.
Proof.
  intros Hs ds. induction ds as [|d ds IH]; intros st log; simpl; [done|].
  destruct (Final.digit_fits st row col d) as [[] stc]; [|apply IH].
  destruct (Final.place stc row col d) as [st1|]; [|done].
  destruct (search st1) as [| |[g|] st2 log2] eqn:Hr; [done|..].
  - by rewrite Hs, Hr by congruence.
  - by rewrite Hs, Hr by congruence.
  - rewrite Hs, Hr by congruence.
    destruct (Final.undo st2 row col d) as [st3|]; [apply IH|done].
Qed.

Lemma depth_first_search_mono depth : ∀ st k,
  Final.depth_first_search depth st ≠ DepthExceeded →
  Final.depth_first_search (depth + k) st = Final.depth_first_search depth st.
Proof.
  induction depth as [|depth IH]; intros st k; [destruct k|];
    cbn [Final.depth_first_search Nat.add];
    destruct (Final.choose_cell st) as [[row col]|]; try done.
  apply try_digits_mono. intros st1. apply IH.
Qed.

(** ** The scan *)

Section scan_facts.
Variable clashes : State → Z → Z → Z → bool * State.
Hypothesis clashes_spec : ∀ st row col val,
  same_state st (clashes st row col val).2 ∧
  ((clashes st row col val).1 = false ↔ unused st row col val).
Variable sudoku : Grid.

Lemma scan_cell_spec done st p :
  scanned sudoku done st → (∀ q, q ∈ done → on_board q) → on_board p → p ∉ done →
  match scan_cell clashes st p.1 p.2 with
  | Scanned st' => scanned sudoku (done ++ [p]) st'
  | DuplicateClue => duplicate_clue sudoku
  | ScanIndexError => cell_at sudoku p = None
  end.
Proof.
  intros [Hb Hcells Hemp Htr] Hdone Hon Hp. unfold scan_cell. rewrite Hb.
  fold (cell_at sudoku p). destruct (cell_at sudoku p) as [v|] eqn:Hv; [|done].
  assert (∀ q, q ∈ done ++ [p] → is_Some (cell_at sudoku q)) as Hcells'.
  { intros q [Hq | ->%list_elem_of_singleton]%elem_of_app; [by apply Hcells|].
    by rewrite Hv. }
  case_bool_decide as H0.
  - subst v. split; simpl; try done.
    + rewrite Hemp, filter_app, filter_cons_True by done. by destruct p.
    + eapply (Tracks_proper _ _ _ _ _ _ _ _ (λ _, eq_refl) (λ _, eq_refl) (λ _, eq_refl));
        [|exact Htr].
      intros q w. unfold filled. rewrite elem_of_app, list_elem_of_singleton.
      split; [naive_solver|]. intros ([Hq | ->] & Hw & Hw0); [done|congruence].
  - pose proof (clashes_spec st p.1 p.2 v) as [Hsame Hun].
    destruct (clashes st p.1 p.2 v) as [clash stc]; simpl in *.
    pose proof Hsame as [Sb Se Sr Sc Sx].
    destruct clash.
    + assert (¬ unused st p.1 p.2 v) as Hnot by (intros ?%Hun; done).
      destruct Htr as [Hr Hc Hx _ _ _].
      assert (∀ q, q ∈ done → cell_at sudoku q = Some v → p ≠ q) as Hne
        by (intros q Hq _ ->; done).
      unfold unused in Hnot.
      destruct (decide (v ∈ dd_peek (row_to_seen_vals st) p.1)) as [(q & Hk & Hq & Hqv & _)%Hr|Hnr];
        [exists p, q, v; split_and!; eauto|].
      destruct (decide (v ∈ dd_peek (col_to_seen_vals st) p.2)) as [(q & Hk & Hq & Hqv & _)%Hc|Hnc];
        [exists p, q, v; split_and!; eauto|].
      destruct (decide (v ∈ dd_peek (grid_to_cells st) (sub_grid_no p.1 p.2)))
        as [(q & Hk & Hq & Hqv & _)%Hx|Hnx];
        [exists p, q, v; split_and!; eauto|].
      destruct Hnot. done.
    + assert (unused st p.1 p.2 v) as (Hur & Huc & Hux) by (by apply Hun).
      split; simpl; try done.
      * by rewrite <- Sb.
      * rewrite <- Se, Hemp, filter_app, filter_cons_False, filter_nil, app_nil_r; [done|].
        congruence.
      * apply (Tracks_add _ _ _ (filled (.∈ done) sudoku)).
        -- intros q w. unfold filled. rewrite elem_of_app, list_elem_of_singleton.
           split; [|naive_solver].
           intros ([Hq | ->] & Hw & Hw0); [by left|right; split; congruence].
        -- by rewrite <- Sr.
        -- by rewrite <- Sc.
        -- by rewrite <- Sx.
        -- by apply (Tracks_proper _ _ _ _ _ _ _ _ Sr Sc Sx (λ _ _, reflexivity _)).
Qed.

Lemma scan_cols_spec row cols : ∀ done st,
  scanned sudoku done st → (∀ q, q ∈ done → on_board q) →
  0 ≤ row < 9 → Forall (λ c, 0 ≤ c < 9) cols → NoDup cols →
  (∀ c, c ∈ cols → (row, c) ∉ done) →
  match scan_cols clashes row cols st with
  | Scanned st' => scanned sudoku (done ++ ((λ c, (row, c)) <$> cols)) st'
  | DuplicateClue => duplicate_clue sudoku
  | ScanIndexError => ∃ p, on_board p ∧ cell_at sudoku p = None
  end.
Proof.
  induction cols as [|c cols IH]; intros done st Hsc Hdone Hrow Hcols Hnd Hfresh;
    cbn [scan_cols]; csimpl.
  { by rewrite app_nil_r. }
  apply Forall_cons in Hcols as [Hc Hcols]. apply NoDup_cons in Hnd as [Hc' Hnd].
  pose proof (scan_cell_spec done st (row, c) Hsc Hdone) as Hcell. simpl in Hcell.
  destruct (scan_cell clashes st row c) as [st'| |].
  - specialize (IH (done ++ [(row, c)]) st'). rewrite <- app_assoc in IH. apply IH; try done.
    + apply Hcell; [done|]. apply Hfresh. set_solver.
    + intros q [Hq | ->%list_elem_of_singleton]%elem_of_app; [by apply Hdone|done].
    + intros c2 Hc2 [Hq | Hq%list_elem_of_singleton]%elem_of_app.
      * apply (Hfresh c2); [set_solver|done].
      * congruence.
  - apply Hcell; [done|]. apply Hfresh. set_solver.
  - exists (row, c). split; [done|]. apply Hcell; [done|]. apply Hfresh. set_solver.
Qed.

Lemma scan_rows_spec rows : ∀ done st,
  scanned sudoku done st → (∀ q, q ∈ done → on_board q) →
  Forall (λ r, 0 ≤ r < 9) rows → NoDup rows →
  (∀ r c, r ∈ rows → (r, c) ∉ done) →
  match scan_rows clashes rows st with
  | Scanned st' =>
    scanned sudoku (done ++ (rows ≫= λ r, (λ c, (r, c)) <$> range9)) st'
  | DuplicateClue => duplicate_clue sudoku
  | ScanIndexError => ∃ p, on_board p ∧ cell_at sudoku p = None
  end.
Proof.
  induction rows as [|r rows IH]; intros done st Hsc Hdone Hrows Hnd Hfresh;
    cbn [scan_rows].
  { change ([] ≫= _) with (@nil (Z * Z)). by rewrite app_nil_r. }
  rewrite bind_cons.
  apply Forall_cons in Hrows as [Hr Hrows]. apply NoDup_cons in Hnd as [Hr' Hnd].
  pose proof (scan_cols_spec r range9 done st Hsc Hdone Hr) as Hcols.
  destruct (scan_cols clashes r range9 st) as [st'| |].
  - specialize (IH (done ++ ((λ c, (r, c)) <$> range9)) st').
    rewrite <- app_assoc in IH. apply IH; try done.
    + apply Hcols; [|apply NoDup_seqZ|by intros; apply Hfresh; left].
      apply Forall_forall. by intros c Hc%elem_of_seqZ.
    + intros q [Hq | (c & -> & Hc%elem_of_seqZ)%list_elem_of_fmap]%elem_of_app;
        [by apply Hdone|]. split; simpl; lia.
    + intros r2 c2 Hr2 [Hq | (c & [= -> ->] & Hc)%list_elem_of_fmap]%elem_of_app.
      * apply (Hfresh r2 c2); [by right|done].
      * done.
  - apply Hcols; [|apply NoDup_seqZ|by intros; apply Hfresh; left].
    apply Forall_forall. by intros c Hc%elem_of_seqZ.
  - apply Hcols; [|apply NoDup_seqZ|by intros; apply Hfresh; left].
    apply Forall_forall. by intros c Hc%elem_of_seqZ.
Qed.

Lemma scanned_fresh : scanned sudoku [] (fresh_state sudoku).
Proof.
  split; simpl; try done; [set_solver|].
  assert (∀ p v, (λ _ _, False) p v ↔ filled (.∈ []) sudoku p v) as HF.
  { intros p v. unfold filled. set_solver. }
  split; try (eapply Seen_proper; [done|exact HF|apply Seen_empty]);
    intros p q v _ [[]%elem_of_nil _].
Qed.

Lemma NoDup_all_cells : NoDup all_cells.
Proof. apply (bool_decide_unpack _). by vm_compute. Qed.

Lemma scan_rows_ok : scan_ok sudoku (scan_rows clashes range9 (fresh_state sudoku)).
Proof.
  pose proof (scan_rows_spec range9 [] (fresh_state sudoku) scanned_fresh) as H.
  unfold scan_ok. destruct (scan_rows clashes range9 (fresh_state sudoku)) as [st| |].
  - destruct H as [Hb Hcells Hemp Htr].
    { set_solver. }
    { apply Forall_forall. by intros c Hc%elem_of_seqZ. }
    { apply NoDup_seqZ. }
    { set_solver. }
    fold all_cells in *. simpl in *.
    assert (Tracks (row_to_seen_vals st) (col_to_seen_vals st) (grid_to_cells st)
              (filled on_board sudoku)) as Htr'.
    { eapply (Tracks_proper _ _ _ _ _ _ _ _ (λ _, eq_refl) (λ _, eq_refl) (λ _, eq_refl));
        [|exact Htr]. intros p v. unfold filled. by rewrite on_board_all_cells. }
    split_and!; try done.
    + split.
      * intros p Hp. rewrite Hb. by apply Hcells, on_board_all_cells.
      * split.
        -- rewrite Hemp. apply NoDup_filter, NoDup_all_cells.
        -- intros p. rewrite Hemp, Hb, list_elem_of_filter, on_board_all_cells. tauto.
      * by rewrite Hb.
    + intros (p & q & v & Hp & Hq & Hne & Hv0 & Hpv & Hqv & Hs).
      apply Hne. by apply (Tracks_NoClash _ _ _ _ Htr' p q v).
  - apply H; [set_solver| |apply NoDup_seqZ|set_solver].
    apply Forall_forall. by intros c Hc%elem_of_seqZ.
  - apply H; [set_solver| |apply NoDup_seqZ|set_solver].
    apply Forall_forall. by intros c Hc%elem_of_seqZ.
Qed.
End scan_facts.

(** ** The solver as a whole (final solution) *)

Ltac by_computation := apply (bool_decide_unpack _); vm_compute; exact I.

Lemma final_scan_ok sudoku : scan_ok sudoku (Final.scan_rows range9 (fresh_state sudoku)).
Proof. apply scan_rows_ok, clue_clashes_spec. Qed.

Lemma approach1_scan_ok sudoku : scan_ok sudoku (Approach1.SudokuState sudoku).
Proof. apply scan_rows_ok, is_unsolvable_spec. Qed.

Lemma digits_only_cell g p v :
  digits_only g → on_board p → cell_at g p = Some v → 0 ≤ v ≤ 9.
Proof.
  intros Hg [Hr Hc]. unfold cell_at. rewrite cell_nonneg by lia.
  destruct (g !! Z.to_nat p.1) as [row|] eqn:Hrow; simpl; [|done]. intros Hv.
  unfold digits_only in Hg. rewrite Forall_lookup in Hg.
  specialize (Hg _ _ Hrow). rewrite Forall_lookup in Hg. by apply (Hg _ _ Hv).
Qed.

Lemma completes_keeps g g' : completes g g' → keeps_clues g g'.
Proof.
  intros [_ Hc] p v Hp Hv Hv0. specialize (Hc p v Hp Hv). by rewrite decide_False in Hc.
Qed.

Lemma completed_valid g st :
  wf_grid g → digits_only g → Inv st → completes g (board st) →
  valid_solution (board st).
Proof.
  intros Hwf Hdig [_ _ Htr] [Hsh Hc]. apply NoClash_valid.
  - unfold wf_grid. by rewrite Hsh.
  - by eapply Tracks_NoClash.
  - intros p Hp. destruct (wf_grid_cells g p Hwf Hp) as [v Hv].
    specialize (Hc p v Hp Hv). case_decide as H0; [done|].
    exists v. split; [|done]. pose proof (digits_only_cell g p v Hdig Hp Hv). lia.
Qed.

Lemma keeps_cluesb_true g out : keeps_cluesb g out = true → keeps_clues g out.
Proof.
  unfold keeps_cluesb. rewrite forallb_forall.
  intros H p v Hp%on_board_all_cells%list_elem_of_In Hv Hv0.
  specialize (H p Hp). rewrite Hv in H. apply bool_decide_eq_true in H as [?|?]; done.
Qed.

Lemma sudoku_solver_cases g :
  wf_grid g →
  (duplicate_clue g ∧ Final.sudoku_solver g = Returned invalid_sudoku g) ∨
  (¬ duplicate_clue g ∧ (∀ sol, valid_solution sol → keeps_clues g sol → False) ∧
   Final.sudoku_solver g = Returned invalid_sudoku g) ∨
  (¬ duplicate_clue g ∧ ∃ st,
     Final.sudoku_solver g = Returned (board st) (board st) ∧
     Inv st ∧ empty_cells st = [] ∧ completes g (board st)).
Proof.
  intros Hwf. pose proof (final_scan_ok g) as Hscan.
  unfold Final.sudoku_solver, Final.solve_sudoku.
  destruct (Final.scan_rows range9 (fresh_state g)) as [st| |]; simpl in Hscan.
  - destruct Hscan as (HInv & Hb & _ & Hnd). right.
    pose proof (depth_first_search_ok (length (empty_cells st)) st HInv (le_n _)) as Hdfs.
    destruct (Final.depth_first_search (length (empty_cells st)) st)
      as [| |[out|] st' log]; simpl in Hdfs; try done.
    + destruct Hdfs as (-> & HInv' & Hnil & Hcomp & _). right. split; [done|].
      exists st'. by rewrite <- Hb.
    + destruct Hdfs as ([Sb _ _ _ _] & _ & Hnone). left. rewrite <- Sb, Hb.
      split_and!; try done. by rewrite <- Hb.
  - by left.
  - destruct Hscan as (p & Hp & Hnone).
    destruct (wf_grid_cells g p Hwf Hp) as [v Hv]. congruence.
Qed.

(** C1 (soundness): for a 9x9 grid of entries in [0, 9], a grid returned by
    [sudoku_solver] other than the all -1 grid holds each digit 1-9 exactly
    once in every row, column and box, and keeps every non-zero entry of the
    input. *)
Theorem solver_soundness (g out after : Grid) :
  wf_grid g → digits_only g →
  Final.sudoku_solver g = Returned out after → out ≠ invalid_sudoku →
  valid_solution out ∧ keeps_clues g out.
Proof.
  intros Hwf Hdig Hret Hout.
  destruct (sudoku_solver_cases g Hwf) as [[_ H] | [(_ & _ & H) | (_ & st & H & HInv & _ & Hc)]];
    rewrite H in Hret; simplify_eq.
  split; [by apply (completed_valid g)|by apply completes_keeps].
Qed.

Lemma solver_soundness_witness :
  valid_solution easy_solved ∧ keeps_clues easy easy_solved.
Proof.
  apply (solver_soundness easy easy_solved easy_solved).
  - reflexivity.
  - by_computation.
  - vm_compute. reflexivity.
  - by_computation.
Defined.

(** C2 (completeness): for a 9x9 grid that some solved grid extends,
    [sudoku_solver] returns a solved grid that keeps every clue, and not
    the all -1 grid. *)
Theorem solver_completeness (g : Grid) :
  wf_grid g → (∃ sol, valid_solution sol ∧ keeps_clues g sol) →
  ∃ out after, Final.sudoku_solver g = Returned out after ∧
    valid_solution out ∧ keeps_clues g out ∧ out ≠ invalid_sudoku.
Proof.
  intros Hwf (sol & Hsol & Hk).
  destruct (sudoku_solver_cases g Hwf)
    as [[Hdup _] | [(_ & Hnone & _) | (_ & st & H & HInv & _ & Hc)]].
  - destruct Hdup as (p & q & v & Hp & Hq & Hne & Hv0 & Hpv & Hqv & Hs).
    destruct Hne. apply (valid_NoClash sol Hsol p q v Hs); split_and!; eauto.
  - destruct (Hnone sol Hsol Hk).
  - assert (digits_only_on : ∀ p v, on_board p → cell_at g p = Some v → 0 ≤ v ≤ 9).
    { intros p v Hp Hv. destruct (decide (v = 0)) as [->|Hv0]; [lia|].
      destruct (valid_digit sol p Hsol Hp) as (d & Hd & Hpd).
      rewrite (Hk p v Hp Hv Hv0) in Hpd. simplify_eq. lia. }
    assert (valid_solution (board st)) as Hvalid.
    { destruct HInv as [_ _ Htr]. destruct Hc as [Hsh Hc]. apply NoClash_valid.
      - unfold wf_grid. by rewrite Hsh.
      - by eapply Tracks_NoClash.
      - intros p Hp. destruct (wf_grid_cells g p Hwf Hp) as [v Hv].
        specialize (Hc p v Hp Hv). case_decide as H0; [done|].
        exists v. split; [|done]. pose proof (digits_only_on p v Hp Hv). lia. }
    exists (board st), (board st). split_and!; try done.
    + by apply completes_keeps.
    + intros Heq. destruct (valid_digit (board st) (0, 0) Hvalid) as (d & Hd & Hpd);
        [by_computation|]. rewrite Heq in Hpd. vm_compute in Hpd. simplify_eq. lia.
Qed.

Lemma solver_completeness_witness :
  ∃ out after, Final.sudoku_solver easy = Returned out after ∧
    valid_solution out ∧ keeps_clues easy out ∧ out ≠ invalid_sudoku.
Proof.
  apply (solver_completeness easy).
  - reflexivity.
  - exists easy_solved. split; [by_computation|].
    apply keeps_cluesb_true. vm_compute. reflexivity.
Defined.

(** C3 (rejection): for a 9x9 grid in which a non-zero value occurs twice in
    a row, a column or a box, [sudoku_solver] (of the final solution and of
    approach 1) returns the grid whose every entry is -1. *)
Theorem duplicate_clue_rejected (g : Grid) :
  wf_grid g → duplicate_clue g →
  Final.sudoku_solver g = Returned invalid_sudoku g ∧
  Approach1.sudoku_solver g = Returned invalid_sudoku g ∧
  Forall (Forall (λ v, v = -1)) invalid_sudoku ∧ wf_grid invalid_sudoku.
Proof.
  intros Hwf Hdup. split_and!.
  - destruct (sudoku_solver_cases g Hwf) as [[_ H] | [(Hn & _) | (Hn & _)]]; done.
  - pose proof (approach1_scan_ok g) as Hscan. unfold Approach1.sudoku_solver.
    destruct (Approach1.SudokuState g) as [st| |]; simpl in Hscan.
    + by destruct Hscan as (_ & _ & _ & Hn).
    + done.
    + destruct Hscan as (p & Hp & Hnone).
      destruct (wf_grid_cells g p Hwf Hp) as [v Hv]. congruence.
  - by_computation.
  - reflexivity.
Qed.

Lemma duplicate_clue_rejected_witness :
  Final.sudoku_solver two_fives = Returned invalid_sudoku two_fives ∧
  Approach1.sudoku_solver two_fives = Returned invalid_sudoku two_fives ∧
  Forall (Forall (λ v, v = -1)) invalid_sudoku ∧ wf_grid invalid_sudoku.
Proof.
  apply (duplicate_clue_rejected two_fives).
  - reflexivity.
  - exists (0, 0), (0, 1), 5. split_and!; by_computation.
Defined.

(** C9 (nothing is left behind on failure): when [sudoku_solver] returns
    the all -1 grid for a 9x9 grid, the caller's grid holds its original
    values. *)
Theorem failure_restores_input (g out after : Grid) :
  wf_grid g → Final.sudoku_solver g = Returned out after →
  out = invalid_sudoku → after = g.
Proof.
  intros Hwf Hret ->.
  destruct (sudoku_solver_cases g Hwf) as [[_ H] | [(_ & _ & H) | (Hn & st & H & HInv & _ & Hc)]];
    rewrite H in Hret; [by simplify_eq..|].
  assert (board st = invalid_sudoku) as H1 by congruence.
  destruct Hn. destruct Hc as [_ Hc].
  assert (∀ p, on_board p → cell_at g p = Some (-1)) as Hall.
  { intros p Hp. destruct (wf_grid_cells g p Hwf Hp) as [v Hv]. rewrite Hv.
    specialize (Hc p v Hp Hv).
    assert (cell_at invalid_sudoku p = Some (-1)) as Hm.
    { apply on_board_all_cells in Hp. clear Hv Hc. revert p Hp. apply Forall_forall.
      by_computation. }
    rewrite H1, Hm in Hc. case_decide; [destruct Hc as (d & Hd & ?); simplify_eq; lia|done]. }
  exists (0, 0), (0, 1), (-1). split_and!; try by_computation; apply Hall; by_computation.
Qed.

Lemma failure_restores_input_witness :
  ∃ after, Final.sudoku_solver dead_end = Returned invalid_sudoku after ∧
           after = dead_end.
Proof.
  exists dead_end. split; [vm_compute; reflexivity|].
  apply (failure_restores_input dead_end invalid_sudoku dead_end).
  - reflexivity.
  - vm_compute. reflexivity.
  - reflexivity.
Defined.

(** C7 (invariant I2): in the state the scan of a grid without duplicate
    clues leaves, and after every placement and every undo of the search
    from it, [empty_cells] holds exactly the cells whose value is 0, each
    once. *)
Theorem empty_cells_invariant (sudoku : Grid) (st : State) :
  Final.scan_rows range9 (fresh_state sudoku) = Scanned st →
  I2 st ∧
  ∀ depth goal st' log,
    Final.depth_first_search depth st = Finished goal st' log →
    Forall I2 log ∧ I2 st'.
Proof.
  intros Hscan. pose proof (final_scan_ok sudoku) as Hok. rewrite Hscan in Hok.
  destruct Hok as (HInv & _). split; [apply HInv|].
  intros depth goal st' log Hdfs.
  pose proof (depth_first_search_partial depth st HInv) as Hs. rewrite Hdfs in Hs.
  destruct goal as [g|]; simpl in Hs.
  - destruct Hs as (_ & HInv' & _ & _ & Hlog). split; [done|apply HInv'].
  - destruct Hs as (Hsame & Hlog & _). split; [done|].
    apply (same_state_I2 st); [done|apply HInv].
Qed.

Lemma empty_cells_invariant_witness :
  I2 (scanned_state easy) ∧
  ∀ depth goal st' log,
    Final.depth_first_search depth (scanned_state easy) = Finished goal st' log →
    Forall I2 log ∧ I2 st'.
Proof.
  apply (empty_cells_invariant easy). vm_compute. reflexivity.
Defined.

(** C8 (termination): for a 9x9 grid the solver returns; the number of
    empty cells the scan records is the number of zero cells, at most 81;
    and the search finishes with at most that many nested recursive calls,
    with the same result however many more are allowed. *)
Theorem search_depth_bounded (g : Grid) :
  wf_grid g →
  (∃ out after, Final.sudoku_solver g = Returned out after) ∧
  ∀ st, Final.scan_rows range9 (fresh_state g) = Scanned st →
    empty_cells st = filter (λ p, cell_at g p = Some 0) all_cells ∧
    (length (empty_cells st) ≤ 81)%nat ∧
    ∀ depth, (length (empty_cells st) ≤ depth)%nat →
      Final.depth_first_search depth st ≠ DepthExceeded ∧
      Final.depth_first_search depth st =
        Final.depth_first_search (length (empty_cells st)) st.
Proof.
  intros Hwf. split.
  - destruct (sudoku_solver_cases g Hwf) as [[_ H] | [(_ & _ & H) | (_ & st & H & _)]];
      rewrite H; eauto.
  - intros st Hscan. pose proof (final_scan_ok g) as Hok. rewrite Hscan in Hok.
    destruct Hok as (HInv & _ & Hemp & _). split; [done|]. split.
    + rewrite Hemp. etrans; [apply length_filter|]. by vm_compute.
    + intros depth Hdepth.
      pose proof (depth_first_search_ok _ st HInv (le_n _)) as Hmin.
      assert (Final.depth_first_search (length (empty_cells st)) st ≠ DepthExceeded) as Hne
        by (intros Heq; by rewrite Heq in Hmin).
      replace depth with (length (empty_cells st) + (depth - length (empty_cells st)))%nat
        by lia.
      rewrite depth_first_search_mono by done. done.
Qed.

Lemma search_depth_bounded_witness :
  ∃ out after, Final.sudoku_solver easy = Returned out after.
Proof.
  apply (search_depth_bounded easy). reflexivity.
Defined.

(** ** The legality test *)

(** C6 (legality test): the test of the final solution is true, and
    [is_unsolvable] of approach 1 is false, exactly when the digit is in
    none of [row_used[row]], [col_used[col]] and the used-set of the box
    [(row // 3, col // 3)]. *)
Theorem legality_test (st : State) (row col digit : Z) :
  ((Final.digit_fits st row col digit).1 = true ↔
     (digit ∉ dd_peek (row_to_seen_vals st) row) ∧
     (digit ∉ dd_peek (col_to_seen_vals st) col) ∧
     (digit ∉ dd_peek (grid_to_cells st) (row `div` 3, col `div` 3))) ∧
  ((Approach1.is_unsolvable st row col digit).1 = false ↔
     (digit ∉ dd_peek (row_to_seen_vals st) row) ∧
     (digit ∉ dd_peek (col_to_seen_vals st) col) ∧
     (digit ∉ dd_peek (grid_to_cells st) (row `div` 3, col `div` 3))).
Proof.
  split; [apply digit_fits_spec|apply is_unsolvable_spec].
Qed.

Lemma off_board_unseen_same st st' :
  same_state st st' → off_board_unseen st → off_board_unseen st'.
Proof.
  intros [_ _ Sr Sc Sx] (Hr & Hc & Hx).
  split_and!; intros k Hk; rewrite <- ?Sr, <- ?Sc, <- ?Sx; eauto.
Qed.

Lemma Inv_off_board_unseen st : Inv st → off_board_unseen st.
Proof.
  intros [_ _ [Hr Hc Hx _ _ _]]. split_and!; intros k Hk; apply leibniz_equiv;
    apply elem_of_equiv_empty; intros v.
  - intros (p & <- & [Hp1 Hp2] & _)%Hr. by apply Hk.
  - intros (p & <- & [Hp1 Hp2] & _)%Hc. by apply Hk.
  - intros (p & <- & [Hp1 Hp2] & _)%Hx. apply Hk. unfold box_key, sub_grid_no. simpl.
    split; split;
      try (apply Z.div_pos; lia); apply Z.div_lt_upper_bound; lia.
Qed.

Lemma sub_grid_no_on_board row col :
  0 ≤ (sub_grid_no row col).1 < 3 ∧ 0 ≤ (sub_grid_no row col).2 < 3 ↔
  0 ≤ row < 9 ∧ 0 ≤ col < 9.
Proof.
  unfold sub_grid_no. simpl.
  pose proof (Z.div_mod row 3). pose proof (Z.mod_pos_bound row 3).
  pose proof (Z.div_mod col 3). pose proof (Z.mod_pos_bound col 3). lia.
Qed.

(** ** The legality test with any integers *)

Lemma exact_below_float_limit i :
  Z.abs i < Interface.exact_limit → Z.abs i < Interface.float_limit.
Proof.
  assert (Interface.exact_limit < Interface.float_limit) by (by vm_compute). lia.
Qed.

Lemma floordiv_exact q i :
  Z.abs i < Interface.exact_limit →
  Interface.floordiv_n_sq_root q i = Interface.Ok (i `div` 3).
Proof. intros Hi. unfold Interface.floordiv_n_sq_root. by rewrite bool_decide_eq_true_2. Qed.

Lemma floordiv_raises q i :
  Interface.floordiv_n_sq_root q i = Interface.Raise Interface.OverflowError ↔
  ¬ Z.abs i < Interface.float_limit.
Proof.
  unfold Interface.floordiv_n_sq_root.
  pose proof (exact_below_float_limit i).
  repeat case_bool_decide; naive_solver.
Qed.

(** Below [2^53] the key is the one of [Approach1._grid_key]. *)
Lemma grid_key_exact q row col :
  Z.abs row < Interface.exact_limit → Z.abs col < Interface.exact_limit →
  Interface._grid_key q row col = Interface.Ok (Approach1._grid_key row col).
Proof.
  intros Hrow Hcol. unfold Interface._grid_key. by rewrite !floordiv_exact.
Qed.

Lemma grid_key_raises q row col :
  Interface._grid_key q row col = Interface.Raise Interface.OverflowError ↔
  ¬ (Z.abs row < Interface.float_limit ∧ Z.abs col < Interface.float_limit).
Proof.
  unfold Interface._grid_key.
  pose proof (floordiv_raises q row) as Hr. pose proof (floordiv_raises q col) as Hc.
  destruct (Interface.floordiv_n_sq_root q row) as [r|[]],
           (Interface.floordiv_n_sq_root q col) as [c|[]]; naive_solver.
Qed.

Lemma interface_is_unsolvable_same q st row col val :
  same_state st (Interface.is_unsolvable q st row col val).2.
Proof.
  unfold Interface.is_unsolvable, dd_contains. simpl.
  repeat (case_bool_decide; simpl); try (split; simpl; intros; by rewrite ?dd_peek_touch).
  destruct (Interface._grid_key q row col) as [key|e]; simpl;
    split; simpl; intros; by rewrite ?dd_peek_touch.
Qed.

Lemma interface_is_unsolvable_raises q st row col val :
  (Interface.is_unsolvable q st row col val).1 = Interface.Raise Interface.OverflowError ↔
  (val ∉ dd_peek (col_to_seen_vals st) col) ∧
  (val ∉ dd_peek (row_to_seen_vals st) row) ∧
  ¬ (Z.abs row < Interface.float_limit ∧ Z.abs col < Interface.float_limit).
Proof.
  pose proof (grid_key_raises q row col) as Hkey.
  unfold Interface.is_unsolvable, dd_contains. simpl.
  repeat (case_bool_decide; simpl); try naive_solver.
  destruct (Interface._grid_key q row col) as [key|[]]; simpl; naive_solver.
Qed.

(** Below [2^53] the test is the one of [Approach1]. *)
Lemma interface_is_unsolvable_exact q st row col val :
  Z.abs row < Interface.exact_limit → Z.abs col < Interface.exact_limit →
  Interface.is_unsolvable q st row col val =
  (Interface.Ok (Approach1.is_unsolvable st row col val).1,
   (Approach1.is_unsolvable st row col val).2).
Proof.
  intros Hrow Hcol. unfold Interface.is_unsolvable, Approach1.is_unsolvable.
  rewrite grid_key_exact by done. unfold dd_contains. simpl.
  by repeat (case_bool_decide; simpl).
Qed.

Lemma reachable_off_board_unseen q st : reachable_on_board q st → off_board_unseen st.
Proof.
  induction 1 as [sudoku st Hinit | st row col val _ IH
                 | st row col val st' _ IH Hrow Hcol Hplace
                 | st row col val _ IH Hrow Hcol].
  - pose proof (approach1_scan_ok sudoku) as Hok. rewrite Hinit in Hok.
    apply Inv_off_board_unseen, Hok.
  - apply (off_board_unseen_same st); [apply interface_is_unsolvable_same|done].
  - unfold Approach1.place_digit in Hplace.
    destruct (set_cell (board st) row col val) as [g|]; simpl in Hplace; [|done].
    destruct (empty_cells st); [done|]. injection Hplace as <-.
    destruct IH as (Hr & Hc & Hx). split_and!; simpl; intros k Hk; rewrite dd_peek_add.
    + rewrite decide_False by (intros ->; done). by apply Hr.
    + rewrite decide_False by (intros ->; done). by apply Hc.
    + rewrite decide_False; [by apply Hx|]. intros <-. by apply Hk, sub_grid_no_on_board.
  - destruct IH as (Hr & Hc & Hx).
    split_and!; simpl; intros k Hk; rewrite dd_peek_discard.
    + rewrite decide_False by (intros ->; done). by apply Hr.
    + rewrite decide_False by (intros ->; done). by apply Hc.
    + rewrite decide_False; [by apply Hx|]. intros <-. by apply Hk, sub_grid_no_on_board.
Qed.

(** C10 (the legality test has no bounds check), as the code has it.  For
    any integers [is_unsolvable] looks the column and the row up without a
    check, creating at most keys with empty sets, and raises nothing but
    [OverflowError]: that when the digit is in neither used-set and [row]
    or [col] is too large for a float, so that the key of the box cannot be
    computed; with both in the range of floats it answers.  Below [2^53]
    the answer is "legal" exactly when the digit is in none of the three
    used-sets.  On a state that came from the constructor by tests and by
    placements and reversions at cells of the board, the used-set of a row
    or of a column outside 0..8 is empty, and below [2^53]: with both row
    and column outside 0..8 the placement is reported legal, and with only
    one of them outside 0..8 the used-set of the other decides. *)
Theorem is_unsolvable_any_integers (rounded_quotient : Z → Z)
    (st : State) (row col digit : Z) :
  same_state st (Interface.is_unsolvable rounded_quotient st row col digit).2 ∧
  ((Interface.is_unsolvable rounded_quotient st row col digit).1
     = Interface.Raise Interface.OverflowError ↔
   (digit ∉ dd_peek (col_to_seen_vals st) col) ∧
   (digit ∉ dd_peek (row_to_seen_vals st) row) ∧
   ¬ (Z.abs row < Interface.float_limit ∧ Z.abs col < Interface.float_limit)) ∧
  (Z.abs row < Interface.float_limit → Z.abs col < Interface.float_limit →
   ∃ answer, (Interface.is_unsolvable rounded_quotient st row col digit).1
               = Interface.Ok answer) ∧
  (Z.abs row < Interface.exact_limit → Z.abs col < Interface.exact_limit →
   ((Interface.is_unsolvable rounded_quotient st row col digit).1
      = Interface.Ok false ↔ unused st row col digit)) ∧
  (reachable_on_board rounded_quotient st →
   reachable_on_board rounded_quotient
     (Interface.is_unsolvable rounded_quotient st row col digit).2 ∧
   (¬ 0 ≤ row < 9 → dd_peek (row_to_seen_vals st) row = ∅) ∧
   (¬ 0 ≤ col < 9 → dd_peek (col_to_seen_vals st) col = ∅) ∧
   (Z.abs row < Interface.exact_limit → Z.abs col < Interface.exact_limit →
    (¬ 0 ≤ row < 9 → ¬ 0 ≤ col < 9 →
       (Interface.is_unsolvable rounded_quotient st row col digit).1
         = Interface.Ok false) ∧
    (¬ 0 ≤ row < 9 →
       ((Interface.is_unsolvable rounded_quotient st row col digit).1
          = Interface.Ok false ↔
        digit ∉ dd_peek (col_to_seen_vals st) col)) ∧
    (¬ 0 ≤ col < 9 →
       ((Interface.is_unsolvable rounded_quotient st row col digit).1
          = Interface.Ok false ↔
        digit ∉ dd_peek (row_to_seen_vals st) row)))).
Proof.
  pose proof (interface_is_unsolvable_raises rounded_quotient st row col digit) as Hraise.
  assert (Z.abs row < Interface.exact_limit → Z.abs col < Interface.exact_limit →
          ((Interface.is_unsolvable rounded_quotient st row col digit).1
             = Interface.Ok false ↔ unused st row col digit)) as Hexact.
  { intros Hrow Hcol. rewrite interface_is_unsolvable_exact by done. simpl.
    rewrite <- (proj2 (is_unsolvable_spec st row col digit)).
    split; [by intros [= ->]|by intros ->]. }
  split_and!.
  - apply interface_is_unsolvable_same.
  - done.
  - intros Hrow Hcol.
    destruct (Interface.is_unsolvable rounded_quotient st row col digit).1 as [b|[]];
      [by exists b|]. by destruct (proj1 Hraise eq_refl) as (_ & _ & []).
  - done.
  - intros Hreach.
    pose proof (reachable_off_board_unseen _ st Hreach) as (Hr & Hc & Hx).
    assert (¬ (0 ≤ row < 9 ∧ 0 ≤ col < 9) →
            dd_peek (grid_to_cells st) (sub_grid_no row col) = ∅) as Hbox.
    { intros Hoff. apply Hx. by rewrite sub_grid_no_on_board. }
    split_and!.
    + by constructor.
    + apply Hr.
    + apply Hc.
    + intros Hrow Hcol. specialize (Hexact Hrow Hcol). split_and!.
      * intros Hr9 Hc9. apply Hexact. unfold unused.
        rewrite Hr, Hc, Hbox by tauto. set_solver.
      * intros Hr9. rewrite Hexact. unfold unused. rewrite Hr, Hbox by tauto. set_solver.
      * intros Hc9. rewrite Hexact. unfold unused. rewrite Hc, Hbox by tauto. set_solver.
Qed.

Lemma is_unsolvable_any_integers_witness :
  (Interface.is_unsolvable (λ i, i `div` 3) (scanned_state easy) 9 (-1) 5).1
    = Interface.Ok false.
Proof.
  assert (reachable_on_board (λ i, i `div` 3) (scanned_state easy)) as Hreach
    by (apply (reach_init _ easy); vm_compute; reflexivity).
  pose proof (is_unsolvable_any_integers (λ i, i `div` 3) (scanned_state easy) 9 (-1) 5)
    as (_ & _ & _ & _ & H).
  destruct (H Hreach) as (_ & _ & _ & H').
  apply H'; try lia; by vm_compute.
Defined.

(** C10 as stated fails in three ways.  An integer too large for a float
    makes the test raise: in [easy], 1 is neither in column [10^400] nor in
    row [10^400], and the key of the box cannot be computed.  A
    cell with only its row outside 0..8 need not be legal: column 0 of
    [easy] holds 5.  And used-sets outside 0..8 need not be empty:
    [place_digit(-1, -1, 9)] writes the last cell of the last row and
    records 9 under row -1, column -1 and box (-1, -1), after which the
    test at (-1, -1) rejects 9. *)
Lemma is_unsolvable_counterexample :
  (∀ rounded_quotient,
     (Interface.is_unsolvable rounded_quotient (scanned_state easy)
        (10 ^ 400) (10 ^ 400) 1).1 = Interface.Raise Interface.OverflowError) ∧
  (∀ rounded_quotient,
     (Interface.is_unsolvable rounded_quotient (scanned_state easy) 9 0 5).1
       = Interface.Ok true) ∧
  (∃ st, Approach1.SudokuState easy = Scanned (scanned_state easy) ∧
     Approach1.place_digit (scanned_state easy) (-1) (-1) 9 = Some st ∧
     dd_peek (row_to_seen_vals st) (-1) = {[9]} ∧
     ∀ rounded_quotient,
       (Interface.is_unsolvable rounded_quotient st (-1) (-1) 9).1
         = Interface.Ok true).
Proof.
  split_and!.
  - intros q. vm_compute. reflexivity.
  - intros q. vm_compute. reflexivity.
  - eexists. split_and!.
    + vm_compute. reflexivity.
    + vm_compute. reflexivity.
    + vm_compute. reflexivity.
    + intros q. vm_compute. reflexivity.
Qed.

(** ** Place and undo *)

(** The legality test leaves the three keys of the cell in the
    dictionaries when it answers yes. *)
Lemma digit_fits_keys st st' row col digit :
  Final.digit_fits st row col digit = (true, st') →
  is_Some (row_to_seen_vals st' !! row) ∧
  is_Some (col_to_seen_vals st' !! col) ∧
  is_Some (grid_to_cells st' !! sub_grid_no row col).
Proof.
  unfold Final.digit_fits, dd_contains. simpl.
  repeat (case_bool_decide; simpl); intros [= <-]; simpl.
  split_and!; apply dd_touch_is_Some.
Qed.

(** C4, as amended (place then undo): when [(row, col)] is the last entry of
    [empty_cells] (the cell [choose_cell] returns), holds 0, and the digit
    is in none of its three used-sets, then in the final solution placing
    and undoing gives back board, [empty_cells] and every used-set, and
    gives back the very state the legality test left; in approach 1
    [place_digit] then [revert_state] gives back [empty_cells] and every
    used-set. *)
Theorem place_undo_roundtrip (st : State) (row col digit : Z) :
  0 ≤ row < 9 → 0 ≤ col < 9 →
  last (empty_cells st) = Some (row, col) →
  cell (board st) row col = Some 0 →
  unused st row col digit →
  (∃ st1 st2,
     Final.place st row col digit = Some st1 ∧
     Final.undo st1 row col digit = Some st2 ∧
     same_state st st2) ∧
  (∀ st', Final.digit_fits st row col digit = (true, st') →
     ∃ st1, Final.place st' row col digit = Some st1 ∧
            Final.undo st1 row col digit = Some st') ∧
  (∃ st1,
     Approach1.place_digit st row col digit = Some st1 ∧
     empty_cells (Approach1.revert_state st1 row col digit) = empty_cells st ∧
     (∀ k, dd_peek (row_to_seen_vals (Approach1.revert_state st1 row col digit)) k
           = dd_peek (row_to_seen_vals st) k) ∧
     (∀ k, dd_peek (col_to_seen_vals (Approach1.revert_state st1 row col digit)) k
           = dd_peek (col_to_seen_vals st) k) ∧
     (∀ k, dd_peek (grid_to_cells (Approach1.revert_state st1 row col digit)) k
           = dd_peek (grid_to_cells st) k)).
Proof.
  intros Hrow Hcol Hlast H0 Hun.
  assert (∀ st, last (empty_cells st) = Some (row, col) →
                cell (board st) row col = Some 0 →
                ∃ st1, Final.place st row col digit = Some st1) as Hplace.
  { clear -Hrow Hcol. intros st (l & Hl)%last_Some H0.
    destruct (set_cell_is_Some (board st) row col digit 0) as [g Hg]; [lia..|done|].
    unfold Final.place. rewrite Hg. simpl. rewrite Hl, match_snoc. eauto. }
  split_and!.
  - destruct (Hplace st Hlast H0) as [st1 Hst1].
    destruct (undo_place st st1 st1 (row, col) digit) as (st2 & Hst2 & Hsame);
      [by split|done..|apply same_state_refl|]. eauto.
  - intros st' Hfits. pose proof (digit_fits_spec st row col digit) as [Hsame _].
    pose proof (digit_fits_keys st st' row col digit Hfits) as (Kr & Kc & Kx).
    rewrite Hfits in Hsame. simpl in Hsame. pose proof Hsame as [Sb Se _ _ _].
    apply (unused_same_state st st') in Hun as (Hr & Hc & Hx); [|done].
    apply last_Some in Hlast as [l Hl]. rewrite Se in Hl. rewrite Sb in H0.
    destruct (set_cell_is_Some (board st') row col digit 0) as [g Hg]; [lia..|done|].
    unfold Final.place. rewrite Hg. simpl. rewrite Hl, match_snoc, removelast_last.
    eexists. split; [done|]. unfold Final.undo. simpl.
    rewrite (set_cell_restore (board st') g row col digit 0) by (done || lia). simpl.
    rewrite !dd_discard_add by done. rewrite <- Hl. by destruct st'.
  - apply last_Some in Hlast as [l Hl].
    destruct (set_cell_is_Some (board st) row col digit 0) as [g Hg]; [lia..|done|].
    unfold Approach1.place_digit. rewrite Hg. simpl. rewrite Hl, match_snoc, removelast_last.
    eexists. split; [done|]. simpl. destruct Hun as (Hr & Hc & Hx).
    split_and!; [done|intros k; by apply dd_peek_discard_add..].
Qed.

Lemma place_undo_roundtrip_witness :
  ∃ st1 st2,
    Final.place (scanned_state two_blanks) 8 8 9 = Some st1 ∧
    Final.undo st1 8 8 9 = Some st2 ∧
    same_state (scanned_state two_blanks) st2.
Proof.
  apply (place_undo_roundtrip (scanned_state two_blanks) 8 8 9);
    try lia; try (vm_compute; reflexivity).
  unfold unused. split_and!; by_computation.
Defined.

(** C4 as stated fails: cell (0,0) of [two_blanks] is empty and takes 5,
    but it is not the last entry of [empty_cells]; [place_digit] pops the
    entry of cell (8,8) and [revert_state] pushes (0,0) a second time. *)
Lemma place_undo_counterexample :
  empty_cells (scanned_state two_blanks) = [(0, 0); (8, 8)] ∧
  Approach1.SudokuState two_blanks = Scanned (scanned_state two_blanks) ∧
  cell (board (scanned_state two_blanks)) 0 0 = Some 0 ∧
  unused (scanned_state two_blanks) 0 0 5 ∧
  (st1 ← Approach1.place_digit (scanned_state two_blanks) 0 0 5;
   Some (empty_cells (Approach1.revert_state st1 0 0 5))) = Some [(0, 0); (0, 0)] ∧
  [(0, 0); (0, 0)] ≠ empty_cells (scanned_state two_blanks).
Proof.
  split_and!; try (vm_compute; reflexivity).
  - unfold unused. split_and!; by_computation.
  - by_computation.
Qed.

(** [revert_state] of approach 1 leaves the board as [place_digit] wrote
    it. *)
Lemma revert_state_board st row col val :
  board (Approach1.revert_state st row col val) = board st.
Proof. reflexivity. Qed.

(** ** Cell selection *)

Lemma py_min_spec {A} (key : A → nat) (l : list A) :
  l ≠ [] →
  ∃ x, Approach3.py_min key l = Some x ∧ x ∈ l ∧ ∀ y, y ∈ l → (key x ≤ key y)%nat.
Proof.
  destruct l as [|x0 l]; [done|]. intros _. simpl. eexists. split; [done|].
  assert (∀ best acc,
    best ∈ acc → (∀ y, y ∈ acc → (key best ≤ key y)%nat) →
    let r := fold_left (λ best y, if (key y <? key best)%nat then y else best) l best in
    r ∈ acc ++ l ∧ ∀ y, y ∈ acc ++ l → (key r ≤ key y)%nat) as Hfold.
  { induction l as [|z l IH]; intros best acc Hin Hmin; simpl.
    - by rewrite app_nil_r.
    - replace (acc ++ z :: l) with ((acc ++ [z]) ++ l) by (by rewrite <- app_assoc).
      apply IH.
      + case_match; set_solver.
      + intros y Hy. destruct (key z <? key best)%nat eqn:Hlt;
          [apply Nat.ltb_lt in Hlt|apply Nat.ltb_ge in Hlt];
          apply elem_of_app in Hy as [Hy | ->%list_elem_of_singleton];
          try specialize (Hmin y Hy); lia. }
  apply (Hfold x0 [x0]); [set_solver|]. intros y ->%list_elem_of_singleton. done.
Qed.

(** C5, as amended (cell selection): on a state with an empty cell the final
    solution and approach 1 pick the last entry of [empty_cells] - under I2
    a cell of the board holding 0 - and look at [empty_cells] only; approach
    3 picks an entry of [empty_cells] whose column has the fewest missing
    rows recorded. *)
Theorem choose_cell_picks (st : State) (st3 : Approach3.SudokuState) :
  (empty_cells st ≠ [] →
   ∃ p, Final.choose_cell st = Some p ∧ Approach1.choose_cell st = Some p ∧
        last (empty_cells st) = Some p ∧
        (I2 st → on_board p ∧ cell_at (board st) p = Some 0) ∧
        (∀ st', empty_cells st' = empty_cells st → Final.choose_cell st' = Some p)) ∧
  (Approach3.empty_cells st3 ≠ [] →
   ∃ p, Approach3.choose_cell st3 = Some p ∧ p ∈ Approach3.empty_cells st3 ∧
        ∀ q, q ∈ Approach3.empty_cells st3 →
          (size (dd_peek (Approach3.col_to_missing_rows st3) p.2)
           ≤ size (dd_peek (Approach3.col_to_missing_rows st3) q.2))%nat).
Proof.
  split.
  - intros [p Hp]%last_is_Some. exists p. unfold Final.choose_cell, Approach1.choose_cell.
    split_and!; try done.
    + intros [_ Hmem]. by apply Hmem, last_Some_elem_of.
    + by intros st' ->.
  - intros Hne. unfold Approach3.choose_cell, Approach3.nsmallest1.
    destruct (py_min_spec (λ tpl : Z * Z, size (dd_peek (Approach3.col_to_missing_rows st3) tpl.2))
                (Approach3.empty_cells st3) Hne) as (p & -> & Hin & Hmin).
    by exists p.
Qed.

Lemma choose_cell_picks_witness :
  ∃ p, Final.choose_cell (scanned_state lopsided) = Some p ∧
       Approach1.choose_cell (scanned_state lopsided) = Some p ∧
       last (empty_cells (scanned_state lopsided)) = Some p ∧
       (I2 (scanned_state lopsided) →
        on_board p ∧ cell_at (board (scanned_state lopsided)) p = Some 0) ∧
       (∀ st', empty_cells st' = empty_cells (scanned_state lopsided) →
               Final.choose_cell st' = Some p).
Proof.
  pose proof (choose_cell_picks (scanned_state lopsided)
                (Approach3.mkSudokuState [(0, 0)] ∅)) as [H _].
  apply H. by_computation.
Defined.

(** C5 as stated fails: in [lopsided] row 0 has one empty cell and row 8
    has two, and the cell picked is (8,8). *)
Lemma choose_cell_counterexample :
  Final.choose_cell (scanned_state lopsided) = Some (8, 8) ∧
  Approach1.choose_cell (scanned_state lopsided) = Some (8, 8) ∧
  I2 (scanned_state lopsided) ∧
  row_empties (scanned_state lopsided) 0 = 1%nat ∧
  row_empties (scanned_state lopsided) 8 = 2%nat ∧
  ¬ fewest_row (scanned_state lopsided) 8.
Proof.
  split_and!; try (vm_compute; reflexivity).
  - pose proof (final_scan_ok lopsided) as Hok.
    assert (Final.scan_rows range9 (fresh_state lopsided)
            = Scanned (scanned_state lopsided)) as E by (vm_compute; reflexivity).
    rewrite E in Hok. apply Hok.
  - by_computation.
Qed.

(** * Further properties of the final solution *)

(** Two grids of the same 9x9 shape with the same 81 cells are equal. *)
Lemma grid_ext g g' :
  wf_grid g → shape g' = shape g →
  (∀ p, on_board p → cell_at g' p = cell_at g p) → g' = g.
Proof.
  intros Hwf Hsh Hcells.
  assert (∀ i, g' !! i = g !! i) as Hrows; [|by apply list_eq].
  intros i.
  assert (length <$> g' !! i = length <$> g !! i) as Hlen
    by (rewrite <- !list_lookup_fmap; unfold shape in Hsh; by rewrite Hsh).
  destruct (g !! i) as [row|] eqn:Hrow, (g' !! i) as [row'|] eqn:Hrow';
    simpl in Hlen; try done.
  f_equal. apply list_eq. intros j.
  assert (length row = 9%nat) as Hrow9.
  { assert (shape g !! i = Some (length row)) as H
      by (unfold shape; by rewrite list_lookup_fmap, Hrow).
    rewrite Hwf in H. apply lookup_replicate in H. by destruct H. }
  assert (i < 9)%nat as Hi.
  { apply lookup_lt_Some in Hrow.
    assert (length g = 9%nat) as <-; [|done].
    unfold wf_grid, shape in Hwf.
    by rewrite <- (length_fmap length g), Hwf, length_replicate. }
  destruct (decide (j < 9)%nat) as [Hj|Hj].
  - specialize (Hcells (Z.of_nat i, Z.of_nat j)). unfold cell_at in Hcells. simpl in Hcells.
    rewrite !cell_nonneg, !Nat2Z.id, Hrow, Hrow' in Hcells by lia. simpl in Hcells.
    apply Hcells. split; simpl; lia.
  - injection Hlen as Hlen. rewrite !lookup_ge_None_2 by lia. done.
Qed.

(** What a call ends with, for any grid. *)
Lemma sudoku_solver_outcomes g :
  (duplicate_clue g ∧ Final.sudoku_solver g = Returned invalid_sudoku g) ∨
  ((∃ p, on_board p ∧ cell_at g p = None) ∧ Final.sudoku_solver g = Raised) ∨
  (∃ st st' log,
     Final.scan_rows range9 (fresh_state g) = Scanned st ∧
     Inv st ∧ board st = g ∧ ¬ duplicate_clue g ∧
     ((Final.depth_first_search (length (empty_cells st)) st = Finished None st' log ∧
       same_state st st' ∧
       (∀ sol, valid_solution sol → keeps_clues g sol → False) ∧
       Final.sudoku_solver g = Returned invalid_sudoku g) ∨
      (Final.depth_first_search (length (empty_cells st)) st
         = Finished (Some (board st')) st' log ∧
       Inv st' ∧ empty_cells st' = [] ∧ completes g (board st') ∧
       Final.sudoku_solver g = Returned (board st') (board st')))).
Proof.
  pose proof (final_scan_ok g) as Hscan.
  unfold Final.sudoku_solver, Final.solve_sudoku.
  destruct (Final.scan_rows range9 (fresh_state g)) as [st| |]; simpl in Hscan.
  - destruct Hscan as (HInv & Hb & _ & Hnd). right. right.
    pose proof (depth_first_search_ok (length (empty_cells st)) st HInv (le_n _)) as Hdfs.
    destruct (Final.depth_first_search (length (empty_cells st)) st)
      as [| |[out|] st' log] eqn:E; simpl in Hdfs; try done.
    + destruct Hdfs as (-> & HInv' & Hnil & Hcomp & _).
      exists st, st', log. split_and!; try done. right.
      split_and!; try done. by rewrite <- Hb.
    + destruct Hdfs as (Hsame & _ & Hnone). pose proof Hsame as [Sb _ _ _ _].
      exists st, st', log. split_and!; try done. left.
      split_and!; try done; [by rewrite <- Hb|by rewrite <- Sb, Hb].
  - by left.
  - right. by left.
Qed.

(** A solved grid comes back as it is. *)
Theorem solved_grid_unchanged (g : Grid) :
  valid_solution g → Final.sudoku_solver g = Returned g g.
Proof.
  intros Hvalid. pose proof Hvalid as [Hwf _].
  assert (keeps_clues g g) as Hself by (by intros p v).
  destruct (sudoku_solver_cases g Hwf)
    as [[Hdup _] | [(_ & Hnone & _) | (_ & st & H & HInv & _ & Hsh & Hc)]].
  - destruct Hdup as (p & q & v & Hp & Hq & Hne & Hv0 & Hpv & Hqv & Hs).
    destruct Hne. apply (valid_NoClash g Hvalid p q v Hs); split_and!; eauto.
  - destruct (Hnone g Hvalid Hself).
  - rewrite H. assert (board st = g) as ->; [|done].
    apply grid_ext; try done. intros p Hp.
    destruct (valid_digit g p Hvalid Hp) as (d & Hd & Hpd).
    specialize (Hc p d Hp Hpd). rewrite decide_False in Hc by lia. congruence.
Qed.

Lemma solved_grid_unchanged_witness :
  Final.sudoku_solver easy_solved = Returned easy_solved easy_solved.
Proof. apply (solved_grid_unchanged easy_solved). by_computation. Defined.

(** When some solved grid extends the grid, the search succeeds. *)
Lemma solvable_succeeds g :
  wf_grid g → (∃ sol, valid_solution sol ∧ keeps_clues g sol) →
  ∃ st, Final.sudoku_solver g = Returned (board st) (board st) ∧
        valid_solution (board st) ∧ completes g (board st).
Proof.
  intros Hwf (sol & Hsol & Hk).
  destruct (sudoku_solver_cases g Hwf)
    as [[Hdup _] | [(_ & Hnone & _) | (_ & st & H & HInv & _ & Hc)]].
  - destruct Hdup as (p & q & v & Hp & Hq & Hne & Hv0 & Hpv & Hqv & Hs).
    destruct Hne. apply (valid_NoClash sol Hsol p q v Hs); split_and!; eauto.
  - destruct (Hnone sol Hsol Hk).
  - exists st. split_and!; try done.
    destruct HInv as [_ _ Htr]. destruct Hc as [Hsh Hc]. apply NoClash_valid.
    + unfold wf_grid. by rewrite Hsh.
    + by eapply Tracks_NoClash.
    + intros p Hp. destruct (wf_grid_cells g p Hwf Hp) as [v Hv].
      specialize (Hc p v Hp Hv). case_decide as H0; [done|].
      exists v. split; [|done].
      destruct (valid_digit sol p Hsol Hp) as (d & Hd & Hpd).
      rewrite (Hk p v Hp Hv H0) in Hpd. simplify_eq. lia.
Qed.

(** The all -1 grid is returned exactly for the grids no solved grid
    extends. *)
Theorem sentinel_iff_unsolvable (g : Grid) :
  wf_grid g → digits_only g →
  (∃ after, Final.sudoku_solver g = Returned invalid_sudoku after) ↔
  ¬ ∃ sol, valid_solution sol ∧ keeps_clues g sol.
Proof.
  intros Hwf Hdig.
  assert (¬ valid_solution invalid_sudoku) as Hinv.
  { intros Hv. destruct (valid_digit invalid_sudoku (0, 0) Hv) as (d & Hd & Hpd);
      [by_computation|]. vm_compute in Hpd. simplify_eq. lia. }
  split.
  - intros [after Hret] Hsol.
    destruct (solvable_succeeds g Hwf Hsol) as (st & H & Hvalid & _).
    rewrite H in Hret. injection Hret as Hout _. by rewrite Hout in Hvalid.
  - intros Hno.
    destruct (sudoku_solver_cases g Hwf)
      as [[_ H] | [(_ & _ & H) | (_ & st & H & HInv & _ & Hc)]]; eauto.
    destruct Hno. exists (board st).
    split; [by apply (completed_valid g)|by apply completes_keeps].
Qed.

Lemma sentinel_iff_unsolvable_witness :
  (∃ after, Final.sudoku_solver dead_end = Returned invalid_sudoku after) ↔
  ¬ ∃ sol, valid_solution sol ∧ keeps_clues dead_end sol.
Proof.
  apply (sentinel_iff_unsolvable dead_end); [reflexivity|by_computation].
Defined.

Lemma unique_solution_found g sol :
  wf_grid g → valid_solution sol → keeps_clues g sol →
  (∀ sol', valid_solution sol' → keeps_clues g sol' → sol' = sol) →
  Final.sudoku_solver g = Returned sol sol.
Proof.
  intros Hwf Hsol Hk Huniq.
  destruct (solvable_succeeds g Hwf) as (st & H & Hvalid & Hc); [eauto|].
  rewrite H. by rewrite (Huniq (board st) Hvalid (completes_keeps _ _ Hc)).
Qed.

(** [refutes_others] is a proof that the solution is the only one: a
    second one would differ in an empty cell, and would solve the grid
    with its own digit there. *)
Lemma refutes_others_unique g sol :
  wf_grid g → valid_solution sol → keeps_clues g sol →
  refutes_others g sol = true →
  ∀ sol', valid_solution sol' → keeps_clues g sol' → sol' = sol.
Proof.
  intros Hwf Hsol Hk Href sol' Hsol' Hk'.
  apply grid_ext; [apply Hsol|by rewrite (proj1 Hsol), (proj1 Hsol')|].
  intros p Hp. destruct (wf_grid_cells g p Hwf Hp) as [v Hv].
  destruct (decide (v = 0)) as [->|Hv0]; [|by rewrite (Hk p v), (Hk' p v)].
  destruct (valid_digit sol' p Hsol' Hp) as (d & Hd & Hpd). rewrite Hpd.
  unfold refutes_others in Href. rewrite forallb_forall in Href.
  specialize (Href p). rewrite Hv in Href.
  assert (In p all_cells) as Hin by (by apply list_elem_of_In, on_board_all_cells).
  specialize (Href Hin). rewrite forallb_forall in Href.
  specialize (Href d).
  assert (In d digits) as Hind.
  { apply list_elem_of_In. unfold digits. apply elem_of_seqZ. lia. }
  specialize (Href Hind). apply orb_true_iff in Href as [Heq|Href].
  { by apply bool_decide_eq_true in Heq. }
  destruct Hp as [Hp1 Hp2].
  destruct (set_cell g p.1 p.2 d) as [g'|] eqn:Hset; [|done].
  destruct (solvable_succeeds g') as (st & H & Hvalid & _).
  - unfold wf_grid. rewrite (set_cell_shape g g' p.1 p.2 d); [done|lia..|done].
  - exists sol'. split; [done|]. intros q w Hq Hw Hw0.
    destruct (decide (q = p)) as [->|Hne].
    + unfold cell_at in Hw. rewrite (cell_set_same g g' p.1 p.2 d) in Hw; [|lia..|done].
      by simplify_eq.
    + unfold cell_at in Hw. rewrite (cell_set_other g g' p.1 p.2 d) in Hw;
        [by apply Hk'|try apply Hq; try lia; try done..].
      intros Heq. apply Hne. destruct q, p. simpl in *. by simplify_eq.
  - rewrite H in Href. apply bool_decide_eq_true in Href. rewrite Href in Hvalid.
    destruct (valid_digit invalid_sudoku (0, 0) Hvalid) as (d0 & Hd0 & Hpd0);
      [by_computation|].
    vm_compute in Hpd0. simplify_eq. lia.
Qed.

(** A puzzle with exactly one solution gets that solution, written into
    the caller's grid. *)
Theorem unique_solution_returned (g sol : Grid) :
  wf_grid g → valid_solution sol → keeps_clues g sol →
  (∀ sol', valid_solution sol' → keeps_clues g sol' → sol' = sol) →
  Final.sudoku_solver g = Returned sol sol.
Proof. apply unique_solution_found. Qed.

Lemma unique_solution_returned_witness :
  (∀ sol', valid_solution sol' → keeps_clues top_band sol' → sol' = easy_solved) ∧
  Final.sudoku_solver top_band = Returned easy_solved easy_solved.
Proof.
  assert (keeps_clues top_band easy_solved) as Hk
    by (apply keeps_cluesb_true; vm_compute; reflexivity).
  assert (valid_solution easy_solved) as Hsol by by_computation.
  assert (∀ sol', valid_solution sol' → keeps_clues top_band sol' → sol' = easy_solved)
    as Huniq.
  { apply refutes_others_unique; [reflexivity|exact Hsol|exact Hk|].
    vm_compute. reflexivity. }
  split; [exact Huniq|].
  apply (unique_solution_returned top_band easy_solved);
    [reflexivity|exact Hsol|exact Hk|exact Huniq].
Defined.

(** The search on [top_band] makes 26 placements and takes 9 of them back;
    [log] has an entry for each. *)
Example top_band_search :
  match Final.depth_first_search 17 (scanned_state top_band) with
  | Finished (Some goal) _ log => goal = easy_solved ∧ length log = 35%nat
  | _ => False
  end.
Proof. vm_compute. split; reflexivity. Qed.

(** An answer other than the all -1 grid is the caller's grid itself, of
    the shape it had, with every non-zero entry kept (digit or not) and
    every 0 replaced by a digit 1-9. *)
Theorem answer_in_place (g out after : Grid) :
  wf_grid g → Final.sudoku_solver g = Returned out after →
  out ≠ invalid_sudoku →
  after = out ∧ completes g out.
Proof.
  intros Hwf Hret Hout.
  destruct (sudoku_solver_cases g Hwf)
    as [[_ H] | [(_ & _ & H) | (_ & st & H & _ & _ & Hc)]];
    rewrite H in Hret; by simplify_eq.
Qed.

Lemma answer_in_place_witness :
  easy_solved = easy_solved ∧ completes easy easy_solved.
Proof.
  apply (answer_in_place easy easy_solved easy_solved).
  - reflexivity.
  - vm_compute. reflexivity.
  - by_computation.
Defined.

(** [IndexError] escapes only when one of the 81 cells is missing; and when
    one is missing there is no answer but the all -1 grid, given for a
    repeated clue met before the missing cell. *)
Theorem missing_cell_raises (g : Grid) :
  (Final.sudoku_solver g = Raised → ∃ p, on_board p ∧ cell_at g p = None) ∧
  ((∃ p, on_board p ∧ cell_at g p = None) →
   Final.sudoku_solver g = Raised ∨
   (duplicate_clue g ∧ Final.sudoku_solver g = Returned invalid_sudoku g)).
Proof.
  destruct (sudoku_solver_outcomes g)
    as [[Hdup H] | [[Hmiss H] | (st & st' & log & _ & HInv & Hb & _ &
          [(_ & _ & _ & H) | (_ & _ & _ & _ & H)])]]; rewrite H.
  - split; [done|]. by right.
  - split; [done|]. by left.
  - split; [done|]. intros (p & Hp & Hnone).
    destruct (inv_cells st HInv p Hp) as [v Hv]. rewrite Hb in Hv. congruence.
  - split; [done|]. intros (p & Hp & Hnone).
    destruct (inv_cells st HInv p Hp) as [v Hv]. rewrite Hb in Hv. congruence.
Qed.

(** In a solved grid every row holds every digit. *)
Lemma valid_row_has_digit sol r d :
  valid_solution sol → 0 ≤ r < 9 → 1 ≤ d ≤ 9 →
  ∃ c, 0 ≤ c < 9 ∧ cell sol r c = Some d.
Proof.
  intros Hv Hr Hd.
  assert (row_cells r ∈ units) as Hu.
  { unfold units. apply elem_of_app. left. apply list_elem_of_fmap.
    exists r. split; [done|]. by apply elem_of_seqZ. }
  assert (d ∈ unit_vals sol (row_cells r)) as Hin.
  { rewrite (valid_unit_perm sol _ Hv Hu). apply elem_of_seqZ. lia. }
  apply list_elem_of_omap in Hin as (p & (c & -> & Hc%elem_of_seqZ)%list_elem_of_fmap & Hp).
  exists c. split; [lia|done].
Qed.

Lemma one_blank_unique sol g p sol2 :
  valid_solution sol → on_board p → set_cell sol p.1 p.2 0 = Some g →
  valid_solution sol2 → keeps_clues g sol2 → sol2 = sol.
Proof.
  intros Hv Hp Hset Hv2 Hk. pose proof Hp as [Hp1 Hp2].
  assert (∀ q, on_board q → q ≠ p → cell_at sol2 q = cell_at sol q) as Hother.
  { intros q Hq Hne. destruct (valid_digit sol q Hv Hq) as (d & Hd & Hqd).
    rewrite Hqd. apply (Hk q d Hq); [|lia]. rewrite <- Hqd. unfold cell_at.
    destruct Hq as [Hq1 Hq2].
    apply (cell_set_other sol g p.1 p.2 0); [lia..| |done].
    intros Heq. apply Hne. by destruct q, p; simplify_eq/=. }
  apply grid_ext; [apply Hv|by rewrite (proj1 Hv2), (proj1 Hv)|].
  intros q Hq. destruct (decide (q = p)) as [->|Hne]; [|by apply Hother].
  destruct (valid_digit sol p Hv Hp) as (d & Hd & Hpd).
  destruct (valid_digit sol2 p Hv2 Hp) as (d2 & Hd2 & Hpd2).
  rewrite Hpd, Hpd2. f_equal. destruct (decide (d2 = d)) as [|Hdd]; [done|].
  destruct (valid_row_has_digit sol p.1 d2 Hv Hp1 Hd2) as (c & Hc & Hcd).
  assert ((p.1, c) ≠ p) as Hne.
  { intros Heq. rewrite <- Heq in Hpd. unfold cell_at in Hpd. simpl in Hpd. congruence. }
  assert (cell_at sol2 (p.1, c) = Some d2) as Hcd2.
  { rewrite Hother; [exact Hcd| |done]. split; simpl; lia. }
  destruct Hne. apply (valid_NoClash sol2 Hv2 (p.1, c) p d2); [by left|..];
    split_and!; simpl; try done; lia.
Qed.

(** Emptying any one cell of a solved grid gives a puzzle the solver
    answers with that solved grid. *)
Theorem one_blank_filled (sol g : Grid) (row col : Z) :
  valid_solution sol → 0 ≤ row < 9 → 0 ≤ col < 9 →
  set_cell sol row col 0 = Some g →
  Final.sudoku_solver g = Returned sol sol.
Proof.
  intros Hv Hrow Hcol Hset.
  assert (on_board (row, col)) as Hp by done.
  apply unique_solution_found.
  - unfold wf_grid. rewrite (set_cell_shape sol g row col 0) by (done || lia). apply Hv.
  - done.
  - intros q v [Hq1 Hq2] Hqv Hv0. destruct (decide (q = (row, col))) as [->|Hne].
    + unfold cell_at in Hqv. simpl in Hqv.
      rewrite (cell_set_same sol g row col 0) in Hqv by (done || lia). congruence.
    + rewrite <- Hqv. symmetry. unfold cell_at.
      apply (cell_set_other sol g row col 0); [lia..| |done].
      intros Heq. apply Hne. by destruct q; simplify_eq/=.
  - intros sol2. by apply (one_blank_unique sol g (row, col)).
Qed.

Lemma one_blank_filled_witness :
  ∃ g, set_cell easy_solved 4 4 0 = Some g ∧
       Final.sudoku_solver g = Returned easy_solved easy_solved.
Proof.
  eexists. split; [vm_compute; reflexivity|].
  apply (one_blank_filled easy_solved _ 4 4); [by_computation|lia|lia|].
  vm_compute. reflexivity.
Defined.

Lemma Inv_used_sets_track st : Inv st → used_sets_track st.
Proof.
  intros [_ _ [Hr Hc Hx _ _ _]]. split_and!.
  - intros r v. rewrite (Hr r v). unfold filled, on_board, cell_at, row_key. split.
    + intros ([r2 c] & <- & [H1 H2] & Hv & Hv0). simpl in *. eauto 10.
    + intros (Hv0 & c & H1 & H2 & Hv). exists (r, c). simpl. eauto 10.
  - intros c v. rewrite (Hc c v). unfold filled, on_board, cell_at, col_key. split.
    + intros ([r c2] & <- & [H1 H2] & Hv & Hv0). simpl in *. eauto 10.
    + intros (Hv0 & r & H1 & H2 & Hv). exists (r, c). simpl. eauto 10.
  - intros b v. rewrite (Hx b v). unfold filled, on_board, cell_at, box_key. split.
    + intros ([r c] & <- & [H1 H2] & Hv & Hv0). simpl in *. eauto 10.
    + intros (Hv0 & r & c & H1 & H2 & <- & Hv). exists (r, c). simpl. eauto 10.
Qed.

(** After the scan of a grid without repeated clue, and in the state any
    finished search from there ends in, each used-set holds exactly the
    non-zero values in its row, column or box of the board. *)
Theorem used_sets_exact (sudoku : Grid) (st : State) :
  Final.scan_rows range9 (fresh_state sudoku) = Scanned st →
  used_sets_track st ∧
  ∀ depth goal st2 log,
    Final.depth_first_search depth st = Finished goal st2 log →
    used_sets_track st2.
Proof.
  intros Hscan. pose proof (final_scan_ok sudoku) as Hok. rewrite Hscan in Hok.
  destruct Hok as (HInv & _). split; [by apply Inv_used_sets_track|].
  intros depth goal st2 log Hdfs. apply Inv_used_sets_track.
  pose proof (depth_first_search_partial depth st HInv) as Hs. rewrite Hdfs in Hs.
  destruct goal as [g|]; simpl in Hs.
  - apply Hs.
  - destruct Hs as (Hsame & _). by apply (Inv_same_state st).
Qed.

Lemma used_sets_exact_witness :
  used_sets_track (scanned_state easy) ∧
  ∀ depth goal st2 log,
    Final.depth_first_search depth (scanned_state easy) = Finished goal st2 log →
    used_sets_track st2.
Proof. apply (used_sets_exact easy). vm_compute. reflexivity. Defined.

(** A search that finds nothing leaves the board, the list of empty cells
    (in its order) and every used-set as they were before it. *)
Theorem failed_search_restores (sudoku : Grid) (st st2 : State) (depth : nat)
    (log : list State) :
  Final.scan_rows range9 (fresh_state sudoku) = Scanned st →
  Final.depth_first_search depth st = Finished None st2 log →
  board st2 = board st ∧ empty_cells st2 = empty_cells st ∧
  (∀ k, dd_peek (row_to_seen_vals st2) k = dd_peek (row_to_seen_vals st) k) ∧
  (∀ k, dd_peek (col_to_seen_vals st2) k = dd_peek (col_to_seen_vals st) k) ∧
  (∀ k, dd_peek (grid_to_cells st2) k = dd_peek (grid_to_cells st) k).
Proof.
  intros Hscan Hdfs. pose proof (final_scan_ok sudoku) as Hok. rewrite Hscan in Hok.
  destruct Hok as (HInv & _).
  pose proof (depth_first_search_partial depth st HInv) as Hs. rewrite Hdfs in Hs.
  destruct Hs as ([Sb Se Sr Sc Sx] & _). by split_and!.
Qed.
Lemma failed_search_restores_witness :
  match Final.depth_first_search 72 (scanned_state dead_end) with
  | Finished None st2 _ =>
    board st2 = dead_end ∧ empty_cells st2 = empty_cells (scanned_state dead_end)
  | _ => False
  end.
Proof.
  destruct (Final.depth_first_search 72 (scanned_state dead_end))
    as [| |[goal|] st2 log] eqn:E; try (vm_compute in E; discriminate E).
  destruct (failed_search_restores dead_end (scanned_state dead_end) st2 72 log)
    as (Hb & He & _); [vm_compute; reflexivity|exact E|].
  split; [exact Hb|exact He].
Defined.

(** * Approach 1 beside the final solution *)

(** ** Grids that agree off a list of cells *)

Lemma lookup2_set (g g1 : Grid) (r c v : Z) (i j : nat) :
  0 ≤ r → 0 ≤ c → set_cell g r c v = Some g1 →
  g1 !! i ≫= (.!! j) =
    if decide (i = Z.to_nat r ∧ j = Z.to_nat c) then Some v else g !! i ≫= (.!! j).
Proof.
  intros Hr Hc (row & Hrow & Hlen & ->)%set_cell_nonneg; [|done..].
  destruct (decide (i = Z.to_nat r)) as [->|Hi].
  - rewrite list_lookup_insert_eq by (by eapply lookup_lt_Some). rewrite Hrow. simpl.
    destruct (decide (j = Z.to_nat c)) as [->|Hj].
    + rewrite decide_True by done. by apply list_lookup_insert_eq.
    + rewrite decide_False by (by intros [_ ?]). by apply list_lookup_insert_ne.
  - rewrite decide_False by (by intros [? _]). by rewrite list_lookup_insert_ne.
Qed.

Lemma set_cell_same_shape (g g' g1 : Grid) (r c v v' : Z) :
  shape g = shape g' → 0 ≤ r → 0 ≤ c →
  set_cell g r c v = Some g1 → is_Some (set_cell g' r c v').
Proof.
  intros Hsh Hr Hc (row & Hrow & Hlen & ->)%set_cell_nonneg; [|done..].
  assert (shape g' !! Z.to_nat r = Some (length row)) as Hrow'
    by (rewrite <- Hsh; unfold shape; by rewrite list_lookup_fmap, Hrow).
  unfold shape in Hrow'. rewrite list_lookup_fmap in Hrow'.
  destruct (g' !! Z.to_nat r) as [row'|] eqn:E; simpl in Hrow'; [|done].
  injection Hrow' as Hrow'. eexists. apply set_cell_nonneg; [done..|].
  exists row'. split_and!; [done|lia|done].
Qed.

Lemma agree_off_nil g g' : agree_off [] g g' → g = g'.
Proof.
  intros [Hsh Hcells]. apply list_eq. intros i.
  assert (length <$> g !! i = length <$> g' !! i) as Hlen
    by (rewrite <- !list_lookup_fmap; unfold shape in Hsh; by rewrite Hsh).
  destruct (g !! i) as [row|] eqn:Hrow, (g' !! i) as [row'|] eqn:Hrow';
    simpl in Hlen; try done.
  f_equal. apply list_eq. intros j.
  specialize (Hcells i j). rewrite Hrow, Hrow' in Hcells. simpl in Hcells.
  apply Hcells. set_solver.
Qed.

Lemma agree_off_refl E g : agree_off E g g.
Proof. by split. Qed.

Lemma agree_off_mono E E' g g' :
  E ⊆ E' → agree_off E g g' → agree_off E' g g'.
Proof. intros Hsub [Hsh Hcells]. split; [done|]. intros i j Hij. apply Hcells. set_solver. Qed.

(** Writing the same value at the same position of both grids. *)
Lemma agree_off_set E E' g g' g1 g1' r c v :
  0 ≤ r → 0 ≤ c → agree_off E g g' →
  (∀ q, q ∈ E → q ≠ (r, c) → q ∈ E') →
  set_cell g r c v = Some g1 → set_cell g' r c v = Some g1' →
  agree_off E' g1 g1'.
Proof.
  intros Hr Hc [Hsh Hcells] Hsub Hset Hset'. split.
  - by rewrite (set_cell_shape g g1 r c v), (set_cell_shape g' g1' r c v).
  - intros i j Hij.
    rewrite (lookup2_set g g1 r c v), (lookup2_set g' g1' r c v) by done.
    case_decide as Hd; [done|]. apply Hcells. intros Hin. apply Hij, Hsub; [done|].
    intros [= <- <-]. apply Hd. by rewrite !Nat2Z.id.
Qed.

(** Writing at a position where the grids need not agree. *)
Lemma agree_off_set_right E E' g g' g1' r c v :
  0 ≤ r → 0 ≤ c → agree_off E g g' →
  E ⊆ E' → (r, c) ∈ E' →
  set_cell g' r c v = Some g1' →
  agree_off E' g g1'.
Proof.
  intros Hr Hc [Hsh Hcells] Hsub Hin Hset'. split.
  - by rewrite (set_cell_shape g' g1' r c v).
  - intros i j Hij. rewrite (lookup2_set g' g1' r c v) by done.
    case_decide as Hd.
    + destruct Hd as [-> ->]. rewrite !Z2Nat.id in Hij by done. done.
    + apply Hcells. set_solver.
Qed.

(** ** The two scans *)

Section scan_alike_facts.
Variables clashes clashes' : State → Z → Z → Z → bool * State.
Hypothesis clashes_spec : ∀ st row col val,
  same_state st (clashes st row col val).2 ∧
  ((clashes st row col val).1 = false ↔ unused st row col val).
Hypothesis clashes_spec' : ∀ st row col val,
  same_state st (clashes' st row col val).2 ∧
  ((clashes' st row col val).1 = false ↔ unused st row col val).

Lemma scan_cell_alike st st' row col :
  same_state st st' →
  scan_alike (scan_cell clashes st row col) (scan_cell clashes' st' row col).
Proof.
  intros Hs. pose proof Hs as [Sb Se Sr Sc Sx]. unfold scan_cell. rewrite <- Sb.
  destruct (cell (board st) row col) as [val|]; [|done].
  case_bool_decide. { split; simpl; try done. by rewrite Se. }
  pose proof (clashes_spec st row col val) as [H1 H1'].
  pose proof (clashes_spec' st' row col val) as [H2 H2'].
  destruct (clashes st row col val) as [b1 s1], (clashes' st' row col val) as [b2 s2];
    simpl in *.
  assert (b1 = b2) as ->.
  { destruct b1, b2; try done.
    - assert (unused st row col val) as Hu
        by (apply (unused_same_state st'); [by apply same_state_sym|by apply H2']).
      by apply H1' in Hu.
    - assert (unused st' row col val) as Hu
        by (apply (unused_same_state st); [done|by apply H1']).
      by apply H2' in Hu. }
  destruct b2; [done|].
  assert (same_state s1 s2) as [Tb Te Tr Tc Tx]
    by eauto using same_state_trans, same_state_sym.
  split; simpl; try done.
  - intros k. by rewrite !dd_peek_add, !Tr.
  - intros k. by rewrite !dd_peek_add, !Tc.
  - intros k. by rewrite !dd_peek_add, !Tx.
Qed.

Lemma scan_cols_alike row cols : ∀ st st',
  same_state st st' →
  scan_alike (scan_cols clashes row cols st) (scan_cols clashes' row cols st').
Proof.
  induction cols as [|col cols IH]; intros st st' Hs; cbn [scan_cols]; [done|].
  pose proof (scan_cell_alike st st' row col Hs) as Hc.
  destruct (scan_cell clashes st row col), (scan_cell clashes' st' row col); try done.
  exact (IH _ _ Hc).
Qed.

Lemma scan_rows_alike rows : ∀ st st',
  same_state st st' →
  scan_alike (scan_rows clashes rows st) (scan_rows clashes' rows st').
Proof.
  induction rows as [|row rows IH]; intros st st' Hs; cbn [scan_rows]; [done|].
  pose proof (scan_cols_alike row range9 st st' Hs) as Hc.
  destruct (scan_cols clashes row range9 st), (scan_cols clashes' row range9 st'); try done.
  exact (IH _ _ Hc).
Qed.
End scan_alike_facts.

(** ** The two searches *)

Lemma mirrors_same_state a a' f f' :
  same_state a a' → same_state f f' → mirrors a f → mirrors a' f'.
Proof.
  intros [Ab Ae Ar Ac Ax] [Fb Fe Fr Fc Fx] [Mb Me Mr Mc Mx]. split.
  - by rewrite <- Ab, <- Fb, <- Fe.
  - by rewrite <- Ae, <- Fe.
  - intros k. by rewrite <- Ar, <- Fr.
  - intros k. by rewrite <- Ac, <- Fc.
  - intros k. by rewrite <- Ax, <- Fx.
Qed.

Lemma mirrors_unused a f row col d :
  mirrors a f → unused a row col d ↔ unused f row col d.
Proof. intros [_ _ Mr Mc Mx]. unfold unused. by rewrite Mr, Mc, Mx. Qed.

(** Placing the same digit in both. *)
Lemma mirrors_place a f f1 p d :
  on_board p → mirrors a f → NoDup (empty_cells f) →
  last (empty_cells f) = Some p →
  Final.place f p.1 p.2 d = Some f1 →
  ∃ a1, Approach1.place_digit a p.1 p.2 d = Some a1 ∧ mirrors a1 f1.
Proof.
  intros [Hp1 Hp2] [Mb Me Mr Mc Mx] Hnd (l & Hl)%last_Some Hplace.
  unfold Final.place in Hplace.
  destruct (set_cell (board f) p.1 p.2 d) as [g'|] eqn:Hg'; simpl in Hplace; [|done].
  rewrite Hl, match_snoc, removelast_last in Hplace. injection Hplace as <-.
  destruct (set_cell_same_shape (board f) (board a) g' p.1 p.2 d d) as [g Hg];
    [by destruct Mb|lia..|done|].
  unfold Approach1.place_digit. rewrite Hg. simpl.
  rewrite Me, Hl, match_snoc, removelast_last. eexists. split; [done|].
  rewrite Hl in Hnd. apply NoDup_app in Hnd as (_ & Hnp & _).
  split; simpl.
  - apply (agree_off_set (empty_cells f) l (board a) (board f) g g' p.1 p.2 d);
      [lia|lia|done| |done|done].
    intros q Hq Hne. rewrite Hl in Hq. destruct p. set_solver.
  - done.
  - intros k. by rewrite !dd_peek_add, !Mr.
  - intros k. by rewrite !dd_peek_add, !Mc.
  - intros k. unfold Approach1._grid_key. fold (sub_grid_no p.1 p.2).
    by rewrite !dd_peek_add, !Mx.
Qed.

(** Reverting in approach 1 beside undoing in the final solution. *)
Lemma mirrors_undo a f f3 p d :
  on_board p → mirrors a f → Final.undo f p.1 p.2 d = Some f3 →
  mirrors (Approach1.revert_state a p.1 p.2 d) f3.
Proof.
  intros [Hp1 Hp2] [Mb Me Mr Mc Mx] Hundo. unfold Final.undo in Hundo.
  destruct (set_cell (board f) p.1 p.2 0) as [g'|] eqn:Hg'; simpl in Hundo; [|done].
  injection Hundo as <-. split; simpl.
  - apply (agree_off_set_right (empty_cells f) _ (board a) (board f) g' p.1 p.2 0);
      [lia|lia|done|set_solver|set_solver|done].
  - by rewrite Me.
  - intros k. by rewrite !dd_peek_discard, !Mr.
  - intros k. by rewrite !dd_peek_discard, !Mc.
  - intros k. unfold Approach1._grid_key. fold (sub_grid_no p.1 p.2).
    by rewrite !dd_peek_discard, !Mx.
Qed.

Lemma try_digits_alike depth p :
  (∀ a f, mirrors a f → Inv f →
     search_alike (Approach1.depth_first_search depth a)
                  (Final.depth_first_search depth f)) →
  ∀ ds a f loga logf,
    Forall (λ d, 1 ≤ d ≤ 9) ds → mirrors a f → Inv f →
    last (empty_cells f) = Some p →
    search_alike
      (Approach1.try_digits (Approach1.depth_first_search depth) p.1 p.2 ds a loga)
      (Final.try_digits (Final.depth_first_search depth) p.1 p.2 ds f logf).
Proof.
  intros Hsearch ds. induction ds as [|d ds IH]; intros a f loga logf Hds HM HInv Hlast;
    simpl; [done|].
  apply Forall_cons in Hds as [Hd Hds].
  pose proof (digit_fits_spec f p.1 p.2 d) as [Hsame Hfits].
  pose proof (is_unsolvable_spec a p.1 p.2 d) as [Hsame' Hclash].
  destruct (Final.digit_fits f p.1 p.2 d) as [fits fc]; simpl in *.
  destruct (Approach1.is_unsolvable a p.1 p.2 d) as [clash ac]; simpl in *.
  assert (mirrors ac fc) as HMc by eauto using mirrors_same_state.
  assert (Inv fc) as HInvc by eauto using Inv_same_state.
  pose proof Hsame as [Sb Se _ _ _].
  assert (on_board p ∧ cell_at (board f) p = Some 0) as [Hon H0].
  { destruct HInv as [_ [_ Hmem] _]. apply Hmem. by apply last_Some_elem_of. }
  assert (clash = negb fits) as ->.
  { pose proof (mirrors_unused a f p.1 p.2 d HM) as Hu.
    destruct clash, fits; simpl; try done.
    - assert (unused a p.1 p.2 d) as H by (apply Hu; by apply Hfits). by apply Hclash in H.
    - assert (unused f p.1 p.2 d) as H by (apply Hu; by apply Hclash). by apply Hfits in H. }
  rewrite negb_involutive. destruct fits; [|by apply IH; try rewrite <- Se].
  assert (unused f p.1 p.2 d) as Hun by (by apply Hfits).
  destruct (place_Inv fc p d) as (f1 & Hplace & HInv1 & _);
    [done|by rewrite <- Se|by apply (unused_same_state f)|lia|].
  rewrite Hplace.
  destruct (mirrors_place ac fc f1 p d) as (a1 & Hplace' & HM1);
    [done..|apply HInvc|by rewrite <- Se|done|].
  rewrite Hplace'.
  pose proof (Hsearch a1 f1 HM1 HInv1) as Hrec.
  pose proof (depth_first_search_partial depth f1 HInv1) as Hok.
  destruct (Approach1.depth_first_search depth a1) as [| |[goal|] a2 loga2],
    (Final.depth_first_search depth f1) as [| |[g|] f2 logf2]; try done.
  - simpl in *. destruct Hrec as [Hgoal Hboards], Hok as (-> & _). done.
  - simpl in Hrec, Hok. destruct Hok as (Hs12 & _).
    destruct (undo_place fc f1 f2 p d) as (f3 & Hundo & Hs3);
      [done|by rewrite <- Sb|by apply (unused_same_state f)|by rewrite <- Se|done..|].
    rewrite Hundo.
    assert (same_state f f3) as Hs by eauto using same_state_trans.
    apply IH; [done|by apply (mirrors_undo a2 f2)|by apply (Inv_same_state f)|].
    destruct Hs as [_ <- _ _ _]. done.
Qed.

Lemma depth_first_search_alike depth : ∀ a f,
  mirrors a f → Inv f →
  search_alike (Approach1.depth_first_search depth a) (Final.depth_first_search depth f).
Proof.
  induction depth as [|depth IH]; intros a f HM HInv;
    cbn [Approach1.depth_first_search Final.depth_first_search];
    unfold Approach1.is_goal_state, Approach1.choose_cell, Final.choose_cell;
    pose proof HM as [Mb Me _ _ _]; rewrite Me;
    destruct (last (empty_cells f)) as [[row col]|] eqn:Hlast.
  - apply last_Some in Hlast as [l Hl]. rewrite Hl, length_app. simpl.
    rewrite bool_decide_false by lia. done.
  - apply last_None in Hlast. rewrite Hlast in *. simpl.
    by split; apply agree_off_nil.
  - assert (bool_decide (length (empty_cells f) = 0%nat) = false) as ->.
    { apply last_Some in Hlast as [l Hl]. rewrite Hl, length_app. simpl.
      apply bool_decide_false. lia. }
    assert (Forall (λ d, 1 ≤ d ≤ 9) digits) as Hds
      by (apply Forall_forall; intros d Hd%elem_of_seqZ; lia).
    exact (try_digits_alike depth (row, col) IH digits a f [] [] Hds HM HInv Hlast).
  - apply last_None in Hlast. rewrite Hlast in *. simpl.
    by split; apply agree_off_nil.
Qed.

(** ** The two solvers *)

Lemma scanned_states_mirror a f : same_state a f → mirrors a f.
Proof.
  intros [Sb Se Sr Sc Sx]. split; try done. rewrite Sb. apply agree_off_refl.
Qed.

Lemma sudoku_solver_alike g :
  solver_alike g (Approach1.sudoku_solver g) (Final.sudoku_solver g).
Proof.
  pose proof (scan_rows_alike Approach1.is_unsolvable Final.clue_clashes
                is_unsolvable_spec clue_clashes_spec range9
                (fresh_state g) (fresh_state g) (same_state_refl _)) as Hscan.
  pose proof (final_scan_ok g) as Hok.
  unfold Approach1.sudoku_solver, Approach1.SudokuState, Final.sudoku_solver,
    Final.solve_sudoku, Final.scan_rows in *.
  destruct (scan_rows Approach1.is_unsolvable range9 (fresh_state g)) as [a| |],
    (scan_rows Final.clue_clashes range9 (fresh_state g)) as [f| |]; try done.
  - simpl in Hscan, Hok. destruct Hok as (HInv & Hb & Hempty & _).
    pose proof (scanned_states_mirror a f Hscan) as HM.
    pose proof HM as [_ Me _ _ _]. rewrite Me.
    pose proof (depth_first_search_alike (length (empty_cells f)) a f HM HInv) as Hrec.
    pose proof (depth_first_search_ok (length (empty_cells f)) f HInv (le_n _)) as Hdfs.
    destruct (Approach1.depth_first_search (length (empty_cells f)) a)
      as [| |[goal|] a2 loga],
      (Final.depth_first_search (length (empty_cells f)) f) as [| |[gf|] f2 logf];
      try done; simpl in Hrec, Hdfs.
    + destruct Hrec as [-> ->]. split_and!; [done|apply agree_off_refl|done].
    + destruct Hdfs as ([_ Se _ _ _] & _). destruct Hrec as [Mb _ _ _ _].
      rewrite <- Se, Hempty in Mb. by split_and!.
Qed.

(** The two solvers give the same answers, and raise on the same grids. *)
Theorem approach1_same_answer (g : Grid) :
  (∀ out, (∃ after, Approach1.sudoku_solver g = Returned out after) ↔
          (∃ after, Final.sudoku_solver g = Returned out after)) ∧
  (Approach1.sudoku_solver g = Raised ↔ Final.sudoku_solver g = Raised).
Proof.
  pose proof (sudoku_solver_alike g) as H.
  destruct (Approach1.sudoku_solver g) as [out1 after1| |],
    (Final.sudoku_solver g) as [out2 after2| |]; try done.
  - destruct H as (-> & _). split; [|done]. intros out.
    split; intros [after [= -> _]]; eauto.
Qed.

(** ** What a call writes *)

Lemma agree_off_trans E g1 g2 g3 :
  agree_off E g1 g2 → agree_off E g2 g3 → agree_off E g1 g3.
Proof.
  intros [Hs1 Hc1] [Hs2 Hc2]. split; [congruence|].
  intros i j Hij. rewrite Hc1 by done. by apply Hc2.
Qed.

Lemma agree_off_sym E g g' : agree_off E g g' → agree_off E g' g.
Proof. intros [Hs Hc]. split; [done|]. intros i j Hij. symmetry. by apply Hc. Qed.

Lemma try_digits_frame search p :
  (∀ st1, Inv st1 → search_ok True st1 (search st1) ∧ search_frame st1 (search st1)) →
  ∀ ds st log,
    Forall (λ d, 1 ≤ d ≤ 9) ds → Inv st → last (empty_cells st) = Some p →
    search_frame st (Final.try_digits search p.1 p.2 ds st log).
Proof.
  intros Hsearch ds. induction ds as [|d ds IH]; intros st log Hds HInv Hlast; simpl.
  { apply agree_off_refl. }
  apply Forall_cons in Hds as [Hd Hds].
  pose proof (digit_fits_spec st p.1 p.2 d) as [Hsame Hfits].
  destruct (Final.digit_fits st p.1 p.2 d) as [fits stc]; simpl in *.
  assert (Inv stc) as HInvc by eauto using Inv_same_state.
  pose proof Hsame as [Sb Se _ _ _].
  assert (on_board p ∧ cell_at (board st) p = Some 0) as [Hon H0].
  { destruct HInv as [_ [_ Hmem] _]. apply Hmem. by apply last_Some_elem_of. }
  assert (p ∈ empty_cells st) as Hin by (by apply last_Some_elem_of).
  destruct fits.
  - assert (unused st p.1 p.2 d) as Hun by (by apply Hfits).
    destruct (place_Inv stc p d) as (st1 & Hplace & HInv1 & Hset & Hemp & _ & _);
      [done|by rewrite <- Se|by apply (unused_same_state st)|lia|].
    rewrite Hplace.
    destruct (Hsearch st1 HInv1) as [Hok Hframe].
    destruct (search st1) as [| |[g|] st2 log2]; simpl in Hok, Hframe; try done.
    + simpl. apply (agree_off_trans _ _ (board st1)).
      * destruct Hon. rewrite Sb.
        apply (agree_off_set_right (empty_cells st) _ (board stc) (board stc) _ p.1 p.2 d);
          [lia|lia|apply agree_off_refl|done|by destruct p|done].
      * eapply agree_off_mono; [|done]. rewrite Se, Hemp. set_solver.
    + destruct Hok as (Hs12 & _).
      destruct (undo_place stc st1 st2 p d) as (st3 & Hundo & Hs3);
        [done|by rewrite <- Sb|by apply (unused_same_state st)|by rewrite <- Se|done..|].
      rewrite Hundo.
      assert (same_state st st3) as Hs by eauto using same_state_trans.
      pose proof Hs as [Sb3 Se3 _ _ _].
      assert (Inv st3) as HInv3 by (by apply (Inv_same_state st)).
      specialize (IH st3 (log ++ st1 :: log2 ++ [st3]) Hds HInv3).
      rewrite <- Se3 in IH. specialize (IH Hlast). unfold search_frame in *.
      destruct (Final.try_digits search p.1 p.2 ds st3 (log ++ st1 :: log2 ++ [st3]));
        try done.
      by rewrite Sb3, Se3.
  - specialize (IH stc log Hds HInvc). rewrite <- Se in IH. specialize (IH Hlast).
    unfold search_frame in *.
    destruct (Final.try_digits search p.1 p.2 ds stc log); try done.
    by rewrite Sb, Se.
Qed.

Lemma depth_first_search_frame depth : ∀ st,
  Inv st → search_frame st (Final.depth_first_search depth st).
Proof.
  induction depth as [|depth IH]; intros st HInv;
    cbn [Final.depth_first_search]; unfold Final.choose_cell;
    destruct (last (empty_cells st)) as [[row col]|] eqn:Hlast.
  - done.
  - apply agree_off_refl.
  - assert (Forall (λ d, 1 ≤ d ≤ 9) digits) as Hds
      by (apply Forall_forall; intros d Hd%elem_of_seqZ; lia).
    apply (try_digits_frame (Final.depth_first_search depth) (row, col)); try done.
    intros st1 H1. split; [by apply depth_first_search_partial|by apply IH].
  - apply agree_off_refl.
Qed.

Lemma final_writes_blanks g out after :
  Final.sudoku_solver g = Returned out after →
  agree_off (filter (λ p, cell_at g p = Some 0) all_cells) g after.
Proof.
  pose proof (final_scan_ok g) as Hscan.
  unfold Final.sudoku_solver, Final.solve_sudoku.
  destruct (Final.scan_rows range9 (fresh_state g)) as [st| |]; simpl in Hscan; [| |done].
  - destruct Hscan as (HInv & Hb & Hempty & _).
    pose proof (depth_first_search_frame (length (empty_cells st)) st HInv) as Hframe.
    destruct (Final.depth_first_search (length (empty_cells st)) st)
      as [| |[gf|] st' log]; try done; simpl in Hframe;
      rewrite Hempty, Hb in Hframe; by intros [= _ <-].
  - intros [= _ <-]. apply agree_off_refl.
Qed.

(** The final solution writes only cells that held 0: every other entry of
    the caller's grid, also beyond the ninth row or column, is left as it
    was, and so is the grid's shape. *)
Theorem final_writes_only_blanks (g out after : Grid) :
  Final.sudoku_solver g = Returned out after →
  shape after = shape g ∧
  ∀ i j : nat,
    ¬ (on_board (Z.of_nat i, Z.of_nat j) ∧ g !! i ≫= (.!! j) = Some 0) →
    after !! i ≫= (.!! j) = g !! i ≫= (.!! j).
Proof.
  intros [Hsh Hcells]%final_writes_blanks. split; [done|].
  intros i j Hij. symmetry. apply Hcells. intros [Hq Hon]%list_elem_of_filter.
  apply Hij. apply on_board_all_cells in Hon. split; [done|].
  unfold cell_at in Hq. simpl in Hq. by rewrite cell_nonneg, !Nat2Z.id in Hq by lia.
Qed.

Lemma final_writes_only_blanks_witness :
  shape easy_solved = shape easy ∧
  ∀ i j : nat,
    ¬ (on_board (Z.of_nat i, Z.of_nat j) ∧ easy !! i ≫= (.!! j) = Some 0) →
    easy_solved !! i ≫= (.!! j) = easy !! i ≫= (.!! j).
Proof.
  apply (final_writes_only_blanks easy easy_solved easy_solved).
  vm_compute. reflexivity.
Defined.

(** So does approach 1, whether or not it finds a solution. *)
Theorem approach1_writes_only_blanks (g out after : Grid) :
  Approach1.sudoku_solver g = Returned out after →
  shape after = shape g ∧
  ∀ i j : nat,
    ¬ (on_board (Z.of_nat i, Z.of_nat j) ∧ g !! i ≫= (.!! j) = Some 0) →
    after !! i ≫= (.!! j) = g !! i ≫= (.!! j).
Proof.
  intros Hrun. pose proof (sudoku_solver_alike g) as H. rewrite Hrun in H.
  destruct (Final.sudoku_solver g) as [out2 after2| |] eqn:Hfin; try done.
  destruct H as (_ & Hagree & _).
  apply final_writes_blanks in Hfin.
  destruct (agree_off_trans _ _ _ _ Hfin (agree_off_sym _ _ _ Hagree)) as [Hsh Hcells].
  split; [done|].
  intros i j Hij. symmetry. apply Hcells. intros [Hq Hon]%list_elem_of_filter.
  apply Hij. apply on_board_all_cells in Hon. split; [done|].
  unfold cell_at in Hq. simpl in Hq. by rewrite cell_nonneg, !Nat2Z.id in Hq by lia.
Qed.

Lemma approach1_writes_only_blanks_witness :
  shape easy_solved = shape two_blanks ∧
  ∀ i j : nat,
    ¬ (on_board (Z.of_nat i, Z.of_nat j) ∧ two_blanks !! i ≫= (.!! j) = Some 0) →
    easy_solved !! i ≫= (.!! j) = two_blanks !! i ≫= (.!! j).
Proof.
  apply (approach1_writes_only_blanks two_blanks easy_solved easy_solved).
  vm_compute. reflexivity.
Defined.

(** ** What approach 1 leaves behind *)

Lemma agree_off_cell E g g' p :
  on_board p → p ∉ E → agree_off E g g' → cell_at g p = cell_at g' p.
Proof.
  intros [Hp1 Hp2] Hp [_ Hcells]. unfold cell_at. rewrite !cell_nonneg by lia.
  apply Hcells. rewrite !Z2Nat.id by lia. by destruct p.
Qed.

(** Once a digit was placed in the chosen cell, the cell holds a digit
    whenever the loop over the digits gives up. *)
Lemma try_digits_stale depth p : ∀ ds a f loga,
  Forall (λ d, 1 ≤ d ≤ 9) ds → mirrors a f → Inv f →
  last (empty_cells f) = Some p →
  (∃ d', 1 ≤ d' ≤ 9 ∧ cell_at (board a) p = Some d') ∨
    (∃ d, d ∈ ds ∧ unused f p.1 p.2 d) →
  match Approach1.try_digits (Approach1.depth_first_search depth) p.1 p.2 ds a loga with
  | Finished None a' _ => ∃ d', 1 ≤ d' ≤ 9 ∧ cell_at (board a') p = Some d'
  | _ => True
  end.
Proof.
  intros ds. induction ds as [|d ds IH]; intros a f loga Hds HM HInv Hlast Hpre; simpl.
  { destruct Hpre as [H|(d & Hd & _)]; [done|set_solver]. }
  apply Forall_cons in Hds as [Hd Hds].
  pose proof (is_unsolvable_spec a p.1 p.2 d) as [Hsame Hclash].
  destruct (Approach1.is_unsolvable a p.1 p.2 d) as [clash ac]; simpl in *.
  assert (mirrors ac f) as HMc by eauto using mirrors_same_state, same_state_refl.
  pose proof Hsame as [Sb _ _ _ _].
  assert (on_board p ∧ cell_at (board f) p = Some 0) as [Hon H0].
  { destruct HInv as [_ [_ Hmem] _]. apply Hmem. by apply last_Some_elem_of. }
  destruct clash; simpl.
  - apply (IH ac f loga Hds HMc HInv Hlast).
    destruct Hpre as [H|(d0 & [->|Hd0]%elem_of_cons & Hun)].
    + left. by rewrite <- Sb.
    + apply (mirrors_unused a f) in Hun; [|done]. by apply Hclash in Hun.
    + right. eauto.
  - assert (unused f p.1 p.2 d) as Hun
      by (apply (mirrors_unused a f); [done|by apply Hclash]).
    destruct (place_Inv f p d) as (f1 & Hplace & HInv1 & Hset & Hemp & _ & _);
      [done..|lia|].
    destruct (mirrors_place ac f f1 p d) as (a1 & Hplace' & HM1);
      [done..|apply HInv|done|done|].
    rewrite Hplace'.
    pose proof (depth_first_search_alike depth a1 f1 HM1 HInv1) as Hrec.
    pose proof (depth_first_search_partial depth f1 HInv1) as Hok.
    destruct (Approach1.depth_first_search depth a1) as [| |[goal|] a2 loga2]; try done.
    destruct (Final.depth_first_search depth f1) as [| |[g|] f2 logf2]; try done.
    simpl in Hrec, Hok. destruct Hok as (Hs12 & _).
    destruct (undo_place f f1 f2 p d) as (f3 & Hundo & Hs3); [done..|].
    apply IH with (f := f); [done| |done|done|].
    + apply (mirrors_same_state (Approach1.revert_state a2 p.1 p.2 d) _ f3 f);
        [apply same_state_refl|by apply same_state_sym|].
      by apply (mirrors_undo a2 f2).
    + left. exists d. split; [done|]. unfold Approach1.revert_state. simpl.
      destruct HInv as [_ [Hnd _] _]. rewrite Hemp in Hnd.
      apply NoDup_app in Hnd as (_ & Hnp & _).
      destruct Hs12 as [Sb2 Se2 _ _ _]. destruct Hrec as [Mb2 _ _ _ _].
      rewrite (agree_off_cell (empty_cells f2) (board a2) (board f2) p); [|done| |done].
      * rewrite <- Sb2. unfold cell_at. destruct Hon.
        by apply (cell_set_same (board f) (board f1) p.1 p.2 d); [lia..|].
      * rewrite <- Se2. intros Hin. apply (Hnp p Hin). set_solver.
Qed.

Lemma fitting_digit_unused st p d :
  Inv st → (∀ q, on_board q → same_unit p q → cell_at (board st) q ≠ Some d) →
  unused st p.1 p.2 d.
Proof.
  intros [_ _ [Hr Hc Hb _ _ _]] Hfree. unfold unused. split_and!.
  - intros (q & Hq & Hon & Hv & _)%Hr. apply (Hfree q Hon); [|done]. by left.
  - intros (q & Hq & Hon & Hv & _)%Hc. apply (Hfree q Hon); [|done]. by right; left.
  - intros (q & Hq & Hon & Hv & _)%Hb. apply (Hfree q Hon); [|done]. by right; right.
Qed.

Lemma scanned_no_duplicate g st :
  Final.scan_rows range9 (fresh_state g) = Scanned st → ¬ duplicate_clue g.
Proof.
  intros Hscan. pose proof (final_scan_ok g) as Hok. rewrite Hscan in Hok.
  by destruct Hok as (_ & _ & _ & ?).
Qed.

Lemma approach1_stale g out after p d :
  Approach1.sudoku_solver g = Returned out after → ¬ duplicate_clue g →
  last (filter (λ p, cell_at g p = Some 0) all_cells) = Some p →
  1 ≤ d ≤ 9 → (∀ q, on_board q → same_unit p q → cell_at g q ≠ Some d) →
  ∃ d', 1 ≤ d' ≤ 9 ∧ cell_at after p = Some d'.
Proof.
  intros Hrun Hnodup Hlast Hd Hfree.
  pose proof (scan_rows_alike Approach1.is_unsolvable Final.clue_clashes
                is_unsolvable_spec clue_clashes_spec range9
                (fresh_state g) (fresh_state g) (same_state_refl _)) as Hscan.
  pose proof (final_scan_ok g) as Hok.
  unfold Approach1.sudoku_solver, Approach1.SudokuState, Final.scan_rows in *.
  destruct (scan_rows Approach1.is_unsolvable range9 (fresh_state g)) as [a| |],
    (scan_rows Final.clue_clashes range9 (fresh_state g)) as [f| |]; try done.
  simpl in Hscan, Hok. destruct Hok as (HInv & Hb & Hempty & _).
  pose proof (scanned_states_mirror a f Hscan) as HM.
  pose proof HM as [_ Me _ _ _]. rewrite Me in Hrun. rewrite <- Hempty in Hlast.
  assert (unused f p.1 p.2 d) as Hun by (apply fitting_digit_unused; by rewrite ?Hb).
  pose proof Hlast as [l Hl]%last_Some.
  rewrite Hl, length_app, Nat.add_1_r in Hrun.
  cbn [Approach1.depth_first_search] in Hrun.
  unfold Approach1.is_goal_state, Approach1.choose_cell in Hrun.
  rewrite Me, Hlast in Hrun.
  rewrite bool_decide_false in Hrun by (rewrite Hl, length_app; simpl; lia).
  assert (Forall (λ d, 1 ≤ d ≤ 9) digits) as Hds
    by (apply Forall_forall; intros d0 Hd0%elem_of_seqZ; lia).
  assert (d ∈ digits) as Hdin by (apply elem_of_seqZ; lia).
  pose proof (try_digits_stale (length l) p digits a f [] Hds HM HInv Hlast
                (or_intror (ex_intro _ d (conj Hdin Hun)))) as Hstale.
  pose proof (try_digits_alike (length l) p
                (depth_first_search_alike (length l)) digits a f [] [] Hds HM HInv Hlast)
    as Hrec.
  pose proof (depth_first_search_ok (S (length l)) f HInv) as Hdfs.
  rewrite Hl, length_app, Nat.add_1_r in Hdfs. specialize (Hdfs (le_n _)).
  cbn [Final.depth_first_search] in Hdfs. unfold Final.choose_cell in Hdfs.
  rewrite Hlast in Hdfs. destruct p as [row col]. cbn [fst snd] in *.
  destruct (Approach1.try_digits (Approach1.depth_first_search (length l)) row col digits a [])
    as [| |[goal|] a2 loga]; try done.
  - destruct (Final.try_digits (Final.depth_first_search (length l)) row col digits f [])
      as [| |[gf|] f2 logf]; try done.
    simpl in Hrec, Hdfs. destruct Hrec as [_ Hboards].
    destruct Hdfs as (_ & _ & _ & [_ Hcomp] & _).
    injection Hrun as _ <-. rewrite Hboards.
    assert ((row, col) ∈ empty_cells f) as Hin by (by apply last_Some_elem_of).
    destruct HInv as [_ [_ Hmem] _]. apply Hmem in Hin as [Hon H0].
    specialize (Hcomp (row, col) 0 Hon H0). by rewrite decide_True in Hcomp.
  - by injection Hrun as _ <-.
Qed.

(** Approach 1 does not give the grid back as it was when it fails: if no
    clue is repeated and some digit fits the last empty cell, that cell
    holds a digit after the call, whatever the answer. *)
Theorem approach1_leaves_digits (g out after : Grid) (p : Z * Z) (d : Z) :
  Approach1.sudoku_solver g = Returned out after → ¬ duplicate_clue g →
  last (filter (λ p, cell_at g p = Some 0) all_cells) = Some p →
  1 ≤ d ≤ 9 → (∀ q, on_board q → same_unit p q → cell_at g q ≠ Some d) →
  cell_at g p = Some 0 ∧ ∃ d', 1 ≤ d' ≤ 9 ∧ cell_at after p = Some d'.
Proof.
  intros Hrun Hnodup Hlast Hd Hfree. split; [|by eapply approach1_stale].
  apply last_Some_elem_of in Hlast. by apply list_elem_of_filter in Hlast as [? _].
Qed.

Lemma approach1_leaves_digits_witness :
  match Approach1.sudoku_solver dead_end with
  | Returned out after =>
    out = invalid_sudoku ∧ cell_at dead_end (8, 8) = Some 0 ∧
    ∃ d', 1 ≤ d' ≤ 9 ∧ cell_at after (8, 8) = Some d'
  | _ => False
  end.
Proof.
  destruct (Approach1.sudoku_solver dead_end) as [out after| |] eqn:E;
    try (vm_compute in E; discriminate E).
  split; [vm_compute in E; by injection E as <- _|].
  apply (approach1_leaves_digits dead_end out after (8, 8) 9 E).
  - apply (scanned_no_duplicate dead_end (scanned_state dead_end)).
    vm_compute. reflexivity.
  - vm_compute. reflexivity.
  - lia.
  - intros q Hq%on_board_all_cells. revert q Hq.
    apply (proj1 (Forall_forall
                    (λ q, same_unit (8, 8) q → cell_at dead_end q ≠ Some 9) all_cells)).
    by_computation.
Defined.

(** * Which solution is returned *)

Lemma try_digits_least search p :
  (∀ st1, Inv st1 → search_ok True st1 (search st1) ∧ search_least st1 (search st1)) →
  ∀ n a st log,
    1 ≤ a → a + Z.of_nat n ≤ 10 → Inv st → last (empty_cells st) = Some p →
    match Final.try_digits search p.1 p.2 (seqZ a (Z.of_nat n)) st log with
    | Finished (Some _) st' _ =>
      ∀ sol d, valid_solution sol → keeps_clues (board st) sol →
        cell_at sol p = Some d → a ≤ d →
        lex_le (unit_vals (board st') (reverse (empty_cells st)))
               (unit_vals sol (reverse (empty_cells st)))
    | _ => True
    end.
Proof.
  intros Hsearch n. induction n as [|n IH]; intros a st log Ha Han HInv Hlast; [done|].
  rewrite Nat2Z.inj_succ, seqZ_cons by lia. rewrite Z.pred_succ.
  cbn [Final.try_digits].
  pose proof (digit_fits_spec st p.1 p.2 a) as [Hsame Hfits].
  destruct (Final.digit_fits st p.1 p.2 a) as [fits stc]; simpl in Hsame, Hfits.
  assert (Inv stc) as HInvc by eauto using Inv_same_state.
  pose proof Hsame as [Sb Se _ _ _].
  assert (on_board p ∧ cell_at (board st) p = Some 0) as [Hon H0].
  { destruct HInv as [_ [_ Hmem] _]. apply Hmem. by apply last_Some_elem_of. }
  destruct fits.
  - assert (unused st p.1 p.2 a) as Hun by (by apply Hfits).
    destruct (place_Inv stc p a) as (st1 & Hplace & HInv1 & Hset & Hemp & _ & _);
      [done|by rewrite <- Se|by apply (unused_same_state st)|lia|].
    rewrite Hplace.
    destruct (Hsearch st1 HInv1) as [Hok Hleast].
    destruct (search st1) as [| |[g|] st2 log2]; simpl in Hok, Hleast; try done.
    + intros sol d Hv Hk Hd Had.
      destruct Hok as (_ & _ & _ & [_ Hcomp] & _).
      assert (cell_at (board st2) p = Some a) as Hpa.
      { specialize (Hcomp p a Hon). rewrite decide_False in Hcomp by lia. apply Hcomp.
        destruct Hon. by apply (cell_set_same (board stc) (board st1) p.1 p.2 a); [lia..|]. }
      rewrite Se, Hemp, reverse_snoc. unfold unit_vals. simpl. rewrite Hpa, Hd. simpl.
      destruct (decide (d = a)) as [->|Hne]; [right|left; lia]. split; [done|].
      apply Hleast; [done|].
      apply (keeps_clues_place (board stc) (board st1) sol p a); try done.
      by rewrite <- Sb.
    + destruct Hok as (Hs12 & _ & Hnone).
      destruct (undo_place stc st1 st2 p a) as (st3 & Hundo & Hs3);
        [done|by rewrite <- Sb|by apply (unused_same_state st)|by rewrite <- Se|done..|].
      rewrite Hundo.
      assert (same_state st st3) as Hs by eauto using same_state_trans.
      pose proof Hs as [Sb3 Se3 _ _ _].
      assert (Inv st3) as HInv3 by (by apply (Inv_same_state st)).
      specialize (IH (Z.succ a) st3 (log ++ st1 :: log2 ++ [st3])).
      rewrite <- Se3, <- Sb3 in IH. specialize (IH ltac:(lia) ltac:(lia) HInv3 Hlast).
      destruct (Final.try_digits search p.1 p.2 (seqZ (Z.succ a) (Z.of_nat n)) st3
                  (log ++ st1 :: log2 ++ [st3])) as [| |[g|] st' log']; try done.
      intros sol d Hv Hk Hd Had. apply (IH sol d Hv Hk Hd).
      destruct (decide (d = a)) as [->|Hne]; [|lia].
      destruct (Hnone sol Hv).
      apply (keeps_clues_place (board stc) (board st1) sol p a); try done.
      by rewrite <- Sb.
  - specialize (IH (Z.succ a) stc log).
    rewrite <- Se, <- Sb in IH. specialize (IH ltac:(lia) ltac:(lia) HInvc Hlast).
    destruct (Final.try_digits search p.1 p.2 (seqZ (Z.succ a) (Z.of_nat n)) stc log)
      as [| |[g|] st' log']; try done.
    intros sol d Hv Hk Hd Had. apply (IH sol d Hv Hk Hd).
    destruct (decide (d = a)) as [->|Hne]; [|lia].
    assert (unused st p.1 p.2 a) as Hun by (by apply (solution_digit_unused st sol)).
    by apply Hfits in Hun.
Qed.

Lemma depth_first_search_least depth : ∀ st,
  Inv st → search_least st (Final.depth_first_search depth st).
Proof.
  induction depth as [|depth IH]; intros st HInv;
    cbn [Final.depth_first_search]; unfold Final.choose_cell;
    destruct (last (empty_cells st)) as [[row col]|] eqn:Hlast.
  - done.
  - apply last_None in Hlast. simpl. by rewrite Hlast.
  - pose proof (try_digits_least (Final.depth_first_search depth) (row, col)) as Hloop.
    specialize (Hloop (λ st1 H1, conj (depth_first_search_partial depth st1 H1) (IH st1 H1))
                  9%nat 1 st [] ltac:(lia) ltac:(lia) HInv Hlast).
    cbn [fst snd] in Hloop. change (seqZ 1 (Z.of_nat 9)) with digits in Hloop.
    destruct (Final.try_digits (Final.depth_first_search depth) row col digits st [])
      as [| |[g|] st' log']; try done.
    intros sol Hv Hk.
    assert (on_board (row, col)) as Hon.
    { destruct HInv as [_ [_ Hmem] _]. apply Hmem. by apply last_Some_elem_of. }
    destruct (valid_digit sol (row, col) Hv Hon) as (d & Hd & Hsol).
    apply (Hloop sol d Hv Hk Hsol). lia.
  - apply last_None in Hlast. simpl. by rewrite Hlast.
Qed.

(** When the puzzle has several solutions, the one returned is the first
    in the order of the search: read at the empty cells from the last one
    back to the first, it is the least. *)
Theorem first_solution_is_least (g out after sol : Grid) :
  Final.sudoku_solver g = Returned out after →
  valid_solution sol → keeps_clues g sol →
  completes g out ∧
  lex_le (unit_vals out (fill_order g)) (unit_vals sol (fill_order g)).
Proof.
  intros Hrun Hv Hk. pose proof (final_scan_ok g) as Hscan.
  unfold Final.sudoku_solver, Final.solve_sudoku in Hrun.
  destruct (Final.scan_rows range9 (fresh_state g)) as [st| |]; simpl in Hscan; [| |done].
  - destruct Hscan as (HInv & Hb & Hempty & _).
    pose proof (depth_first_search_ok (length (empty_cells st)) st HInv (le_n _)) as Hdfs.
    pose proof (depth_first_search_least (length (empty_cells st)) st HInv) as Hleast.
    destruct (Final.depth_first_search (length (empty_cells st)) st)
      as [| |[gf|] st' log]; simpl in Hdfs, Hleast; try done.
    + destruct Hdfs as (-> & _ & _ & Hcomp & _). injection Hrun as <- _.
      rewrite Hb in *. split; [done|]. unfold fill_order. rewrite <- Hempty.
      by apply Hleast.
    + destruct Hdfs as (_ & _ & Hnone). destruct (Hnone sol Hv). by rewrite Hb.
  - destruct Hscan as (p & q & v & Hp & Hq & Hne & Hv0 & Hpv & Hqv & Hs).
    destruct Hne. apply (valid_NoClash sol Hv p q v Hs); split_and!; eauto.
Qed.

Lemma first_solution_is_least_witness :
  completes two_ways easy_solved ∧
  lex_le (unit_vals easy_solved (fill_order two_ways))
         (unit_vals other_way (fill_order two_ways)).
Proof.
  apply (first_solution_is_least two_ways easy_solved easy_solved other_way).
  - vm_compute. reflexivity.
  - by_computation.
  - apply keeps_cluesb_true. vm_compute. reflexivity.
Defined.

(** * The heap variant *)

(** ** The heap operations keep the elements *)

Lemma insert_cons_perm {A} (l : list A) (j : nat) (x y : A) :
  l !! j = Some y → y :: <[j := x]> l ≡ₚ x :: l.
Proof.
  revert j. induction l as [|b t IH]; intros [|j] Hj; simplify_eq/=.
  - apply Permutation_swap.
  - rewrite Permutation_swap, (IH j Hj). apply Permutation_swap.
Qed.

Lemma insert_exchange_perm {A} (l : list A) (i : nat) (x y : A) :
  (i < length l)%nat → x :: <[i := y]> l ≡ₚ y :: <[i := x]> l.
Proof.
  revert i. induction l as [|b t IH]; intros [|i] Hi; simpl in *; try lia.
  - apply Permutation_swap.
  - rewrite Permutation_swap, (IH i) by lia. apply Permutation_swap.
Qed.

(** Moving [y] from position [j] to position [i] and putting [x] at [j]
    holds the same elements as putting [x] at [i]. *)
Lemma insert_swap_perm {A} (l : list A) (i j : nat) (x y : A) :
  i ≠ j → l !! j = Some y → (i < length l)%nat →
  <[j := x]> (<[i := y]> l) ≡ₚ <[i := x]> l.
Proof.
  revert i j. induction l as [|a t IH]; intros [|i] [|j] Hne Hj Hi;
    simplify_eq/=; try lia.
  - by apply insert_cons_perm.
  - apply insert_exchange_perm. lia.
  - f_equiv. apply IH; [congruence|done|lia].
Qed.

Lemma siftdown_perm fuel : ∀ heap x pos,
  (pos < length heap)%nat → Heap.siftdown fuel heap x pos ≡ₚ <[pos := x]> heap.
Proof.
  induction fuel as [|fuel IH]; intros heap x pos Hpos; simpl; [done|].
  case_bool_decide as Hp; [|done].
  destruct (heap !! Nat.div2 (pos - 1)) as [parent|] eqn:Hparent; [|done].
  destruct (Heap.tuple_lt x parent); [|done].
  assert (Nat.div2 (pos - 1) < pos)%nat as Hlt.
  { pose proof (Nat.div2_decr (pos - 1) (pos - 1) ltac:(lia)). lia. }
  rewrite IH by (rewrite length_insert; lia).
  apply insert_swap_perm; [lia|done|done].
Qed.

Lemma heappush_perm heap item : Heap.heappush heap item ≡ₚ item :: heap.
Proof.
  unfold Heap.heappush. rewrite siftdown_perm by (rewrite length_app; simpl; lia).
  replace (length heap) with (length heap + 0)%nat by lia.
  rewrite insert_app_r. simpl. by rewrite <- Permutation_cons_append.
Qed.

Lemma list_remove_perm x l :
  x ∈ l → ∃ l', Heap.list_remove x l = Some l' ∧ l ≡ₚ x :: l'.
Proof.
  induction l as [|y l IH]; [set_solver|]. intros Hin. simpl.
  case_decide as Hxy; [subst; eauto|].
  destruct IH as (l' & -> & Hl'); [set_solver|]. simpl. eexists. split; [done|].
  rewrite Hl'. apply Permutation_swap.
Qed.

(** ** States up to the order of the empty cells *)

Lemma same_state_perm st st' : same_state st st' → same_perm st st'.
Proof. intros [Hb He Hr Hc Hx]. split; try done. by rewrite He. Qed.

Lemma same_perm_refl st : same_perm st st.
Proof. by split. Qed.

Lemma same_perm_sym st st' : same_perm st st' → same_perm st' st.
Proof. intros []. by split. Qed.

Lemma same_perm_trans st1 st2 st3 :
  same_perm st1 st2 → same_perm st2 st3 → same_perm st1 st3.
Proof. intros [] []. split; intros; etrans; eauto. Qed.

Lemma Inv_same_perm st st' : same_perm st st' → Inv st → Inv st'.
Proof.
  intros [Hb He Hr Hc Hx] [Hcells [Hnd Hmem] Ht]. split.
  - by rewrite <- Hb.
  - split; [by rewrite <- He|]. intros p. by rewrite <- He, <- Hb.
  - rewrite <- Hb. by apply (Tracks_proper _ _ _ _ _ _ _ _ Hr Hc Hx (λ _ _, reflexivity _)).
Qed.

Lemma unused_same_perm st st' row col digit :
  same_perm st st' → unused st row col digit → unused st' row col digit.
Proof. intros [_ _ Hr Hc Hx]. unfold unused. by rewrite Hr, Hc, Hx. Qed.

Lemma same_heap_refl st : same_heap st st.
Proof. split; [apply same_perm_refl|done]. Qed.

Lemma same_heap_trans st1 st2 st3 :
  same_heap st1 st2 → same_heap st2 st3 → same_heap st1 st3.
Proof.
  intros [H1 M1] [H2 M2]. split; [by eapply same_perm_trans|].
  intros c. by rewrite M1.
Qed.

Lemma HeapInv_same_heap st st' : same_heap st st' → HeapInv st → HeapInv st'.
Proof.
  intros [Hs Hm] [HInv Htr]. split; [by apply (Inv_same_perm (Heap.base st))|].
  intros c r. rewrite <- Hm, <- (perm_empty _ _ Hs). apply Htr.
Qed.

(** The legality test leaves a state with the same contents. *)
Lemma heap_test_same st row col d :
  same_heap st (Heap.mkSudokuState (Approach1.is_unsolvable (Heap.base st) row col d).2
                  (Heap.col_to_missing_rows st)).
Proof.
  split; [|done]. simpl. apply same_state_perm, is_unsolvable_spec.
Qed.

(** ** Placing and reverting *)

Lemma heap_place st p d :
  HeapInv st → p ∈ empty_cells (Heap.base st) → unused (Heap.base st) p.1 p.2 d → d ≠ 0 →
  ∃ st1, Heap.place_digit st p.1 p.2 d = Heap.Placed st1 ∧ HeapInv st1 ∧
         set_cell (board (Heap.base st)) p.1 p.2 d = Some (board (Heap.base st1)) ∧
         empty_cells (Heap.base st) ≡ₚ p :: empty_cells (Heap.base st1) ∧
         on_board p ∧ cell_at (board (Heap.base st)) p = Some 0.
Proof.
  intros [[Hcells [Hnd Hmem] Htr] Hmiss] Hin (Hr & Hc & Hb) Hd.
  unfold tracks_missing in Hmiss.
  assert (on_board p ∧ cell_at (board (Heap.base st)) p = Some 0) as [Hon H0]
    by (by apply Hmem).
  pose proof Hon as [Hp1 Hp2].
  destruct (set_cell_is_Some (board (Heap.base st)) p.1 p.2 d 0) as [g' Hg']; [lia..|done|].
  destruct (list_remove_perm p (empty_cells (Heap.base st)) Hin) as (l & Hrem & Hl).
  unfold Heap.place_digit. rewrite Hg'. simpl.
  replace (p.1, p.2) with p by (by destruct p). rewrite Hrem.
  eexists. split; [done|]. simpl.
  rewrite Hl in Hnd. apply NoDup_cons in Hnd as [Hnp Hndl].
  assert (∀ q, q ∈ l ↔ q ∈ empty_cells (Heap.base st) ∧ q ≠ p) as Hl'.
  { intros q. rewrite Hl. split; [|set_solver]. intros Hq. split; [set_solver|].
    by intros ->. }
  split_and!; try done. split; [split|]; simpl.
  - intros q [Hq1 Hq2]. unfold cell_at. destruct (decide (q = p)) as [->|Hne].
    + rewrite (cell_set_same (board (Heap.base st)) g' p.1 p.2 d) by (done || lia). eauto.
    + rewrite (cell_set_other (board (Heap.base st)) g' p.1 p.2 d);
        [by apply Hcells|lia..| |done].
      intros Heq. apply Hne. by destruct q, p; simplify_eq/=.
  - split; [done|]. simpl. intros q. rewrite Hl'.
    pose proof (filled_set_cell _ _ _ _ Hon H0 Hd Hg') as HF.
    split.
    + intros [Hq Hne]. destruct (proj1 (Hmem q) Hq) as [[Hq1 Hq2] Hq0]. split; [done|].
      unfold cell_at in *.
      rewrite (cell_set_other (board (Heap.base st)) g' p.1 p.2 d); [done|lia..| |done].
      intros Heq. apply Hne. by destruct q, p; simplify_eq/=.
    + intros [[Hq1 Hq2] Hq0].
      assert (q ≠ p) as Hne.
      { intros ->. unfold cell_at in Hq0.
        rewrite (cell_set_same (board (Heap.base st)) g' p.1 p.2 d) in Hq0 by (done || lia).
        congruence. }
      split; [|done]. apply Hmem. split; [done|]. unfold cell_at in *.
      rewrite (cell_set_other (board (Heap.base st)) g' p.1 p.2 d) in Hq0; [done|lia..| |done].
      intros Heq. apply Hne. by destruct q, p; simplify_eq/=.
  - unfold Approach1._grid_key. fold (sub_grid_no p.1 p.2).
    eapply Tracks_add; [|done..]. by apply filled_set_cell.
  - unfold tracks_missing. simpl. intros c r. rewrite dd_peek_discard, Hl'.
    case_decide as Hc'.
    + subst c. rewrite elem_of_difference, Hmiss, not_elem_of_singleton.
      split; intros [H1 H2]; (split; [done|]).
      * intros Heq. apply H2. by rewrite <- Heq.
      * intros ->. apply H2. by destruct p.
    + rewrite Hmiss. split; [|by intros [? _]]. intros Hq. split; [done|].
      intros <-. by apply Hc'.
Qed.

Lemma heap_revert st st1 st2 p d :
  HeapInv st → p ∈ empty_cells (Heap.base st) → unused (Heap.base st) p.1 p.2 d →
  Heap.place_digit st p.1 p.2 d = Heap.Placed st1 → same_heap st1 st2 →
  ∃ st3, Heap.revert_state st2 p.1 p.2 d = Some st3 ∧ same_heap st st3.
Proof.
  intros [[Hcells [Hnd Hmem] Htr] Hmiss] Hin (Hr & Hc & Hb) Hplace [[Sb Se Sr Sc Sx] Sm].
  assert (on_board p ∧ cell_at (board (Heap.base st)) p = Some 0) as [[Hp1 Hp2] H0]
    by (by apply Hmem).
  unfold Heap.place_digit in Hplace.
  destruct (set_cell (board (Heap.base st)) p.1 p.2 d) as [g'|] eqn:Hg'; [|done].
  simpl in Hplace. replace (p.1, p.2) with p in Hplace by (by destruct p).
  destruct (list_remove_perm p (empty_cells (Heap.base st)) Hin) as (l & Hrem & Hl).
  rewrite Hrem in Hplace. injection Hplace as <-. simpl in *.
  unfold Heap.revert_state. rewrite <- Sb.
  rewrite (set_cell_restore (board (Heap.base st)) g' p.1 p.2 d 0) by (done || lia). simpl.
  eexists. split; [done|]. split; [split|]; simpl.
  - done.
  - replace (p.1, p.2) with p by (by destruct p).
    by rewrite heappush_perm, <- Se, Hl.
  - intros k. rewrite dd_peek_discard, <- !Sr, <- dd_peek_discard.
    by rewrite dd_peek_discard_add.
  - intros k. rewrite dd_peek_discard, <- !Sc, <- dd_peek_discard.
    by rewrite dd_peek_discard_add.
  - intros k. unfold Approach1._grid_key in *. fold (sub_grid_no p.1 p.2) in *.
    rewrite dd_peek_discard, <- !Sx, <- dd_peek_discard.
    by rewrite dd_peek_discard_add.
  - intros c. rewrite dd_peek_add, <- !Sm, !dd_peek_discard.
    destruct (decide (p.2 = c)) as [<-|Hc']; [|done]. rewrite decide_True by done.
    assert (p.1 ∈ dd_peek (Heap.col_to_missing_rows st) p.2) as Hrow
      by (apply Hmiss; by destruct p).
    apply set_eq. intros r. rewrite elem_of_union, elem_of_difference, elem_of_singleton.
    split; [|intros [[? ?]| ->]; done]. intros Hr'.
    destruct (decide (r = p.1)); [by right|by left].
Qed.

Lemma heap_choose_cell_elem st :
  empty_cells (Heap.base st) ≠ [] →
  ∃ p, Heap.choose_cell st = Some p ∧ p ∈ empty_cells (Heap.base st) ∧
       ∀ q, q ∈ empty_cells (Heap.base st) →
         (size (dd_peek (Heap.col_to_missing_rows st) p.2)
          ≤ size (dd_peek (Heap.col_to_missing_rows st) q.2))%nat.
Proof.
  intros Hne. unfold Heap.choose_cell, Approach3.choose_cell, Approach3.nsmallest1. simpl.
  destruct (py_min_spec (λ tpl : Z * Z, size (dd_peek (Heap.col_to_missing_rows st) tpl.2))
              (empty_cells (Heap.base st)) Hne) as (p & -> & Hin & Hmin).
  by exists p.
Qed.

(** ** The search *)

Lemma heap_try_digits_ok search p n :
  (∀ st1, HeapInv st1 → length (empty_cells (Heap.base st1)) = n →
     heap_search_ok st1 (search st1)) →
  ∀ ds st log,
    Forall (λ d, 1 ≤ d ≤ 9) ds → HeapInv st →
    p ∈ empty_cells (Heap.base st) → length (empty_cells (Heap.base st)) = S n →
    Forall HeapInv log →
    heap_loop_ok st p ds (Heap.try_digits search p.1 p.2 ds st log).
Proof.
  intros Hsearch ds. induction ds as [|d ds IH]; intros st log Hds HInv Hin Hlen Hlog; simpl.
  { split_and!; [apply same_heap_refl | done | set_solver]. }
  apply Forall_cons in Hds as [Hd Hds].
  pose proof (heap_test_same st p.1 p.2 d) as Hsame.
  pose proof (is_unsolvable_spec (Heap.base st) p.1 p.2 d) as [Hsameb Hclash].
  destruct (Approach1.is_unsolvable (Heap.base st) p.1 p.2 d) as [clash b]; simpl in *.
  set (stc := Heap.mkSudokuState b (Heap.col_to_missing_rows st)) in *.
  assert (HeapInv stc) as HInvc by eauto using HeapInv_same_heap.
  pose proof Hsameb as [Sb Se _ _ _].
  assert (on_board p ∧ cell_at (board (Heap.base st)) p = Some 0) as [Hon H0].
  { destruct HInv as [[_ [_ Hmem] _] _]. by apply Hmem. }
  assert (p ∈ empty_cells (Heap.base stc)) as Hinc by (simpl; by rewrite <- Se).
  assert (length (empty_cells (Heap.base stc)) = S n) as Hlenc by (simpl; by rewrite <- Se).
  destruct clash.
  - specialize (IH stc log Hds HInvc Hinc Hlenc Hlog).
    destruct (Heap.try_digits search p.1 p.2 ds stc log) as [| | |goal st' log'|st' log'];
      simpl in *; try done.
    + by rewrite Sb.
    + destruct IH as (Hs' & Hlog' & Hnone').
      split_and!; [eauto using same_heap_trans|done|].
      intros sol d' Hv Hk Hd'. apply not_elem_of_cons. split.
      * intros ->. assert (unused (Heap.base st) p.1 p.2 d) as Hun
          by (by apply (solution_digit_unused (Heap.base st) sol); [apply HInv|..]).
        by apply Hclash in Hun.
      * apply (Hnone' sol d' Hv); [by rewrite <- Sb|done].
  - assert (unused (Heap.base st) p.1 p.2 d) as Hun by (by apply Hclash).
    destruct (heap_place stc p d) as (st1 & Hplace & HInv1 & Hset & Hemp & _ & _);
      [done|done|by apply (unused_same_state (Heap.base st))|lia|].
    rewrite Hplace.
    assert (length (empty_cells (Heap.base st1)) = n) as Hlen1.
    { rewrite Hemp in Hlenc. simpl in Hlenc. lia. }
    specialize (Hsearch st1 HInv1 Hlen1).
    destruct (search st1) as [| | |goal st2 log2|st2 log2]; simpl in Hsearch; try done.
    + destruct Hsearch as (-> & HInv2 & Hemp2 & Hcomp & Hlog2). split_and!; try done.
      * apply (completes_place (board (Heap.base st)) (board (Heap.base st1)) _ p d);
          try done. by rewrite Sb.
      * apply Forall_app. split; [done|]. by constructor.
    + destruct Hsearch as (Hs12 & Hlog2 & Hnone).
      destruct (heap_revert stc st1 st2 p d) as (st3 & Hrevert & Hs3);
        [done|done|by apply (unused_same_state (Heap.base st))|done..|].
      rewrite Hrevert.
      assert (same_heap st st3) as Hs by eauto using same_heap_trans.
      pose proof Hs as [[Sb3 Se3 _ _ _] _].
      assert (HeapInv st3) as HInv3 by eauto using HeapInv_same_heap.
      assert (Forall HeapInv (log ++ st1 :: log2 ++ [st3])) as Hlog3.
      { rewrite Forall_app, Forall_cons, Forall_app, Forall_singleton. by split_and!. }
      specialize (IH st3 (log ++ st1 :: log2 ++ [st3]) Hds HInv3).
      rewrite <- Se3 in IH. specialize (IH Hin Hlen Hlog3).
      destruct (Heap.try_digits search p.1 p.2 ds st3 (log ++ st1 :: log2 ++ [st3]))
        as [| | |goal st' log'|st' log']; simpl in *; try done.
      * by rewrite Sb3.
      * destruct IH as (Hs' & Hlog' & Hnone').
        split_and!; [eauto using same_heap_trans|done|].
        intros sol d' Hv Hk Hd'. apply not_elem_of_cons. split.
        -- intros ->. apply (Hnone sol Hv).
           apply (keeps_clues_place (board (Heap.base st)) (board (Heap.base st1)) sol p d);
             try done. by rewrite Sb.
        -- apply (Hnone' sol d' Hv); [by rewrite <- Sb3|done].
Qed.

(** With room for one nested call per empty cell the search keeps its
    promises. *)
Lemma heap_depth_first_search_ok depth : ∀ st,
  HeapInv st → (length (empty_cells (Heap.base st)) ≤ depth)%nat →
  heap_search_ok st (Heap.depth_first_search depth st).
Proof.
  induction depth as [|depth IH]; intros st HInv Hlen;
    cbn [Heap.depth_first_search]; unfold Heap.is_goal_state;
    case_bool_decide as Hnil.
  - apply length_zero_iff_nil in Hnil. simpl.
    split_and!; try done. apply completes_full; [apply HInv|done].
  - lia.
  - apply length_zero_iff_nil in Hnil. simpl.
    split_and!; try done. apply completes_full; [apply HInv|done].
  - destruct (heap_choose_cell_elem st) as ([row col] & -> & Hin & _).
    { intros Heq. by rewrite Heq in Hnil. }
    pose proof (heap_try_digits_ok (Heap.depth_first_search depth) (row, col)
                  (length (empty_cells (Heap.base st)) - 1)) as Hloop.
    assert (Forall (λ d, 1 ≤ d ≤ 9) digits) as Hds
      by (apply Forall_forall; intros d Hd%elem_of_seqZ; lia).
    specialize (Hloop (λ st1 H1 H2, IH st1 H1 ltac:(lia)) digits st [] Hds HInv Hin
                  ltac:(lia) (Forall_nil_2 _)).
    cbn [fst snd] in Hloop.
    destruct (Heap.try_digits (Heap.depth_first_search depth) row col digits st [])
      as [| | |goal st' log'|st' log']; cbn [heap_loop_ok heap_search_ok] in *; try done.
    destruct Hloop as (Hs & Hlog & Hnone).
    split; [done|]. split; [done|]. intros sol Hv Hk.
    assert (on_board (row, col)) as Hon.
    { destruct HInv as [[_ [_ Hmem] _] _]. by apply Hmem. }
    destruct (valid_digit sol (row, col) Hv Hon) as (d & Hd & Hsol).
    apply (Hnone sol d Hv Hk Hsol). apply elem_of_seqZ. lia.
Qed.

(** ** The constructor *)

Lemma init_cell_alike h st row col :
  same_perm (Heap.base h) st → tracks_missing h →
  init_alike (Heap.init_cell h row col) (scan_cell Approach1.is_unsolvable st row col).
Proof.
  intros Hs Hm. pose proof Hs as [Sb Se Sr Sc Sx].
  unfold Heap.init_cell, scan_cell. rewrite <- Sb.
  destruct (cell (board (Heap.base h)) row col) as [val|]; [|done].
  case_bool_decide.
  { split; [split|]; simpl; try done.
    - by rewrite heappush_perm, Se, <- Permutation_cons_append.
    - unfold tracks_missing in *. simpl. intros c r.
      rewrite dd_peek_add, heappush_perm, elem_of_cons. case_decide as Hc.
      + subst c. rewrite elem_of_union, elem_of_singleton, Hm. naive_solver.
      + rewrite Hm. naive_solver. }
  pose proof (is_unsolvable_spec (Heap.base h) row col val) as [H1 H1'].
  pose proof (is_unsolvable_spec st row col val) as [H2 H2'].
  destruct (Approach1.is_unsolvable (Heap.base h) row col val) as [b1 s1],
    (Approach1.is_unsolvable st row col val) as [b2 s2]; simpl in *.
  assert (b1 = b2) as ->.
  { destruct b1, b2; try done.
    - assert (unused (Heap.base h) row col val) as Hu
        by (apply (unused_same_perm st); [by apply same_perm_sym|by apply H2']).
      by apply H1' in Hu.
    - assert (unused st row col val) as Hu
        by (apply (unused_same_perm (Heap.base h)); [done|by apply H1']).
      by apply H2' in Hu. }
  destruct b2; [done|].
  assert (same_perm s1 s2) as [Tb Te Tr Tc Tx].
  { eapply same_perm_trans; [apply same_perm_sym, same_state_perm, H1|].
    eapply same_perm_trans; [done|]. by apply same_state_perm. }
  destruct H1 as [_ He1 _ _ _].
  split; [split|]; simpl; try done.
  - intros k. by rewrite !dd_peek_add, !Tr.
  - intros k. by rewrite !dd_peek_add, !Tc.
  - intros k. unfold Approach1._grid_key. fold (sub_grid_no row col).
    by rewrite !dd_peek_add, !Tx.
  - unfold tracks_missing in *. simpl. intros c r. by rewrite <- He1.
Qed.

Lemma init_cols_alike row cols : ∀ h st,
  same_perm (Heap.base h) st → tracks_missing h →
  init_alike (Heap.init_cols row cols h) (scan_cols Approach1.is_unsolvable row cols st).
Proof.
  induction cols as [|col cols IH]; intros h st Hs Hm;
    cbn [Heap.init_cols scan_cols]; [done|].
  pose proof (init_cell_alike h st row col Hs Hm) as Hc.
  destruct (Heap.init_cell h row col), (scan_cell Approach1.is_unsolvable st row col);
    try done.
  destruct Hc as [Hs' Hm']. exact (IH _ _ Hs' Hm').
Qed.

Lemma init_rows_alike rows : ∀ h st,
  same_perm (Heap.base h) st → tracks_missing h →
  init_alike (Heap.init_rows rows h) (scan_rows Approach1.is_unsolvable rows st).
Proof.
  induction rows as [|row rows IH]; intros h st Hs Hm;
    cbn [Heap.init_rows scan_rows]; [done|].
  pose proof (init_cols_alike row range9 h st Hs Hm) as Hc.
  destruct (Heap.init_cols row range9 h),
    (scan_cols Approach1.is_unsolvable row range9 st); try done.
  destruct Hc as [Hs' Hm']. exact (IH _ _ Hs' Hm').
Qed.

(** What the constructor guarantees. *)
Lemma heap_new_state_ok g :
  match Heap.new_state g with
  | Heap.Initialized st =>
    HeapInv st ∧ board (Heap.base st) = g ∧ ¬ duplicate_clue g ∧
    empty_cells (Heap.base st) ≡ₚ filter (λ p, cell_at g p = Some 0) all_cells
  | Heap.InitValueError => duplicate_clue g
  | Heap.InitIndexError => ∃ p, on_board p ∧ cell_at g p = None
  end.
Proof.
  assert (tracks_missing (Heap.mkSudokuState (fresh_state g) ∅)) as Hm0
    by (intros c r; set_solver).
  pose proof (init_rows_alike range9 (Heap.mkSudokuState (fresh_state g) ∅) (fresh_state g)
                (same_perm_refl _) Hm0) as Halike.
  pose proof (approach1_scan_ok g) as Hok. unfold Approach1.SudokuState in Hok.
  unfold Heap.new_state.
  destruct (Heap.init_rows range9 (Heap.mkSudokuState (fresh_state g) ∅)) as [h| |],
    (scan_rows Approach1.is_unsolvable range9 (fresh_state g)) as [st| |];
    simpl in Halike, Hok; try done.
  destruct Halike as [Hs Hm].
  destruct Hok as (HInv & Hb & Hemp & Hnd). pose proof Hs as [Sb Se _ _ _].
  split_and!; try done.
  - split; [|done]. by apply (Inv_same_perm st); [apply same_perm_sym|].
  - by rewrite Sb.
  - by rewrite Se, Hemp.
Qed.

(** ** The solver *)

Lemma heap_solver_cases g :
  wf_grid g →
  (duplicate_clue g ∧ Heap.sudoku_solver g = Returned invalid_sudoku g) ∨
  (¬ duplicate_clue g ∧ (∀ sol, valid_solution sol → keeps_clues g sol → False) ∧
   Heap.sudoku_solver g = Returned invalid_sudoku g) ∨
  (¬ duplicate_clue g ∧ ∃ st,
     Heap.sudoku_solver g = Returned (board st) (board st) ∧
     Inv st ∧ empty_cells st = [] ∧ completes g (board st)).
Proof.
  intros Hwf. pose proof (heap_new_state_ok g) as Hinit. unfold Heap.sudoku_solver.
  destruct (Heap.new_state g) as [st| |].
  - destruct Hinit as (HInv & Hb & Hnd & _). right.
    pose proof (heap_depth_first_search_ok _ st HInv (le_n _)) as Hdfs.
    destruct (Heap.depth_first_search (length (empty_cells (Heap.base st))) st)
      as [| | |goal st' log|st' log]; simpl in Hdfs; try done.
    + destruct Hdfs as (-> & [HInv' _] & Hnil & Hcomp & _). right. split; [done|].
      exists (Heap.base st'). by rewrite <- Hb.
    + destruct Hdfs as ([[Sb _ _ _ _] _] & _ & Hnone). left. rewrite <- Sb, Hb.
      split_and!; try done. by rewrite <- Hb.
  - by left.
  - destruct Hinit as (p & Hp & Hnone).
    destruct (wf_grid_cells g p Hwf Hp) as [v Hv]. congruence.
Qed.

(** The heap variant solves every 9x9 puzzle: it returns a solved grid
    that keeps the clues when there is one, and the grid of -1, with the
    caller's grid as it was, when there is none. *)
Theorem heap_solver_correct (g : Grid) :
  wf_grid g → digits_only g →
  ∃ out after, Heap.sudoku_solver g = Returned out after ∧
    ((out = invalid_sudoku ∧ after = g ∧
      ¬ ∃ sol, valid_solution sol ∧ keeps_clues g sol) ∨
     (valid_solution out ∧ keeps_clues g out ∧ after = out)).
Proof.
  intros Hwf Hdig.
  destruct (heap_solver_cases g Hwf)
    as [[Hdup H] | [(_ & Hnone & H) | (_ & st & H & HInv & _ & Hc)]]; rewrite H.
  - eexists _, _. split; [done|]. left. split_and!; try done.
    intros (sol & Hsol & Hk).
    destruct Hdup as (p & q & v & Hp & Hq & Hne & Hv0 & Hpv & Hqv & Hs).
    destruct Hne. apply (valid_NoClash sol Hsol p q v Hs); split_and!; eauto.
  - eexists _, _. split; [done|]. left. split_and!; try done.
    intros (sol & Hsol & Hk). by apply (Hnone sol).
  - eexists _, _. split; [done|]. right.
    split_and!; [by apply (completed_valid g)|by apply completes_keeps|done].
Qed.

Lemma heap_solver_correct_witness :
  ∃ out after, Heap.sudoku_solver easy = Returned out after ∧
    ((out = invalid_sudoku ∧ after = easy ∧
      ¬ ∃ sol, valid_solution sol ∧ keeps_clues easy sol) ∨
     (valid_solution out ∧ keeps_clues easy out ∧ after = out)).
Proof. apply (heap_solver_correct easy); [reflexivity|by_computation]. Defined.



(** ** Cell selection *)

Lemma missing_rows_count (b : State) (c : Z) (missing : gset Z) :
  I2 b → (∀ r, r ∈ missing ↔ (r, c) ∈ empty_cells b) →
  size missing = column_blanks (board b) c.
Proof.
  intros [_ Hmem] Hm. unfold column_blanks.
  set (L := filter (λ p : Z * Z, p.2 = c ∧ cell_at (board b) p = Some 0) all_cells).
  assert (NoDup L) as HL by apply NoDup_filter, NoDup_all_cells.
  assert (NoDup (fst <$> L)) as Hrows.
  { apply NoDup_fmap_2_strong; [|done].
    intros [r1 c1] [r2 c2] [[H1 _] _]%list_elem_of_filter [[H2 _] _]%list_elem_of_filter Heq.
    simpl in *. congruence. }
  assert (missing = list_to_set (fst <$> L)) as ->.
  { apply set_eq. intros r. rewrite Hm, Hmem, elem_of_list_to_set, list_elem_of_fmap. split.
    - intros [Hon H0]. exists (r, c). split; [done|].
      apply list_elem_of_filter. split; [done|]. by apply on_board_all_cells.
    - intros ([r' c'] & -> & [[Hc H0] Hon%on_board_all_cells]%list_elem_of_filter).
      simpl in *. by subst c'. }
  by rewrite size_list_to_set, length_fmap.
Qed.

(** On a state that satisfies the invariant, [choose_cell] returns a cell
    of the board that holds 0 and whose column has the fewest such cells
    among the columns that have one. *)
Theorem heap_choose_cell_fewest (st : Heap.SudokuState) :
  I2 (Heap.base st) → tracks_missing st → empty_cells (Heap.base st) ≠ [] →
  ∃ p, Heap.choose_cell st = Some p ∧
       on_board p ∧ cell_at (board (Heap.base st)) p = Some 0 ∧
       ∀ q, on_board q → cell_at (board (Heap.base st)) q = Some 0 →
         (column_blanks (board (Heap.base st)) p.2
          ≤ column_blanks (board (Heap.base st)) q.2)%nat.
Proof.
  intros HI2 Hm Hne. destruct (heap_choose_cell_elem st Hne) as (p & Hp & Hin & Hmin).
  exists p. pose proof HI2 as [_ Hmem]. apply Hmem in Hin as Hblank.
  destruct Hblank as [Hon H0]. split_and!; try done.
  intros q Hq Hq0. assert (q ∈ empty_cells (Heap.base st)) as Hqin by (by apply Hmem).
  specialize (Hmin q Hqin).
  by rewrite (missing_rows_count (Heap.base st) p.2), (missing_rows_count (Heap.base st) q.2)
    in Hmin by (done || intros r; apply Hm).
Qed.

Lemma heap_choose_cell_fewest_witness :
  ∃ st p, Heap.new_state easy = Heap.Initialized st ∧
       Heap.choose_cell st = Some p ∧
       on_board p ∧ cell_at (board (Heap.base st)) p = Some 0 ∧
       ∀ q, on_board q → cell_at (board (Heap.base st)) q = Some 0 →
         (column_blanks (board (Heap.base st)) p.2
          ≤ column_blanks (board (Heap.base st)) q.2)%nat.
Proof.
  destruct (Heap.new_state easy) as [st| |] eqn:E;
    try (vm_compute in E; discriminate E).
  pose proof (heap_new_state_ok easy) as Hinit. rewrite E in Hinit.
  destruct Hinit as ([[_ HI2 _] Hm] & _ & _ & Hperm).
  destruct (heap_choose_cell_fewest st HI2 Hm) as (p & H).
  - intros Hnil. rewrite Hnil in Hperm. apply Permutation_nil_l in Hperm.
    vm_compute in Hperm. discriminate Hperm.
  - exists st, p. split; [reflexivity|exact H].
Defined.

(** * [sudoku_approach1_newstate.py]: a search that cannot backtrack *)

Lemma NoClash_no_duplicate g : NoClash (filled on_board g) → ¬ duplicate_clue g.
Proof.
  intros Hnc (p & q & v & Hp & Hq & Hne & Hv0 & Hpv & Hqv & Hs).
  apply Hne, (Hnc p q v); [|done..]. unfold same_unit, row_key, col_key, box_key.
  destruct Hs as [?|[?|?]]; eauto.
Qed.

(** The constructor succeeds on a board on which a digit that fits was
    placed, and its state has fewer empty cells. *)
Lemma newstate_place st p d :
  Inv st → last (empty_cells st) = Some p → unused st p.1 p.2 d → 1 ≤ d ≤ 9 →
  ∃ st1, NewState.place_digit st p.1 p.2 d = NewState.Placed st1 ∧ Inv st1 ∧
         set_cell (board st) p.1 p.2 d = Some (board st1) ∧
         (length (empty_cells st1) < length (empty_cells st))%nat ∧
         on_board p ∧ cell_at (board st) p = Some 0.
Proof.
  intros HInv Hlast Hun Hd.
  destruct (place_Inv st p d HInv Hlast Hun ltac:(lia))
    as (f1 & Hplace & HInv1 & Hset & Hemp & Hon & H0).
  unfold NewState.place_digit. rewrite Hset.
  pose proof (approach1_scan_ok (board f1)) as Hscan.
  destruct (Approach1.SudokuState (board f1)) as [st1| |]; simpl in Hscan.
  - destruct Hscan as (HInv' & Hb & Hempty & _). exists st1. split_and!; try done.
    + by rewrite Hb.
    + assert (empty_cells st1 ≡ₚ empty_cells f1) as ->.
      { apply NoDup_Permutation; [apply HInv'|apply HInv1|]. intros q.
        destruct HInv' as [_ [_ Hm'] _], HInv1 as [_ [_ Hm1] _]. by rewrite Hm', Hm1, Hb. }
      rewrite Hemp, length_app. simpl. lia.
  - destruct (NoClash_no_duplicate (board f1)); [|done].
    destruct HInv1 as [_ _ Htr]. by eapply Tracks_NoClash.
  - destruct Hscan as (q & Hq & Hnone). destruct HInv1 as [Hcells _ _].
    destruct (Hcells q Hq) as [v Hv]. congruence.
Qed.

Lemma newstate_try_digits_ok search p n :
  (∀ st1, Inv st1 → (length (empty_cells st1) ≤ n)%nat →
     newstate_search_ok st1 (search st1)) →
  ∀ ds st,
    Forall (λ d, 1 ≤ d ≤ 9) ds → Inv st →
    last (empty_cells st) = Some p → (length (empty_cells st) ≤ S n)%nat →
    newstate_loop_ok st p ds (NewState.try_digits search p.1 p.2 ds st).
Proof.
  intros Hsearch ds. induction ds as [|d ds IH]; intros st Hds HInv Hlast Hlen; simpl.
  { split; [done|]. set_solver. }
  apply Forall_cons in Hds as [Hd Hds].
  pose proof (is_unsolvable_spec st p.1 p.2 d) as [Hsame Hclash].
  destruct (Approach1.is_unsolvable st p.1 p.2 d) as [clash stc]; simpl in *.
  assert (Inv stc) as HInvc by eauto using Inv_same_state.
  pose proof Hsame as [Sb Se _ _ _].
  assert (∀ d', unused st p.1 p.2 d' ↔ unused stc p.1 p.2 d') as Hunc.
  { intros d'. split; apply unused_same_state; [done|by apply same_state_sym]. }
  destruct clash.
  - specialize (IH stc Hds HInvc). rewrite <- Se in IH. specialize (IH Hlast Hlen).
    destruct (NewState.try_digits search p.1 p.2 ds stc); simpl in *; try done.
    + destruct IH as (d' & Hd' & Hun'). exists d'. split; [set_solver|by apply Hunc].
    + by rewrite Sb.
    + destruct IH as [-> Hnone]. split; [done|]. intros d' [->|Hd']%elem_of_cons.
      * intros Hun. by apply Hclash in Hun.
      * intros Hun. by apply (Hnone d' Hd'), Hunc.
  - assert (unused st p.1 p.2 d) as Hun by (by apply Hclash).
    destruct (newstate_place stc p d) as (st1 & Hplace & HInv1 & Hset & Hlt & Hon & H0);
      [done|by rewrite <- Se|by apply Hunc|done|].
    rewrite Hplace. rewrite <- Se in Hlt.
    specialize (Hsearch st1 HInv1 ltac:(lia)).
    destruct (search st1) as [| | | |goal|g]; simpl in Hsearch; try done.
    + exists d. split; [set_solver|done].
    + destruct Hsearch as (HInvg & Hnil & Hcomp). split_and!; try done.
      apply (completes_place (board st) (board st1) _ p d); try done; by rewrite Sb.
    + exists d. split; [set_solver|done].
Qed.

Lemma newstate_depth_first_search_ok depth : ∀ st,
  Inv st → (length (empty_cells st) ≤ depth)%nat →
  newstate_search_ok st (NewState.depth_first_search depth st).
Proof.
  induction depth as [|depth IH]; intros st HInv Hlen;
    cbn [NewState.depth_first_search];
    unfold Approach1.is_goal_state, Approach1.choose_cell;
    case_bool_decide as Hnil.
  - apply length_zero_iff_nil in Hnil. simpl. split_and!; try done.
    by apply completes_full.
  - lia.
  - apply length_zero_iff_nil in Hnil. simpl. split_and!; try done.
    by apply completes_full.
  - destruct (last (empty_cells st)) as [[row col]|] eqn:Hlast.
    + pose proof (newstate_try_digits_ok (NewState.depth_first_search depth) (row, col) depth
                    IH digits st) as Hloop.
      assert (Forall (λ d, 1 ≤ d ≤ 9) digits) as Hds
        by (apply Forall_forall; intros d Hd%elem_of_seqZ; lia).
      specialize (Hloop Hds HInv Hlast Hlen). cbn [fst snd] in Hloop.
      destruct (NewState.try_digits (NewState.depth_first_search depth) row col digits st);
        cbn [newstate_loop_ok newstate_search_ok] in *; try done.
      * destruct Hloop as (d & Hd%elem_of_seqZ & Hun). exists (row, col), d.
        split; [done|]. split; [lia|done].
      * destruct Hloop as [-> Hnone]. split; [done|]. exists (row, col). split; [done|].
        intros d Hd. apply Hnone, elem_of_seqZ. lia.
    + apply last_None in Hlast. by rewrite Hlast in Hnil.
Qed.

(** What fits a cell, in terms of the used-sets. *)
Lemma unused_fits st p d : Inv st → d ≠ 0 → unused st p.1 p.2 d ↔ fits (board st) p d.
Proof.
  intros [_ _ [Hr Hc Hb _ _ _]] Hd. split.
  - intros (Hur & Huc & Hub) q Hq Hs Hqd. destruct Hs as [Hs|[Hs|Hs]].
    + apply Hur, Hr. exists q. by split.
    + apply Huc, Hc. exists q. by split.
    + apply Hub, Hb. exists q. by split.
  - intros Hfit. unfold unused. split_and!.
    + intros (q & Hq & Hon & Hv & _)%Hr. apply (Hfit q Hon); [|done]. by left.
    + intros (q & Hq & Hon & Hv & _)%Hc. apply (Hfit q Hon); [|done]. by right; left.
    + intros (q & Hq & Hon & Hv & _)%Hb. apply (Hfit q Hon); [|done]. by right; right.
Qed.

Lemma newstate_solver_cases g :
  wf_grid g →
  (duplicate_clue g ∧ NewState.sudoku_solver g = NewState.Answer invalid_sudoku g) ∨
  (¬ duplicate_clue g ∧
   NewState.sudoku_solver g = NewState.Answer invalid_sudoku g ∧
   ∃ p, last (filter (λ p, cell_at g p = Some 0) all_cells) = Some p ∧
        ∀ d, 1 ≤ d ≤ 9 → ¬ fits g p d) ∨
  (¬ duplicate_clue g ∧ ∃ st,
     NewState.sudoku_solver g = NewState.Answer (board st) (board st) ∧
     Inv st ∧ empty_cells st = [] ∧ completes g (board st)) ∨
  (¬ duplicate_clue g ∧ ∃ after p d,
     NewState.sudoku_solver g = NewState.TypeErrorEscapes after ∧
     last (filter (λ p, cell_at g p = Some 0) all_cells) = Some p ∧
     1 ≤ d ≤ 9 ∧ fits g p d).
Proof.
  intros Hwf. pose proof (approach1_scan_ok g) as Hscan. unfold NewState.sudoku_solver.
  destruct (Approach1.SudokuState g) as [st| |]; simpl in Hscan.
  - destruct Hscan as (HInv & Hb & Hemp & Hnd). right.
    pose proof (newstate_depth_first_search_ok _ st HInv (le_n _)) as Hdfs.
    destruct (NewState.depth_first_search (length (empty_cells st)) st)
      as [| | |after|goal|after]; simpl in Hdfs; try done.
    + right. right. split; [done|]. destruct Hdfs as (p & d & Hlast & Hd & Hun).
      exists after, p, d. rewrite <- Hemp, <- Hb.
      split; [done|]. split; [done|]. split; [done|].
      by apply (unused_fits st p d HInv ltac:(lia)).
    + right. left. split; [done|]. exists goal. by rewrite <- Hb.
    + left. destruct Hdfs as (-> & p & Hlast & Hnone). rewrite Hb. split_and!; try done.
      exists p. rewrite <- Hemp. split; [done|]. intros d Hd Hfit.
      apply (Hnone d Hd). apply (unused_fits st p d HInv ltac:(lia)). by rewrite Hb.
  - by left.
  - destruct Hscan as (p & Hp & Hnone).
    destruct (wf_grid_cells g p Hwf Hp) as [v Hv]. congruence.
Qed.

(** A grid that is not the grid of -1 is returned only if it is a solved
    grid that keeps the clues. *)
Theorem newstate_sound (g out after : Grid) :
  wf_grid g → digits_only g →
  NewState.sudoku_solver g = NewState.Answer out after → out ≠ invalid_sudoku →
  valid_solution out ∧ keeps_clues g out ∧ after = out.
Proof.
  intros Hwf Hdig Hret Hout.
  destruct (newstate_solver_cases g Hwf)
    as [[_ H] | [(_ & H & _) | [(_ & st & H & HInv & _ & Hc) | (_ & a & p & d & H & _)]]];
    rewrite H in Hret; simplify_eq.
  split_and!; [by apply (completed_valid g)|by apply completes_keeps|done].
Qed.

(** The search cannot backtrack: as soon as a placed digit leads nowhere,
    [TypeError] escapes.  So on a 9x9 grid without solution and without
    repeated clue, in which some digit fits the last empty cell, the call
    raises [TypeError] instead of returning the grid of -1; and the grid of
    -1 is returned only for a repeated clue or when no digit fits the last
    empty cell. *)
Theorem newstate_cannot_backtrack (g : Grid) :
  wf_grid g → digits_only g →
  (∀ after, NewState.sudoku_solver g = NewState.Answer invalid_sudoku after →
     after = g ∧
     (duplicate_clue g ∨
      ∃ p, last (filter (λ p, cell_at g p = Some 0) all_cells) = Some p ∧
           ∀ d, 1 ≤ d ≤ 9 → ¬ fits g p d)) ∧
  (∀ p d, ¬ duplicate_clue g →
     (∀ sol, valid_solution sol → keeps_clues g sol → False) →
     last (filter (λ p, cell_at g p = Some 0) all_cells) = Some p →
     1 ≤ d ≤ 9 → fits g p d →
     ∃ after, NewState.sudoku_solver g = NewState.TypeErrorEscapes after).
Proof.
  intros Hwf Hdig.
  assert (¬ valid_solution invalid_sudoku) as Hinv.
  { intros Hv. destruct (valid_digit invalid_sudoku (0, 0) Hv) as (d & Hd & Hpd);
      [by_computation|]. vm_compute in Hpd. simplify_eq. lia. }
  destruct (newstate_solver_cases g Hwf)
    as [[Hdup H] | [(_ & H & Hno) | [(_ & st & H & HInv & _ & Hc) | (_ & a & p & d & H & _)]]];
    rewrite H; split.
  - intros after [= <-]. eauto.
  - intros p d Hnd. done.
  - intros after [= <-]. eauto.
  - intros p d _ _ Hlast Hd Hfit. destruct Hno as (p' & Hlast' & Hno).
    assert (p' = p) as -> by congruence. destruct (Hno d Hd Hfit).
  - intros after [= Hb _]. destruct Hinv. rewrite <- Hb. by apply (completed_valid g).
  - intros p d _ Hnone. destruct (Hnone (board st)).
    + by apply (completed_valid g).
    + by apply completes_keeps.
  - by intros after [=].
  - eauto.
Qed.

Lemma newstate_sound_witness :
  valid_solution easy_solved ∧ keeps_clues two_ways easy_solved ∧ easy_solved = easy_solved.
Proof.
  apply (newstate_sound two_ways easy_solved easy_solved).
  - reflexivity.
  - by_computation.
  - vm_compute. reflexivity.
  - discriminate.
Defined.

(** A grid for which the final solution returns the grid of -1 has no
    solution. *)
Lemma sentinel_unsolvable g after :
  wf_grid g → Final.sudoku_solver g = Returned invalid_sudoku after →
  ∀ sol, valid_solution sol → keeps_clues g sol → False.
Proof.
  intros Hwf Hret sol Hsol Hk.
  destruct (solvable_succeeds g Hwf) as (st & H & Hvalid & _); [eauto|].
  rewrite H in Hret. injection Hret as Hout _. rewrite Hout in Hvalid.
  destruct (valid_digit invalid_sudoku (0, 0) Hvalid) as (d & Hd & Hpd); [by_computation|].
  vm_compute in Hpd. simplify_eq. lia.
Qed.

Lemma newstate_cannot_backtrack_witness :
  ∃ after, NewState.sudoku_solver dead_end = NewState.TypeErrorEscapes after.
Proof.
  assert (wf_grid dead_end) as Hwf by reflexivity.
  assert (digits_only dead_end) as Hdig by by_computation.
  destruct (newstate_cannot_backtrack dead_end Hwf Hdig) as [_ H].
  apply (H (8, 8) 9).
  - apply (scanned_no_duplicate dead_end (scanned_state dead_end)).
    vm_compute. reflexivity.
  - apply (sentinel_unsolvable dead_end dead_end Hwf). vm_compute. reflexivity.
  - vm_compute. reflexivity.
  - lia.
  - intros q Hq%on_board_all_cells. revert q Hq.
    apply (proj1 (Forall_forall
                    (λ q, same_unit (8, 8) q → cell_at dead_end q ≠ Some 9) all_cells)).
    by_computation.
Defined.

(** * Approach 2 *)

(** ** The constructor *)

Lemma filter_snoc_True {A} (P : A → Prop) `{∀ x, Decision (P x)} (l : list A) (x : A) :
  P x → filter P (l ++ [x]) = filter P l ++ [x].
Proof. intros HP. by rewrite filter_app, filter_cons_True. Qed.

Lemma filter_snoc_False {A} (P : A → Prop) `{∀ x, Decision (P x)} (l : list A) (x : A) :
  ¬ P x → filter P (l ++ [x]) = filter P l.
Proof. intros HP. by rewrite filter_app, filter_cons_False, filter_nil, app_nil_r. Qed.

Lemma init_cell_building g st st1 row col :
  building g st st1 → (row, col) ∉ empty_cells st1 →
  build_alike g (empty_cells st1) [(row, col)]
    (Approach2.init_cell st row col) (scan_cell Approach1.is_unsolvable st1 row col).
Proof.
  intros [Hb Hb1 Sr Sc Sx Hrows Hkeys Hcnt Hcntk Hmr Hmc] Hfresh.
  unfold Approach2.init_cell, scan_cell. rewrite Hb, Hb1.
  destruct (cell g row col) as [val|]; [|done].
  case_bool_decide as H0; simpl.
  - assert (Approach2.set_add (row, col) (default [] (Approach2.row_to_empty_cells st !! row))
            = default [] (Approach2.row_to_empty_cells st !! row) ++ [(row, col)]) as Hadd.
    { unfold Approach2.set_add. rewrite decide_False; [done|].
      fold (row_empty_cells st row). rewrite Hrows. intros [_ ?]%list_elem_of_filter. done. }
    rewrite Hadd. split; [|set_solver]. split; simpl; try done.
    + intros r. unfold row_empty_cells in *. simpl.
      destruct (decide (r = row)) as [->|Hne].
      * rewrite lookup_insert_eq. simpl. by rewrite Hrows, filter_snoc_True.
      * rewrite lookup_insert_ne by done.
        rewrite Hrows, filter_snoc_False; [done|]. simpl. congruence.
    + intros r. destruct (decide (r = row)) as [->|Hne].
      * rewrite lookup_insert_eq, filter_snoc_True by done. split; [|by eauto].
        intros _. by destruct (filter _ _).
      * rewrite lookup_insert_ne by done.
        rewrite Hkeys, filter_snoc_False; [done|]. simpl. congruence.
    + intros c. unfold col_count in *. simpl.
      destruct (decide (c = col)) as [->|Hne].
      * rewrite lookup_insert_eq. simpl.
        rewrite Hcnt, filter_snoc_True, length_app by done. simpl. lia.
      * rewrite lookup_insert_ne by done.
        rewrite Hcnt, filter_snoc_False; [done|]. simpl. congruence.
    + intros c. destruct (decide (c = col)) as [->|Hne].
      * rewrite lookup_insert_eq, filter_snoc_True by done. split; [|by eauto].
        intros _. by destruct (filter _ _).
      * rewrite lookup_insert_ne by done.
        rewrite Hcntk, filter_snoc_False; [done|]. simpl. congruence.
    + intros _. case_match eqn:Hlook.
      * case_bool_decide; [by rewrite lookup_insert_eq|by rewrite Hlook].
      * by rewrite lookup_insert_eq.
    + intros _. case_match eqn:Hlook.
      * case_bool_decide; [by rewrite lookup_insert_eq|by rewrite Hlook].
      * by rewrite lookup_insert_eq.
  - pose proof (is_unsolvable_spec (Approach2.shared st) row col val) as [H1 H1'].
    pose proof (is_unsolvable_spec st1 row col val) as [H2 H2'].
    destruct (Approach1.is_unsolvable (Approach2.shared st) row col val) as [b1 s1],
      (Approach1.is_unsolvable st1 row col val) as [b2 s2]; simpl in *.
    assert (unused (Approach2.shared st) row col val ↔ unused st1 row col val) as Hun
      by (unfold unused; by rewrite Sr, Sc, Sx).
    assert (b1 = b2) as ->.
    { destruct b1, b2; try done.
      - assert (unused st1 row col val) as Hu by (by apply H2'). apply Hun, H1' in Hu. done.
      - assert (unused (Approach2.shared st) row col val) as Hu by (by apply H1').
        apply Hun, H2' in Hu. done. }
    destruct H1 as [T1b T1e T1r T1c T1x], H2 as [T2b T2e T2r T2c T2x].
    destruct b2; simpl; [by rewrite <- T1b|].
    split; [|rewrite <- T2e; set_solver]. split; simpl; try done.
    + by rewrite <- T1b.
    + by rewrite <- T2b.
    + intros k. by rewrite !dd_peek_add, <- !T1r, <- !T2r, !Sr.
    + intros k. by rewrite !dd_peek_add, <- !T1c, <- !T2c, !Sc.
    + intros k. unfold Approach1._grid_key. fold (sub_grid_no row col).
      by rewrite !dd_peek_add, <- !T1x, <- !T2x, !Sx.
    + intros r. rewrite <- T2e. apply Hrows.
    + intros r. rewrite <- T2e. apply Hkeys.
    + intros c. rewrite <- T2e. apply Hcnt.
    + intros c. rewrite <- T2e. apply Hcntk.
    + rewrite <- T2e. apply Hmr.
    + rewrite <- T2e. apply Hmc.
Qed.

Lemma build_alike_mono g old old' new new' r r1 :
  (∀ p, p ∈ old ∨ p ∈ new → p ∈ old' ∨ p ∈ new') →
  build_alike g old new r r1 → build_alike g old' new' r r1.
Proof.
  intros Hsub. destruct r, r1; simpl; try done. intros [Hb Hin]. split; [done|]. eauto.
Qed.

Lemma init_cols_building g row cols : ∀ st st1,
  building g st st1 → NoDup cols → (∀ c, c ∈ cols → (row, c) ∉ empty_cells st1) →
  build_alike g (empty_cells st1) ((λ c, (row, c)) <$> cols)
    (Approach2.init_cols row cols st) (scan_cols Approach1.is_unsolvable row cols st1).
Proof.
  induction cols as [|c cols IH]; intros st st1 Hb Hnd Hfresh;
    cbn [Approach2.init_cols scan_cols]; csimpl.
  { split; [done|]. eauto. }
  apply NoDup_cons in Hnd as [Hc Hnd].
  assert ((row, c) ∉ empty_cells st1) as Hfc by (apply Hfresh; by left).
  pose proof (init_cell_building g st st1 row c Hb Hfc) as Hcell.
  destruct (Approach2.init_cell st row c) as [st'|g'|],
    (scan_cell Approach1.is_unsolvable st1 row c) as [st1'| |]; try done.
  destruct Hcell as [Hb' Hin'].
  eapply build_alike_mono; [|apply (IH st' st1' Hb' Hnd)].
  - intros p [Hp|Hp]; [|by right; right].
    destruct (Hin' p Hp) as [?| ->%list_elem_of_singleton]; [by left|right; by left].
  - intros c2 Hc2 Hp. destruct (Hin' _ Hp) as [Hold|Heq%list_elem_of_singleton];
      [|by simplify_eq]. apply (Hfresh c2); [by right|done].
Qed.

Lemma init_rows_building g rows : ∀ st st1,
  building g st st1 → NoDup rows → (∀ r c, r ∈ rows → (r, c) ∉ empty_cells st1) →
  build_alike g (empty_cells st1) (rows ≫= λ r, (λ c, (r, c)) <$> range9)
    (Approach2.init_rows rows st) (scan_rows Approach1.is_unsolvable rows st1).
Proof.
  induction rows as [|r rows IH]; intros st st1 Hb Hnd Hfresh;
    cbn [Approach2.init_rows scan_rows].
  { split; [done|]. eauto. }
  rewrite bind_cons. apply NoDup_cons in Hnd as [Hr Hnd].
  assert (∀ c, c ∈ range9 → (r, c) ∉ empty_cells st1) as Hfr
    by (intros; apply Hfresh; by left).
  pose proof (init_cols_building g r range9 st st1 Hb (NoDup_seqZ _ _) Hfr) as Hcols.
  destruct (Approach2.init_cols r range9 st) as [st'|g'|],
    (scan_cols Approach1.is_unsolvable r range9 st1) as [st1'| |]; try done.
  destruct Hcols as [Hb' Hin'].
  eapply build_alike_mono; [|apply (IH st' st1' Hb' Hnd)].
  - intros p [Hp|Hp]; [|right; apply elem_of_app; by right].
    destruct (Hin' p Hp) as [?|?]; [by left|right; apply elem_of_app; by left].
  - intros r2 c2 Hr2 Hp. destruct (Hin' _ Hp) as [Hold|(c & [= -> ->] & _)%list_elem_of_fmap];
      [|done]. apply (Hfresh r2 c2); [by right|done].
Qed.

(** What the constructor guarantees. *)
Lemma approach2_new_state_ok g :
  match Approach2.new_state g with
  | Approach2.Built st => built_on g st ∧ ¬ duplicate_clue g
  | Approach2.BuildValueError g' => g' = g ∧ duplicate_clue g
  | Approach2.BuildIndexError => ∃ p, on_board p ∧ cell_at g p = None
  end.
Proof.
  assert (building g (Approach2.mkPartialSudokuState (fresh_state g) ∅ ∅ 9 9) (fresh_state g))
    as Hb0.
  { split; simpl; try done.
    - intros r. rewrite lookup_empty. split; [by intros [? ?]|done].
    - intros c. rewrite lookup_empty. split; [by intros [? ?]|done]. }
  assert (∀ r c, r ∈ range9 → (r, c) ∉ empty_cells (fresh_state g)) as Hf0
    by (intros; simpl; set_solver).
  pose proof (init_rows_building g range9 _ _ Hb0 (NoDup_seqZ _ _) Hf0) as Halike.
  pose proof (approach1_scan_ok g) as Hok. unfold Approach1.SudokuState in Hok.
  unfold Approach2.new_state.
  destruct (Approach2.init_rows range9 _) as [st|g'|],
    (scan_rows Approach1.is_unsolvable range9 (fresh_state g)) as [st1| |];
    simpl in Hok, Halike; try done.
  destruct Halike as [[Hb Hb1 Sr Sc Sx Hrows Hkeys Hcnt Hcntk Hmr Hmc] _].
  destruct Hok as ([Hcells _ Htr] & _ & Hemp & Hnd).
  fold (blanks g) in Hemp. rewrite Hemp in *. rewrite Hb1 in *.
  split; [|done]. split; try done.
  - apply (Tracks_proper _ _ _ _ _ _ _ _ (λ k, eq_sym (Sr k)) (λ k, eq_sym (Sc k))
             (λ k, eq_sym (Sx k)) (λ _ _, reflexivity _) Htr).
  - intros Hne. specialize (Hmc Hne). apply Hcntk in Hmc. rewrite Hcnt.
    destruct (filter _ _); [done|]. simpl. lia.
Qed.

(** ** The search *)

Lemma NoDup_blanks g : NoDup (blanks g).
Proof. apply NoDup_filter, NoDup_all_cells. Qed.

Lemma elem_of_blanks g p : p ∈ blanks g ↔ on_board p ∧ cell_at g p = Some 0.
Proof. unfold blanks. rewrite list_elem_of_filter, on_board_all_cells. tauto. Qed.

Lemma usable_Inv g s : usable g s → Inv (with_empty s (blanks g)).
Proof.
  intros [Hb Hcells Htr]. split; simpl.
  - by rewrite Hb.
  - split; simpl; [apply NoDup_blanks|]. intros p. by rewrite Hb, elem_of_blanks.
  - by rewrite Hb.
Qed.

Lemma usable_same_state g s s' : same_state s s' → usable g s → usable g s'.
Proof.
  intros [Sb _ Sr Sc Sx] [Hb Hcells Htr]. split; [by rewrite <- Sb|done|].
  by apply (Tracks_proper _ _ _ _ _ _ _ _ Sr Sc Sx (λ _ _, reflexivity _)).
Qed.

Lemma built_usable g st : built_on g st → usable g (Approach2.shared st).
Proof. intros []. by split. Qed.

(** Writing a digit that fits into an empty cell: the constructor succeeds
    on the new board, which has fewer empty cells. *)
Lemma approach2_place g s p d :
  usable g s → on_board p → cell_at g p = Some 0 → unused s p.1 p.2 d → 1 ≤ d ≤ 9 →
  ∃ g1 st1, set_cell g p.1 p.2 d = Some g1 ∧ Approach2.new_state g1 = Approach2.Built st1 ∧
            built_on g1 st1 ∧ (length (blanks g1) < length (blanks g))%nat.
Proof.
  intros [Hb Hcells Htr] Hon H0 (Hr & Hc & Hx) Hd. pose proof Hon as [Hp1 Hp2].
  destruct (set_cell_is_Some g p.1 p.2 d 0) as [g1 Hg1]; [lia..|done|].
  exists g1.
  assert (∀ q, on_board q → is_Some (cell_at g1 q)) as Hcells1.
  { intros q [Hq1 Hq2]. unfold cell_at. destruct (decide (q = p)) as [->|Hne].
    - rewrite (cell_set_same g g1 p.1 p.2 d) by (done || lia). eauto.
    - rewrite (cell_set_other g g1 p.1 p.2 d); [by apply Hcells|lia..| |done].
      intros Heq. apply Hne. by destruct q, p; simplify_eq/=. }
  assert (NoClash (filled on_board g1)) as Hnc.
  { eapply Tracks_NoClash, Tracks_add; [|done..].
    apply filled_set_cell; [done..|lia|done]. }
  pose proof (approach2_new_state_ok g1) as Hnew.
  destruct (Approach2.new_state g1) as [st1|g'|].
  - destruct Hnew as [Hbuilt _]. exists st1. split_and!; try done.
    assert (p :: blanks g1 ⊆+ blanks g) as Hsub.
    { apply NoDup_submseteq.
      - apply NoDup_cons. split; [|apply NoDup_blanks].
        rewrite elem_of_blanks. intros [_ Hp0]. unfold cell_at in Hp0.
        rewrite (cell_set_same g g1 p.1 p.2 d) in Hp0 by (done || lia). simplify_eq. lia.
      - intros q [->|Hq]%elem_of_cons; [by apply elem_of_blanks|].
        apply elem_of_blanks in Hq as [[Hq1 Hq2] Hq0]. apply elem_of_blanks.
        split; [done|]. unfold cell_at in *.
        destruct (decide (q = p)) as [->|Hne].
        + rewrite (cell_set_same g g1 p.1 p.2 d) in Hq0 by (done || lia). simplify_eq. lia.
        + rewrite (cell_set_other g g1 p.1 p.2 d) in Hq0; [done|lia..| |done].
          intros Heq. apply Hne. by destruct q, p; simplify_eq/=. }
    apply submseteq_length in Hsub. simpl in Hsub. lia.
  - destruct Hnew as [_ Hdup]. by destruct (NoClash_no_duplicate g1).
  - destruct Hnew as (q & Hq & Hnone). destruct (Hcells1 q Hq) as [v Hv]. congruence.
Qed.

(** Clearing the cell again: the constructor succeeds on the board as it
    was. *)
Lemma approach2_revert g g1 s p d :
  usable g s → on_board p → cell_at g p = Some 0 → set_cell g p.1 p.2 d = Some g1 →
  ∃ st', Approach2.revert_state g1 p.1 p.2 = Approach2.Built st' ∧ built_on g st'.
Proof.
  intros Hus [Hp1 Hp2] H0 Hset. unfold Approach2.revert_state.
  rewrite (set_cell_restore g g1 p.1 p.2 d 0) by (done || lia).
  pose proof (approach2_new_state_ok g) as Hnew.
  destruct (Approach2.new_state g) as [st'|g'|].
  - exists st'. by destruct Hnew.
  - destruct Hnew as [_ Hdup]. destruct (NoClash_no_duplicate g); [|done].
    destruct Hus as [_ _ Htr]. by eapply Tracks_NoClash.
  - destruct Hnew as (q & Hq & Hnone). destruct Hus as [_ Hcells _].
    destruct (Hcells q Hq) as [v Hv]. congruence.
Qed.

Lemma approach2_try_digits_ok search p g n :
  (∀ g1 st1, built_on g1 st1 → (length (blanks g1) ≤ n)%nat →
     approach2_search_ok g1 (search st1)) →
  on_board p → cell_at g p = Some 0 → (length (blanks g) ≤ S n)%nat →
  ∀ ds st,
    Forall (λ d, 1 ≤ d ≤ 9) ds → usable g (Approach2.shared st) →
    approach2_loop_ok g p ds (Approach2.try_digits search p.1 p.2 ds st).
Proof.
  intros Hsearch Hon H0 Hlen ds. induction ds as [|d ds IH]; intros st Hds Hus; simpl.
  { split; [apply Hus|]. set_solver. }
  apply Forall_cons in Hds as [Hd Hds].
  pose proof (is_unsolvable_spec (Approach2.shared st) p.1 p.2 d) as [Hsame Hclash].
  destruct (Approach1.is_unsolvable (Approach2.shared st) p.1 p.2 d) as [clash s];
    simpl in *.
  assert (usable g s) as Husc by eauto using usable_same_state.
  destruct clash.
  - specialize (IH (Approach2.with_shared st s) Hds Husc).
    destruct (Approach2.try_digits search p.1 p.2 ds (Approach2.with_shared st s));
      simpl in *; try done.
    destruct IH as [-> Hnone]. split; [done|].
    intros sol d' Hv Hk Hd'. apply not_elem_of_cons. split; [|by eapply Hnone].
    intros ->.
    assert (unused (Approach2.shared st) p.1 p.2 d) as Hun.
    { apply (solution_digit_unused (with_empty (Approach2.shared st) (blanks g)) sol);
        try done; [by apply usable_Inv|..]; simpl; by rewrite (usable_board _ _ Hus). }
    by apply Hclash in Hun.
  - assert (unused s p.1 p.2 d) as Hun
      by (apply (unused_same_state (Approach2.shared st)); [done|by apply Hclash]).
    destruct (approach2_place g s p d) as (g1 & st1 & Hset & Hnew & Hbuilt & Hlt); try done.
    unfold Approach2.place_digit. simpl. rewrite (usable_board _ _ Husc), Hset, Hnew.
    specialize (Hsearch g1 st1 Hbuilt ltac:(lia)).
    destruct (search st1) as [| | | |goal|g2]; simpl in Hsearch; try done.
    + destruct Hsearch as (g' & Hbuilt' & Hnil & Hcomp). exists g'. split_and!; try done.
      by apply (completes_place g g1 g' p d).
    + destruct Hsearch as [-> Hnone].
      destruct (approach2_revert g g1 s p d) as (st' & Hrev & Hbuilt'); try done.
      rewrite Hrev. specialize (IH st' Hds (built_usable _ _ Hbuilt')).
      destruct (Approach2.try_digits search p.1 p.2 ds st'); simpl in *; try done.
      destruct IH as [-> Hnone']. split; [done|].
      intros sol d' Hv Hk Hd'. apply not_elem_of_cons. split; [|by eapply Hnone'].
      intros ->. apply (Hnone sol Hv). by apply (keeps_clues_place g g1 sol p d).
Qed.

Section approach2_search.
Variable set_pop : list (Z * Z) → option (Z * Z).
Hypothesis set_pop_pops : pops set_pop.

(** [is_goal_state] holds exactly when the board has no empty cell. *)
Lemma approach2_goal g st :
  built_on g st → Approach2.is_goal_state st = true ↔ blanks g = [].
Proof.
  intros Hbuilt. unfold Approach2.is_goal_state.
  rewrite bool_decide_eq_true, map_size_empty_iff. split.
  - intros Hempty. destruct (blanks g) as [|p l] eqn:Hbl; [done|].
    assert (is_Some (Approach2.row_to_empty_cells st !! p.1)) as [s Hs].
    { apply (built_keys _ _ Hbuilt). rewrite Hbl, filter_cons_True by done. done. }
    by rewrite Hempty, lookup_empty in Hs.
  - intros Hnil. apply map_empty. intros r.
    destruct (Approach2.row_to_empty_cells st !! r) eqn:Hr; [|done].
    assert (is_Some (Approach2.row_to_empty_cells st !! r)) as Hsome by eauto.
    apply (built_keys _ _ Hbuilt) in Hsome. by rewrite Hnil in Hsome.
Qed.

(** [choose_cell] returns a cell of row [min_empty_row] that holds 0. *)
Lemma approach2_choose_cell g st :
  built_on g st → blanks g ≠ [] →
  ∃ p, Approach2.choose_cell set_pop st = Some p ∧ p.1 = Approach2.min_empty_row st ∧
       on_board p ∧ cell_at g p = Some 0.
Proof.
  intros Hbuilt Hne. unfold Approach2.choose_cell.
  fold (row_empty_cells st (Approach2.min_empty_row st)).
  rewrite (built_rows _ _ Hbuilt).
  assert (∀ p, p ∈ filter (λ p : Z * Z, p.1 = Approach2.min_empty_row st) (blanks g) →
               p.1 = Approach2.min_empty_row st ∧ on_board p ∧ cell_at g p = Some 0) as Hin.
  { intros p [Hp Hb%elem_of_blanks]%list_elem_of_filter. done. }
  case_bool_decide as Hmin; [eexists; split; [done|]; by apply Hin|].
  pose proof (set_pop_pops (filter (λ p : Z * Z, p.1 = Approach2.min_empty_row st) (blanks g)))
    as Hpop.
  destruct (set_pop _) as [p|]; [exists p; split; [done|]; by apply Hin|].
  pose proof (built_min_row _ _ Hbuilt Hne) as Hsome.
  by apply (built_keys _ _ Hbuilt) in Hsome.
Qed.

Lemma approach2_depth_first_search_ok depth : ∀ g st,
  built_on g st → (length (blanks g) ≤ depth)%nat →
  approach2_search_ok g (Approach2.depth_first_search set_pop depth st).
Proof.
  induction depth as [|depth IH]; intros g st Hbuilt Hlen;
    cbn [Approach2.depth_first_search];
    pose proof (approach2_goal g st Hbuilt) as Hgoal;
    destruct (Approach2.is_goal_state st).
  - assert (blanks g = []) as Hnil by (by apply Hgoal). exists g. split_and!; try done.
    pose proof (completes_full (with_empty (Approach2.shared st) (blanks g))
                  (usable_Inv _ _ (built_usable _ _ Hbuilt)) Hnil) as Hc.
    simpl in Hc. by rewrite (built_board _ _ Hbuilt) in Hc.
  - assert (blanks g = []) as Hnil by (apply length_zero_iff_nil; lia).
    apply Hgoal in Hnil. done.
  - assert (blanks g = []) as Hnil by (by apply Hgoal). exists g. split_and!; try done.
    pose proof (completes_full (with_empty (Approach2.shared st) (blanks g))
                  (usable_Inv _ _ (built_usable _ _ Hbuilt)) Hnil) as Hc.
    simpl in Hc. by rewrite (built_board _ _ Hbuilt) in Hc.
  - assert (blanks g ≠ []) as Hne by (intros Hnil; apply Hgoal in Hnil; done).
    destruct (approach2_choose_cell g st Hbuilt Hne) as ([row col] & -> & _ & Hon & H0).
    pose proof (approach2_try_digits_ok (Approach2.depth_first_search set_pop depth)
                  (row, col) g depth IH Hon H0 Hlen digits st) as Hloop.
    assert (Forall (λ d, 1 ≤ d ≤ 9) digits) as Hds
      by (apply Forall_forall; intros d Hd%elem_of_seqZ; lia).
    specialize (Hloop Hds (built_usable _ _ Hbuilt)). cbn [fst snd] in Hloop.
    destruct (Approach2.try_digits (Approach2.depth_first_search set_pop depth) row col digits st);
      cbn [approach2_loop_ok approach2_search_ok] in *; try done.
    destruct Hloop as [-> Hnone]. split; [done|]. intros sol Hv Hk.
    destruct (valid_digit sol (row, col) Hv Hon) as (d & Hd & Hsol).
    apply (Hnone sol d Hv Hk Hsol). apply elem_of_seqZ. lia.
Qed.

Lemma approach2_solver_cases g :
  wf_grid g →
  (duplicate_clue g ∧ Approach2.sudoku_solver set_pop g = Returned invalid_sudoku g) ∨
  (¬ duplicate_clue g ∧ (∀ sol, valid_solution sol → keeps_clues g sol → False) ∧
   Approach2.sudoku_solver set_pop g = Returned invalid_sudoku g) ∨
  (¬ duplicate_clue g ∧ ∃ st,
     Approach2.sudoku_solver set_pop g = Returned (board st) (board st) ∧
     Inv st ∧ empty_cells st = [] ∧ completes g (board st)).
Proof.
  intros Hwf. pose proof (approach2_new_state_ok g) as Hnew.
  unfold Approach2.sudoku_solver.
  destruct (Approach2.new_state g) as [st|g'|].
  - destruct Hnew as [Hbuilt Hnd]. right.
    assert (length (blanks g) ≤ 81)%nat as Hlen.
    { unfold blanks. etrans; [apply length_filter|]. by vm_compute. }
    pose proof (approach2_depth_first_search_ok 81 g st Hbuilt Hlen) as Hdfs.
    destruct (Approach2.depth_first_search set_pop 81 st) as [| | | |goal|g2];
      simpl in Hdfs; try done.
    + destruct Hdfs as (g' & Hbuilt' & Hnil & Hcomp). right. split; [done|].
      exists (with_empty (Approach2.shared goal) (blanks g')). simpl.
      rewrite (built_board _ _ Hbuilt'). split_and!; try done.
      by apply usable_Inv, built_usable.
    + destruct Hdfs as [-> Hnone]. by left.
  - destruct Hnew as [-> Hdup]. by left.
  - destruct Hnew as (p & Hp & Hnone).
    destruct (wf_grid_cells g p Hwf Hp) as [v Hv]. congruence.
Qed.

End approach2_search.

(** Approach 2 solves every 9x9 puzzle, whichever cell [pop] hands out:
    it returns a solved grid that keeps the clues when there is one, and
    the grid of -1, with the caller's grid as it was, when there is
    none. *)
Theorem approach2_solver_correct (set_pop : list (Z * Z) → option (Z * Z)) (g : Grid) :
  pops set_pop → wf_grid g → digits_only g →
  ∃ out after, Approach2.sudoku_solver set_pop g = Returned out after ∧
    ((out = invalid_sudoku ∧ after = g ∧
      ¬ ∃ sol, valid_solution sol ∧ keeps_clues g sol) ∨
     (valid_solution out ∧ keeps_clues g out ∧ after = out)).
Proof.
  intros Hpop Hwf Hdig.
  destruct (approach2_solver_cases set_pop Hpop g Hwf)
    as [[Hdup H] | [(_ & Hnone & H) | (_ & st & H & HInv & _ & Hc)]]; rewrite H.
  - eexists _, _. split; [done|]. left. split_and!; try done.
    intros (sol & Hsol & Hk).
    destruct Hdup as (p & q & v & Hp & Hq & Hne & Hv0 & Hpv & Hqv & Hs).
    destruct Hne. apply (valid_NoClash sol Hsol p q v Hs); split_and!; eauto.
  - eexists _, _. split; [done|]. left. split_and!; try done.
    intros (sol & Hsol & Hk). by apply (Hnone sol).
  - eexists _, _. split; [done|]. right.
    split_and!; [by apply (completed_valid g)|by apply completes_keeps|done].
Qed.

Lemma pops_head : pops head.
Proof. intros [|x s]; simpl; [done|set_solver]. Qed.

Lemma approach2_solver_correct_witness :
  ∃ out after, Approach2.sudoku_solver head easy = Returned out after ∧
    ((out = invalid_sudoku ∧ after = easy ∧
      ¬ ∃ sol, valid_solution sol ∧ keeps_clues easy sol) ∨
     (valid_solution out ∧ keeps_clues easy out ∧ after = out)).
Proof.
  apply (approach2_solver_correct head easy); [apply pops_head|reflexivity|by_computation].
Defined.

(** What the constructor of approach 2 records: under each row the cells
    of that row that hold 0, in the order of the columns; under each
    column the number of its cells that hold 0; no key at all exactly when
    no cell holds 0; and, when some cell holds 0, a [min_empty_row] and a
    [min_empty_col] that each have such a cell. *)
Theorem approach2_constructor_records (g : Grid) (st : Approach2.PartialSudokuState) :
  Approach2.new_state g = Approach2.Built st →
  (∀ r, row_empty_cells st r = filter (λ p, p.1 = r) (blanks g)) ∧
  (∀ c, col_count st c = Z.of_nat (length (filter (λ p, p.2 = c) (blanks g)))) ∧
  (Approach2.is_goal_state st = true ↔ blanks g = []) ∧
  (blanks g ≠ [] →
   row_empty_cells st (Approach2.min_empty_row st) ≠ [] ∧
   0 < col_count st (Approach2.min_empty_col st)).
Proof.
  intros Hnew. pose proof (approach2_new_state_ok g) as Hok. rewrite Hnew in Hok.
  destruct Hok as [Hbuilt _]. split_and!.
  - apply Hbuilt.
  - apply Hbuilt.
  - by apply approach2_goal.
  - intros Hne. split; [|by apply Hbuilt].
    rewrite (built_rows _ _ Hbuilt). apply (built_keys _ _ Hbuilt).
    by apply (built_min_row _ _ Hbuilt).
Qed.

Lemma approach2_constructor_records_witness :
  ∃ st, Approach2.new_state easy = Approach2.Built st ∧
    (∀ r, row_empty_cells st r = filter (λ p, p.1 = r) (blanks easy)) ∧
    (∀ c, col_count st c = Z.of_nat (length (filter (λ p, p.2 = c) (blanks easy)))) ∧
    (Approach2.is_goal_state st = true ↔ blanks easy = []) ∧
    (blanks easy ≠ [] →
     row_empty_cells st (Approach2.min_empty_row st) ≠ [] ∧
     0 < col_count st (Approach2.min_empty_col st)).
Proof.
  destruct (Approach2.new_state easy) as [st| |] eqn:E;
    try (vm_compute in E; discriminate E).
  exists st. split; [reflexivity|]. exact (approach2_constructor_records easy st E).
Defined.

(** On a freshly built state with an empty cell, [choose_cell] returns the
    cell [(min_empty_row, min_empty_col)] when that cell holds 0, and
    otherwise a cell of row [min_empty_row] that holds 0. *)
Theorem approach2_choose_cell_picks (set_pop : list (Z * Z) → option (Z * Z))
    (g : Grid) (st : Approach2.PartialSudokuState) :
  pops set_pop → Approach2.new_state g = Approach2.Built st → blanks g ≠ [] →
  ∃ p, Approach2.choose_cell set_pop st = Some p ∧
       p.1 = Approach2.min_empty_row st ∧ on_board p ∧ cell_at g p = Some 0 ∧
       (cell_at g (Approach2.min_empty_row st, Approach2.min_empty_col st) = Some 0 →
        p = (Approach2.min_empty_row st, Approach2.min_empty_col st)).
Proof.
  intros Hpop Hnew Hne. pose proof (approach2_new_state_ok g) as Hok. rewrite Hnew in Hok.
  destruct Hok as [Hbuilt _].
  destruct (approach2_choose_cell set_pop Hpop g st Hbuilt Hne) as (p & Hp & Hrow & Hon & H0).
  exists p. split_and!; try done. intros Hmin.
  unfold Approach2.choose_cell in Hp.
  fold (row_empty_cells st (Approach2.min_empty_row st)) in Hp.
  rewrite (built_rows _ _ Hbuilt) in Hp.
  rewrite bool_decide_true in Hp; [congruence|].
  apply list_elem_of_filter. split; [done|]. apply elem_of_blanks. split; [|done].
  destruct p as [r c]. simpl in Hrow. subst r. destruct Hon as [Hr _]. split; [done|]. simpl.
  assert (0 < col_count st (Approach2.min_empty_col st)) as Hpos
    by (by apply (built_min_col _ _ Hbuilt)).
  rewrite (built_counts _ _ Hbuilt) in Hpos.
  destruct (filter (λ p : Z * Z, p.2 = Approach2.min_empty_col st) (blanks g))
    as [|q l] eqn:Hf; [simpl in Hpos; lia|].
  assert (q ∈ q :: l) as Hq by set_solver. rewrite <- Hf in Hq.
  apply list_elem_of_filter in Hq as [<- [[_ Hc] _]%elem_of_blanks]. done.
Qed.

Lemma approach2_choose_cell_picks_witness :
  ∃ st p, Approach2.new_state easy = Approach2.Built st ∧
       Approach2.choose_cell head st = Some p ∧
       p.1 = Approach2.min_empty_row st ∧ on_board p ∧ cell_at easy p = Some 0 ∧
       (cell_at easy (Approach2.min_empty_row st, Approach2.min_empty_col st) = Some 0 →
        p = (Approach2.min_empty_row st, Approach2.min_empty_col st)).
Proof.
  destruct (Approach2.new_state easy) as [st| |] eqn:E;
    try (vm_compute in E; discriminate E).
  destruct (approach2_choose_cell_picks head easy st pops_head E) as (p & H).
  - vm_compute. discriminate.
  - exists st, p. split; [reflexivity|exact H].
Defined.

(** * [sudoku_with_heap.py] beside approach 3 *)

Lemma py_min_ext {A} (key key' : A → nat) (l : list A) :
  (∀ x, key x = key' x) → Approach3.py_min key l = Approach3.py_min key' l.
Proof.
  intros Hkey. destruct l as [|x l]; [done|]. simpl. f_equal. revert x.
  induction l as [|y l IH]; intros x; simpl; [done|]. by rewrite !Hkey, IH.
Qed.

Lemma heap_choose_cell_mirrors w h :
  heap_mirrors w h → Heap.choose_cell w = Heap.choose_cell h.
Proof.
  intros [[_ Me _ _ _] Hm].
  unfold Heap.choose_cell, Approach3.choose_cell, Approach3.nsmallest1. simpl.
  rewrite Me.
  rewrite (py_min_ext _ (λ tpl : Z * Z, size (dd_peek (Heap.col_to_missing_rows h) tpl.2)));
    [done|]. intros x. by rewrite Hm.
Qed.

Lemma list_remove_Some x l l' : Heap.list_remove x l = Some l' → l ≡ₚ x :: l'.
Proof.
  revert l'. induction l as [|y l IH]; intros l'; simpl; [done|].
  case_decide as Hxy; [by intros [= <-]; subst|].
  destruct (Heap.list_remove x l) as [l2|]; simpl; [|done]. intros [= <-].
  rewrite (IH l2) by done. apply Permutation_swap.
Qed.

Lemma heap_mirrors_test w h row col d :
  heap_mirrors w h →
  (Approach1.is_unsolvable (Heap.base w) row col d).1
    = (Approach1.is_unsolvable (Heap.base h) row col d).1 ∧
  heap_mirrors
    (Heap.mkSudokuState (Approach1.is_unsolvable (Heap.base w) row col d).2
       (Heap.col_to_missing_rows w))
    (Heap.mkSudokuState (Approach1.is_unsolvable (Heap.base h) row col d).2
       (Heap.col_to_missing_rows h)).
Proof.
  intros [HM Hm].
  pose proof (is_unsolvable_spec (Heap.base w) row col d) as [Hsw Hcw].
  pose proof (is_unsolvable_spec (Heap.base h) row col d) as [Hsh Hch].
  pose proof (mirrors_unused _ _ row col d HM) as Hu.
  split; [|split; [by apply (mirrors_same_state (Heap.base w) _ (Heap.base h))|done]].
  destruct (Approach1.is_unsolvable (Heap.base w) row col d) as [[] ?],
    (Approach1.is_unsolvable (Heap.base h) row col d) as [[] ?]; simpl in *; try done.
  - assert (unused (Heap.base w) row col d) as H by (apply Hu; by apply Hch).
    by apply Hcw in H.
  - assert (unused (Heap.base h) row col d) as H by (apply Hu; by apply Hcw).
    by apply Hch in H.
Qed.

Lemma heap_mirrors_place w h h1 p d :
  on_board p → heap_mirrors w h →
  Heap.place_digit h p.1 p.2 d = Heap.Placed h1 →
  ∃ w1, Heap.place_digit w p.1 p.2 d = Heap.Placed w1 ∧ heap_mirrors w1 h1.
Proof.
  intros [Hp1 Hp2] [[Mb Me Mr Mc Mx] Hm] Hplace. unfold Heap.place_digit in *.
  destruct (set_cell (board (Heap.base h)) p.1 p.2 d) as [g'|] eqn:Hg'; [|done].
  simpl in Hplace.
  destruct (Heap.list_remove (p.1, p.2) (empty_cells (Heap.base h))) as [l|] eqn:Hrem;
    [|done].
  injection Hplace as <-.
  destruct (set_cell_same_shape (board (Heap.base h)) (board (Heap.base w)) g' p.1 p.2 d d)
    as [g Hg]; [by destruct Mb|lia..|done|].
  rewrite Hg. simpl. rewrite Me, Hrem. eexists. split; [done|].
  apply list_remove_Some in Hrem.
  split; [split|]; simpl.
  - apply (agree_off_set (empty_cells (Heap.base h)) l (board (Heap.base w))
             (board (Heap.base h)) g g' p.1 p.2 d); [lia|lia|done| |done|done].
    intros q Hq Hne. rewrite Hrem in Hq. set_solver.
  - done.
  - intros k. by rewrite !dd_peek_add, !Mr.
  - intros k. by rewrite !dd_peek_add, !Mc.
  - intros k. by rewrite !dd_peek_add, !Mx.
  - intros c. by rewrite !dd_peek_discard, !Hm.
Qed.

Lemma heap_mirrors_revert w h h3 p d :
  on_board p → heap_mirrors w h →
  Heap.revert_state h p.1 p.2 d = Some h3 →
  heap_mirrors (WithHeap.revert_state w p.1 p.2 d) h3.
Proof.
  intros [Hp1 Hp2] [[Mb Me Mr Mc Mx] Hm] Hrev. unfold Heap.revert_state in Hrev.
  destruct (set_cell (board (Heap.base h)) p.1 p.2 0) as [g'|] eqn:Hg'; [|done].
  injection Hrev as <-. split; [split|]; simpl.
  - apply (agree_off_set_right (empty_cells (Heap.base h)) _ (board (Heap.base w))
             (board (Heap.base h)) g' p.1 p.2 0); [lia|lia|done| | |done].
    + intros q Hq. rewrite heappush_perm. by right.
    + rewrite heappush_perm. by left.
  - by rewrite Me.
  - intros k. by rewrite !dd_peek_discard, !Mr.
  - intros k. by rewrite !dd_peek_discard, !Mc.
  - intros k. by rewrite !dd_peek_discard, !Mx.
  - intros c. by rewrite !dd_peek_add, !Hm.
Qed.

Lemma with_heap_try_digits_alike depth p n :
  (n ≤ depth)%nat →
  (∀ w h, heap_mirrors w h → HeapInv h → length (empty_cells (Heap.base h)) = n →
     heap_search_alike (WithHeap.depth_first_search depth w)
                       (Heap.depth_first_search depth h)) →
  ∀ ds w h logw logh,
    Forall (λ d, 1 ≤ d ≤ 9) ds → heap_mirrors w h → HeapInv h →
    p ∈ empty_cells (Heap.base h) → length (empty_cells (Heap.base h)) = S n →
    heap_search_alike
      (WithHeap.try_digits (WithHeap.depth_first_search depth) p.1 p.2 ds w logw)
      (Heap.try_digits (Heap.depth_first_search depth) p.1 p.2 ds h logh).
Proof.
  intros Hn Hsearch ds.
  induction ds as [|d ds IH]; intros w h logw logh Hds HM HInv Hin Hlen; simpl; [done|].
  apply Forall_cons in Hds as [Hd Hds].
  pose proof (heap_mirrors_test w h p.1 p.2 d HM) as [Hclash HMc].
  pose proof (heap_test_same h p.1 p.2 d) as Hsame.
  pose proof (is_unsolvable_spec (Heap.base h) p.1 p.2 d) as [Hsameb Hunused].
  destruct (Approach1.is_unsolvable (Heap.base w) p.1 p.2 d) as [clashw bw],
    (Approach1.is_unsolvable (Heap.base h) p.1 p.2 d) as [clash bh]; simpl in *.
  subst clashw.
  set (hc := Heap.mkSudokuState bh (Heap.col_to_missing_rows h)) in *.
  set (wc := Heap.mkSudokuState bw (Heap.col_to_missing_rows w)) in *.
  assert (HeapInv hc) as HInvc by eauto using HeapInv_same_heap.
  pose proof Hsameb as [Sb Se _ _ _].
  assert (on_board p) as Hon.
  { destruct HInv as [[_ [_ Hmem] _] _]. by apply Hmem. }
  assert (p ∈ empty_cells (Heap.base hc)) as Hinc by (simpl; by rewrite <- Se).
  assert (length (empty_cells (Heap.base hc)) = S n) as Hlenc by (simpl; by rewrite <- Se).
  destruct clash; [by apply IH|].
  assert (unused (Heap.base h) p.1 p.2 d) as Hun by (by apply Hunused).
  destruct (heap_place hc p d) as (h1 & Hplace & HInv1 & _ & Hemp & _ & _);
    [done|done|by apply (unused_same_state (Heap.base h))|lia|].
  rewrite Hplace.
  destruct (heap_mirrors_place wc hc h1 p d Hon HMc Hplace) as (w1 & Hplacew & HM1).
  rewrite Hplacew.
  assert (length (empty_cells (Heap.base h1)) = n) as Hlen1.
  { rewrite Hemp in Hlenc. simpl in Hlenc. lia. }
  pose proof (Hsearch w1 h1 HM1 HInv1 Hlen1) as Hrec.
  pose proof (heap_depth_first_search_ok depth h1 HInv1 ltac:(lia)) as Hok.
  destruct (WithHeap.depth_first_search depth w1) as [| | |goalw w2 logw2|w2 logw2],
    (Heap.depth_first_search depth h1) as [| | |goal h2 logh2|h2 logh2];
    simpl in Hrec, Hok; try done.
  destruct Hok as (Hs12 & _).
  destruct (heap_revert hc h1 h2 p d) as (h3 & Hrevert & Hs3);
    [done|done|by apply (unused_same_state (Heap.base h))|done..|].
  rewrite Hrevert.
  assert (same_heap h h3) as Hs by eauto using same_heap_trans.
  pose proof Hs as [[_ Se3 _ _ _] _].
  apply IH; [done|by apply (heap_mirrors_revert w2 h2)|by apply (HeapInv_same_heap h)|..].
  - by rewrite <- Se3.
  - by rewrite <- Se3.
Qed.

Lemma with_heap_depth_first_search_alike depth : ∀ w h,
  heap_mirrors w h → HeapInv h → (length (empty_cells (Heap.base h)) ≤ depth)%nat →
  heap_search_alike (WithHeap.depth_first_search depth w) (Heap.depth_first_search depth h).
Proof.
  induction depth as [|depth IH]; intros w h HM HInv Hlen;
    cbn [WithHeap.depth_first_search Heap.depth_first_search];
    rewrite (heap_choose_cell_mirrors w h HM);
    unfold Heap.is_goal_state; pose proof HM as [[Mb Me _ _ _] _]; rewrite Me;
    case_bool_decide as Hnil.
  - apply length_zero_iff_nil in Hnil. rewrite Hnil in Mb. simpl.
    by split; apply agree_off_nil.
  - lia.
  - apply length_zero_iff_nil in Hnil. rewrite Hnil in Mb. simpl.
    by split; apply agree_off_nil.
  - destruct (heap_choose_cell_elem h) as ([row col] & -> & Hin & _).
    { intros Heq. by rewrite Heq in Hnil. }
    assert (Forall (λ d, 1 ≤ d ≤ 9) digits) as Hds
      by (apply Forall_forall; intros d Hd%elem_of_seqZ; lia).
    apply (with_heap_try_digits_alike depth (row, col)
             (length (empty_cells (Heap.base h)) - 1)); try done; try lia.
    intros w1 h1 HM1 HInv1 Hlen1. apply IH; [done..|lia].
Qed.

(** [sudoku_with_heap.py] gives the answers of approach 3, and raises on
    the same grids. *)
Theorem with_heap_same_answer (g : Grid) :
  (∀ out, (∃ after, WithHeap.sudoku_solver g = Returned out after) ↔
          (∃ after, Heap.sudoku_solver g = Returned out after)) ∧
  (WithHeap.sudoku_solver g = Raised ↔ Heap.sudoku_solver g = Raised).
Proof.
  pose proof (heap_new_state_ok g) as Hinit.
  unfold WithHeap.sudoku_solver, Heap.sudoku_solver.
  destruct (Heap.new_state g) as [st| |]; [|done..].
  destruct Hinit as (HInv & _).
  assert (heap_mirrors st st) as HM by (split; [split; try done; apply agree_off_refl|done]).
  pose proof (with_heap_depth_first_search_alike _ st st HM HInv (le_n _)) as Hrec.
  pose proof (heap_depth_first_search_ok _ st HInv (le_n _)) as Hok.
  destruct (WithHeap.depth_first_search (length (empty_cells (Heap.base st))) st)
    as [| | |goalw w2 logw2|w2 logw2],
    (Heap.depth_first_search (length (empty_cells (Heap.base st))) st)
    as [| | |goal h2 logh2|h2 logh2]; simpl in Hrec, Hok; try done.
  - destruct Hrec as [-> _]. split; [|done]. intros out.
    split; intros [after [= -> _]]; eauto.
  - split; [|done]. intros out. split; intros [after [= <- _]]; eauto.
Qed.

(** * Solving twice *)

(** A solved grid is the only solved grid that keeps its entries. *)
Lemma solved_grid_only_solution out sol :
  valid_solution out → valid_solution sol → keeps_clues out sol → sol = out.
Proof.
  intros Hout Hsol Hk. apply grid_ext; [apply Hout|by rewrite (proj1 Hsol), (proj1 Hout)|].
  intros p Hp. destruct (valid_digit out p Hout Hp) as (d & Hd & Hpd).
  rewrite Hpd. apply (Hk p d Hp Hpd). lia.
Qed.

(** Solving the answer again gives the answer again: a solved grid comes
    back as it is, and so does the grid of -1. *)
Theorem solver_idempotent (g out after : Grid) :
  wf_grid g → digits_only g →
  Final.sudoku_solver g = Returned out after →
  Final.sudoku_solver out = Returned out out.
Proof.
  intros Hwf Hdig Hret.
  assert (Final.sudoku_solver invalid_sudoku = Returned invalid_sudoku invalid_sudoku)
    as Hinv by (vm_compute; reflexivity).
  destruct (sudoku_solver_cases g Hwf)
    as [[_ H] | [(_ & _ & H) | (_ & st & H & HInv & _ & Hc)]];
    rewrite H in Hret; injection Hret as <- _; try done.
  assert (valid_solution (board st)) as Hvalid by (by apply (completed_valid g)).
  apply unique_solution_found; try done; [apply Hvalid|by intros p v|].
  intros sol. by apply solved_grid_only_solution.
Qed.

Lemma solver_idempotent_witness :
  Final.sudoku_solver easy_solved = Returned easy_solved easy_solved.
Proof.
  apply (solver_idempotent easy easy_solved easy_solved).
  - reflexivity.
  - by_computation.
  - vm_compute. reflexivity.
Defined.
